(** * ConfigExtractor: discovery, dispatch and result normalisation

    A shallow embedding of [configextractor/main.py] (class
    [ConfigExtractor]) and [configextractor/frameworks/cape.py] (class
    [CAPE]), with the properties of the library's specification stated and
    proved over it.  The embedding comes first, then the vocabulary of the
    properties and concrete plugins to run the model on, then the proofs.

    Python objects are modelled as follows.
    - A [dict] is an association list in insertion order ([Dict]).
    - A plugin unit (a loaded module or a class found in it) is a [Member]:
      an object identity together with the attributes the code reads.
    - Code that can raise is written in a state-and-exception monad: the
      state survives a raise, as in-place mutation does in Python.
    - The [regex] and [yara] engines, the [maco] model class and the parts of
      [configextractor.frameworks] that are not part of these sources are
      the fields of a [World].
    - The file system enters through [os.listdir], a field of the [World],
      and through what the walk of a root found: its units, the files that
      are not Python, and the exceptions of the imports, of the staging
      copy and of its removal ([Root], [Unit_]).
    - Debug-level log lines are left out.  The search path ([sys.path])
      is not a state of the model: what it changes, the outcome of an
      import, is given with each unit. *)

From Stdlib Require Import List String Ascii Bool Arith Lia ZArith.
Import ListNotations.
Open Scope string_scope.
Open Scope list_scope.

(* ------------------------------------------------------------------ *)
(** * Strings *)

Module Str.

(** [s.startswith(p)] *)
Definition startswith (s p : string) : bool := String.prefix p s.

Fixpoint rev_string (s : string) (acc : string) : string :=
  match s with
  | EmptyString => acc
  | String c s' => rev_string s' (String c acc)
  end.

(** [s.endswith(p)] *)
Definition endswith (s p : string) : bool :=
  String.prefix (rev_string p "") (rev_string s "").

(** [needle in hay] *)
Fixpoint contains (hay needle : string) : bool :=
  String.prefix needle hay ||
  match hay with
  | EmptyString => false
  | String _ hay' => contains hay' needle
  end.

(** [s.split('.')[-1]]: what follows the last dot. *)
Fixpoint last_component_aux (s : string) (cur : string) : string :=
  match s with
  | EmptyString => rev_string cur ""
  | String c s' =>
      if Ascii.eqb c "."%char then last_component_aux s' ""
      else last_component_aux s' (String c cur)
  end.

Definition last_component (s : string) : string := last_component_aux s "".

(** [s.replace(old, new)] for a non-empty [old]: occurrences are replaced
    from left to right and do not overlap.  [skip] counts the characters
    of an occurrence that was just replaced and are still to be dropped. *)
Fixpoint replace_aux (old new : string) (skip : nat) (s : string) : string :=
  match s with
  | EmptyString => EmptyString
  | String c s' =>
      match skip with
      | S k => replace_aux old new k s'
      | 0 =>
          if String.prefix old s
          then new ++ replace_aux old new (String.length old - 1) s'
          else String c (replace_aux old new 0 s')
      end
  end.

(** With an empty [old] Python inserts [new] around every character. *)
Fixpoint intersperse (new s : string) : string :=
  match s with
  | EmptyString => new
  | String c s' => new ++ String c (intersperse new s')
  end.

Definition replace (s old new : string) : string :=
  match old with
  | EmptyString => intersperse new s
  | _ => replace_aux old new 0 s
  end.

(** [sep.join(l)] *)
Definition join (sep : string) (l : list string) : string := String.concat sep l.

End Str.

(* ------------------------------------------------------------------ *)
(** * Python dictionaries

    Keys are compared with a decidable equality, entries keep their
    insertion order, and assigning to a key that is present replaces the
    value where it stands. *)

Class EqKey (K : Type) := {
  keqb : K -> K -> bool;
  keqb_spec : forall a b, reflect (a = b) (keqb a b)
}.

#[global] Instance EqKey_string : EqKey string :=
  {| keqb := String.eqb; keqb_spec := String.eqb_spec |}.

#[global] Instance EqKey_nat : EqKey nat :=
  {| keqb := Nat.eqb; keqb_spec := Nat.eqb_spec |}.

Definition option_eqb {A} (eqb : A -> A -> bool) (a b : option A) : bool :=
  match a, b with
  | Some x, Some y => eqb x y
  | None, None => true
  | _, _ => false
  end.

#[global] Instance EqKey_option {K} `{EqKey K} : EqKey (option K).
Proof.
  refine {| keqb := option_eqb keqb |}.
  intros [x|] [y|]; simpl; try (constructor; congruence).
  destruct (keqb_spec x y); constructor; congruence.
Defined.

Module Dict.

Section Defs.
Context {K V : Type} `{EqKey K}.

Definition t := list (K * V).

Definition empty : t := [].

(** [d.get(k)] *)
Fixpoint get (k : K) (d : t) : option V :=
  match d with
  | [] => None
  | (k', v) :: d' => if keqb k k' then Some v else get k d'
  end.

(** [d[k] = v] *)
Fixpoint set (k : K) (v : V) (d : t) : t :=
  match d with
  | [] => [(k, v)]
  | (k', v') :: d' => if keqb k k' then (k', v) :: d' else (k', v') :: set k v d'
  end.

(** [d.setdefault(k, v)] (the dictionary afterwards) *)
Definition setdefault (k : K) (v : V) (d : t) : t :=
  match get k d with
  | Some _ => d
  | None => set k v d
  end.

Definition mem (k : K) (d : t) : bool :=
  match get k d with Some _ => true | None => false end.

Definition keys (d : t) : list K := map fst d.
Definition values (d : t) : list V := map snd d.
Definition size (d : t) : nat := List.length d.

(** [d.update(d2)] *)
Definition update (d d2 : t) : t :=
  fold_left (fun acc kv => set (fst kv) (snd kv) acc) d2 d.

End Defs.

Arguments t : clear implicits.

(** [{k: f(v) for k, v in d.items()}], also the effect of mutating every
    value in place. *)
Definition map_values {K V W : Type} (f : V -> W) (d : t K V) : t K W :=
  map (fun kv => (fst kv, f (snd kv))) d.

End Dict.

(* ------------------------------------------------------------------ *)
(** * Values, exceptions and effects *)

(** JSON-like Python values: what a parser returns and what a record
    carries in its free-form fields. *)
#[local] Set Warnings "-register-all".
Inductive pyval : Type :=
| PNone
| PBool (b : bool)
| PInt (z : Z)
| PStr (s : string)
| PList (l : list pyval)
| PDict (d : list (string * pyval)).

(** Python truthiness, as tested by [if result:]. *)
Definition truthy (v : pyval) : bool :=
  match v with
  | PNone => false
  | PBool b => b
  | PInt z => negb (Z.eqb z 0)
  | PStr s => negb (String.eqb s "")
  | PList l => match l with [] => false | _ => true end
  | PDict d => match d with [] => false | _ => true end
  end.

(** Where a failed subscript [d[k]] was evaluated. *)
Inductive lookup_site : Type :=
| InParsers              (* self.parsers[...] *)
| InFrameworkMapping.    (* self.FRAMEWORK_LIBRARY_MAPPING[...] *)

(** Exceptions, all of them instances of Python's [Exception]. *)
Inductive exn : Type :=
| TypeError (msg : string)
| AttributeError (attr : string)
| KeyError (site : lookup_site) (key : option string)
| RegexError (pattern : string)
| YaraError (msg : string)
| IOError (path : string)
| OtherError (msg : string).

Definition is_TypeError (e : exn) : bool :=
  match e with TypeError _ => true | _ => false end.

Inductive outcome (A : Type) : Type :=
| Ret (a : A)
| Raise (e : exn).
Arguments Ret {A} a.
Arguments Raise {A} e.

(** A computation over a mutable state [S]: the state is returned also
    when the computation raises. *)
Definition M (S A : Type) : Type := S -> outcome A * S.

Definition ret {S A} (a : A) : M S A := fun s => (Ret a, s).

Definition raise {S A} (e : exn) : M S A := fun s => (Raise e, s).

Definition bind {S A B} (m : M S A) (f : A -> M S B) : M S B :=
  fun s =>
    match m s with
    | (Ret a, s') => f a s'
    | (Raise e, s') => (Raise e, s')
    end.

(** [try: m  except Exception as e: h e] *)
Definition try_except {S A} (m : M S A) (h : exn -> M S A) : M S A :=
  fun s =>
    match m s with
    | (Ret a, s') => (Ret a, s')
    | (Raise e, s') => h e s'
    end.

(** A call to code that does not touch the state. *)
Definition lift {S A} (o : outcome A) : M S A := fun s => (o, s).

Definition modify {S} (f : S -> S) : M S unit := fun s => (Ret tt, f s).

Definition gets {S A} (f : S -> A) : M S A := fun s => (Ret (f s), s).

Declare Scope monad_scope.
Delimit Scope monad_scope with monad.
Notation "x <- m ;; k" := (bind m (fun x => k))
  (at level 61, m at next level, right associativity) : monad_scope.
Notation "m ;;; k" := (bind m (fun _ => k))
  (at level 61, right associativity) : monad_scope.
Open Scope monad_scope.

(* ------------------------------------------------------------------ *)
(** * Results and their normalisation *)

(** One entry of [config['http']]: a dictionary with string values, among
    them the optional ['protocol'] and ['uri']. *)
Definition NetworkConn : Type := Dict.t string string.

(** The ['config'] dictionary of a record: its ['http'] list when the key
    is present, and everything else. *)
Record Config : Type := mkConfig {
  http : option (list NetworkConn);
  fields : Dict.t string pyval
}.

(** What a framework returns for one parser. *)
Record ResultRecord : Type := mkRecord {
  author : pyval;
  description : pyval;
  config : option Config
}.

(** [{parser name: record}], the value of [Framework.run]. *)
Definition Records : Type := Dict.t string ResultRecord.

(** The body of the inner loop of [finalize]. *)
Definition finalize_conn (network_conn : NetworkConn) : NetworkConn :=
  let network_conn := Dict.setdefault "protocol" "http" network_conn in
  match Dict.get "uri" network_conn, Dict.get "protocol" network_conn with
  | Some uri, Some protocol =>
      if negb (String.eqb uri "") && negb (Str.startswith uri protocol)
      then Dict.set "uri" (protocol ++ "://" ++ uri)%string network_conn
      else network_conn
  | _, _ => network_conn
  end.

(** [config.get('http', [])] is walked; an absent key stays absent. *)
Definition finalize_config (c : Config) : Config :=
  {| http := option_map (map finalize_conn) (http c); fields := fields c |}.

(** [config.get('config', {})] *)
Definition finalize_record (r : ResultRecord) : ResultRecord :=
  {| author := author r;
     description := description r;
     config := option_map finalize_config (config r) |}.

(** [ConfigExtractor.finalize]: every record of the mapping is normalised
    in place. *)
Definition finalize (results : Records) : Records :=
  Dict.map_values finalize_record results.

(* ------------------------------------------------------------------ *)
(** * Plugin units, frameworks and the outside world *)

(** A candidate of discovery and, once registered, a parser: a loaded
    module or a class found in one.  [oid] is the object's identity, by
    which Python sets and dictionaries tell such objects apart; the other
    fields are the attributes the code reads, [None] where the object does
    not have the attribute.  A class has a [__module__]; a module object
    has none.  [__str__] is what [str] gives for the object: for a class
    ["<class 'module.qualname'>"], for a module loaded from a file
    ["<module 'name' from 'file'>"]. *)
Record Member : Type := mkMember {
  oid : nat;
  __name__ : string;
  __module__ : option string;
  __str__ : string;
  extract_config : option (list Byte.byte -> outcome pyval);
  AUTHOR : option pyval;
  DESCRIPTION : option pyval
}.

(** [obj.attr] *)
Definition getattr {A} (attr : string) (field : option A) : outcome A :=
  match field with
  | Some a => Ret a
  | None => Raise (AttributeError attr)
  end.

(** [PARSER_FRAMEWORKS], in its order. *)
Inductive framework : Type := MACO | MWCP | CAPE.

Definition PARSER_FRAMEWORKS : list framework := [MACO; MWCP; CAPE].

(** [fw_cls.__name__], the key of [FRAMEWORK_LIBRARY_MAPPING]. *)
Definition fw_name (fw : framework) : string :=
  match fw with MACO => "MACO" | MWCP => "MWCP" | CAPE => "CAPE" end.

(** [FRAMEWORK_LIBRARY_MAPPING.get(name)] *)
Definition framework_of_name (name : string) : option framework :=
  find (fun fw => String.eqb (fw_name fw) name) PARSER_FRAMEWORKS.

(** A [yara.Match]: the rule that matched and its metadata. *)
Record YaraMatch : Type := mkMatch {
  rule : string;
  meta : Dict.t string string
}.

(** [{parser: [yara matches]}], keyed by the parser object. *)
Definition Batch : Type := Dict.t nat (Member * list YaraMatch).

Definition batch_parsers (b : Batch) : list Member := map (fun e => fst (snd e)) b.

(** What the code calls and these sources do not contain.
    - [regex]: [regex_valid p] tells whether [regex.compile(p)] succeeds,
      [regex_match p s] whether the compiled pattern's [match(s)] finds a
      match; a compiled pattern is represented by its text.
    - [yara]: [yara_compile src] is the error of [yara.compile(source=src)]
      if any; a compiled ruleset is represented by its source;
      [yara_match src sample] is [match] on a sample path.
    - [configextractor.frameworks]: [validate] of MACO and MWCP,
      [extract_yara_from_module] (it receives the list of used rule names,
      which it may extend: the list afterwards is returned too), [get_name],
      and [run] of MACO and MWCP, which is given the sample path and the
      batch, not the extractor.
    - [maco.model]: [ExtractorModel(other=.., family=..).dict(skip_defaults=True)].
    - the file system: [open(path, 'rb').read()] and [os.listdir(path)].
    - the interpreter: [recursion_limit] is the number of nested calls
      that the recursion limit still allows where [__init__] calls
      [find_site_packages]. *)
Record World : Type := mkWorld {
  regex_valid : string -> bool;
  regex_match : string -> string -> bool;
  yara_compile : string -> option exn;
  yara_match : string -> string -> outcome (list YaraMatch);
  other_validate : framework -> Member -> outcome bool;
  extract_yara_from_module :
    framework -> Member -> list string -> outcome (list string) * list string;
  get_name : framework -> Member -> string;
  other_run : framework -> string -> Batch -> outcome Records;
  ExtractorModel_dict : pyval -> string -> outcome Config;
  read_file : string -> outcome (list Byte.byte);
  listdir : string -> outcome (list string);
  recursion_limit : nat
}.

Inductive log_entry : Type :=
| LogError (subject : string) (e : exn)
| LogInfo (msg : string).

(** [str(member)], as [f"{member}: {e}"] formats the object; formatting
    a class or a module object is taken to return. *)
Definition member_str (m : Member) : string := __str__ m.

(** A constructed [ConfigExtractor].  [standalone_parsers] is a
    [defaultdict(set)]: a set of members is a list without two members of
    the same identity.  [invoked] is not an attribute: it lists, in order,
    the identities of the parsers whose entry point has been called. *)
Record Extractor : Type := mkExtractor {
  parsers : Dict.t string Member;
  standalone_parsers : Dict.t string (list Member);
  yara : string;
  log : list log_entry;
  invoked : list nat
}.

Definition log_error (subject : string) (e : exn) : M Extractor unit :=
  modify (fun cx => mkExtractor (parsers cx) (standalone_parsers cx) (yara cx)
                      (log cx ++ [LogError subject e]) (invoked cx)).

Definition log_info (msg : string) : M Extractor unit :=
  modify (fun cx => mkExtractor (parsers cx) (standalone_parsers cx) (yara cx)
                      (log cx ++ [LogInfo msg]) (invoked cx)).

(** Calling a parser's entry point. *)
Definition invoke {A} (parser : Member) (result : outcome A) : M Extractor A :=
  fun cx => (result, mkExtractor (parsers cx) (standalone_parsers cx) (yara cx)
                       (log cx) (invoked cx ++ [oid parser])).

(* ------------------------------------------------------------------ *)
(** * The CAPE framework *)

Section Cape.
Variable W : World.

(** [CAPE.validate] *)
Definition CAPE_validate (module : Member) : bool :=
  match extract_config module with Some _ => true | None => false end.

(** The body of the [try] in [CAPE.run]: the record to store, if the
    parser returned something truthy. *)
Definition CAPE_try (sample_path : string) (parser : Member) (parser_name : string)
  : M Extractor (option ResultRecord) :=
  extract <- lift (getattr "extract_config" (extract_config parser)) ;;
  data <- lift (read_file W sample_path) ;;
  result <- invoke parser (extract data) ;;
  if truthy result then
    author_ <- lift (getattr "AUTHOR" (AUTHOR parser)) ;;
    description_ <- lift (getattr "DESCRIPTION" (DESCRIPTION parser)) ;;
    config_ <- lift (ExtractorModel_dict W result parser_name) ;;
    ret (Some {| author := author_;
                 description := if truthy description_ then description_ else PStr "";
                 config := Some config_ |})
  else ret None.

(** One turn of the loop of [CAPE.run]. *)
Definition CAPE_run_one (sample_path : string) (parser : Member) (results : Records)
  : M Extractor Records :=
  let parser_name := get_name W CAPE parser in
  try_except
    (r <- CAPE_try sample_path parser parser_name ;;
     match r with
     | Some record => ret (Dict.update results [(parser_name, record)])
     | None => ret results
     end)
    (fun e => log_error parser_name e ;;; ret results).

Fixpoint CAPE_run_loop (sample_path : string) (items : Batch) (results : Records)
  : M Extractor Records :=
  match items with
  | [] => ret results
  | (_, (parser, yara_matches)) :: rest =>
      results' <- CAPE_run_one sample_path parser results ;;
      CAPE_run_loop sample_path rest results'
  end.

(** [CAPE.run] *)
Definition CAPE_run (sample_path : string) (parsers_ : Batch) : M Extractor Records :=
  CAPE_run_loop sample_path parsers_ [].

(** The parser's turn ends in the [except] branch. *)
Definition CAPE_parser_raises (sample_path : string) (parser : Member) : Prop :=
  forall cx, exists e,
    fst (CAPE_try sample_path parser (get_name W CAPE parser) cx) = Raise e.

End Cape.

(* ------------------------------------------------------------------ *)
(** * Blocklists *)

Section Blocklist.
Variable W : World.

(** [regex.compile('|'.join(parser_blocklist)) if parser_blocklist else None] *)
Definition compile_blocklist (parser_blocklist : list string) : outcome (option string) :=
  match parser_blocklist with
  | [] => Ret None
  | _ =>
      let pattern := Str.join "|" parser_blocklist in
      if regex_valid W pattern then Ret (Some pattern) else Raise (RegexError pattern)
  end.

(** [block_regex and block_regex.match(name)] *)
Definition is_blocked (block_regex : option string) (name : string) : bool :=
  match block_regex with
  | Some pattern => regex_match W pattern name
  | None => false
  end.

End Blocklist.

(* ------------------------------------------------------------------ *)
(** * The search for a local [site-packages]: [find_site_packages] *)

(** [os.path.join(a, b)] on POSIX paths. *)
Definition path_join (a b : string) : string :=
  if Str.startswith b "/" then b
  else if String.eqb a "" || Str.endswith a "/" then a ++ b
  else a ++ "/" ++ b.

Module Path.

(** [p[:p.rfind('/') + 1]]: [p] up to and including its last separator. *)
Fixpoint head_of (p : string) : string :=
  match p with
  | EmptyString => EmptyString
  | String c p' =>
      match head_of p' with
      | EmptyString => if Ascii.eqb c "/" then String c EmptyString else EmptyString
      | h => String c h
      end
  end.

(** [s == '/' * len(s)] *)
Fixpoint all_sep (s : string) : bool :=
  match s with
  | EmptyString => true
  | String c s' => Ascii.eqb c "/" && all_sep s'
  end.

(** [s.rstrip('/')] *)
Fixpoint rstrip (s : string) : string :=
  match s with
  | EmptyString => EmptyString
  | String c s' =>
      match rstrip s' with
      | EmptyString => if Ascii.eqb c "/" then EmptyString else String c EmptyString
      | r => String c r
      end
  end.

(** [os.path.dirname] on POSIX paths. *)
Definition dirname (p : string) : string :=
  let head := head_of p in
  if negb (String.eqb head "") && negb (all_sep head) then rstrip head else head.

End Path.

(** What Python raises when the recursion limit is exceeded. *)
Definition RecursionError : exn := OtherError "maximum recursion depth exceeded".

Section SitePackages.

(** [os.listdir] *)
Variable os_listdir : string -> outcome (list string).

(** ['site-packages' in os.listdir(d)] *)
Definition has_site_packages (entries : list string) : bool :=
  existsb (String.eqb "site-packages") entries.

(** [local_site_packages], as computed at the head of a root's turn. *)
Definition local_site_packages (parsers_dir : string) : outcome (option string) :=
  match os_listdir parsers_dir with
  | Raise e => Raise e
  | Ret entries =>
      if has_site_packages entries
      then Ret (Some (path_join parsers_dir "site-packages"))
      else Ret None
  end.

(** [find_site_packages(path)], a closure over [parsers_dir] and
    [local_site_packages].  [depth] is the number of calls that the
    recursion limit still allows. *)
Fixpoint find_site_packages (depth : nat) (parsers_dir : string)
    (local_site_packages : option string) (path : string) : outcome (option string) :=
  match depth with
  | 0 => Raise RecursionError
  | S depth' =>
      let parent_dir := Path.dirname path in
      if String.eqb parent_dir parsers_dir then Ret local_site_packages
      else
        match os_listdir parent_dir with
        | Raise e => Raise e
        | Ret entries =>
            if has_site_packages entries
            then Ret (Some (path_join parent_dir "site-packages"))
            else find_site_packages depth' parsers_dir local_site_packages parent_dir
        end
  end.

End SitePackages.

(* ------------------------------------------------------------------ *)
(** * Discovery: [ConfigExtractor.__init__] *)

(** One item of [pkgutil.walk_packages]: the module's dotted name, whether
    it is a package, the path of its finder ([module_path.path], the folder
    that holds it), and what importing it gives: an exception, or the
    module object with the classes that [inspect.getmembers] finds in it
    ([inspect.getmembers] reads the attributes that the module object
    lists and is taken to return). *)
Record Unit_ : Type := mkUnit {
  module_name : string;
  ispkg : bool;
  finder_path : string;
  imported : outcome (Member * list Member)
}.

(** One entry of [parsers_dirs].  [original_dir] is the caller's path and
    [parsers_dir] the directory the units were loaded from: the same path,
    or that of the staging copy when an installed package shadowed the
    folder name.  [root_import] is the exception, if any, of locating and
    importing the root package: the import of the folder and, when an
    installed package shadowed it, the copy to the staging directory and
    the import from there.  [not_py] lists the names of the files in the
    tree that are neither [.py] nor [.pyc], as [os.walk] lists them
    ([os.walk] skips what it cannot list).  [units] are the items that
    [pkgutil.walk_packages] yields and [walk_error] the exception, if any,
    with which it ends after them: it imports every package it descends
    into and lets through what is not an [ImportError].  [cleanup_error] is
    the exception, if any, of [shutil.rmtree] on the staging copy. *)
Record Root : Type := mkRoot {
  original_dir : string;
  parsers_dir : string;
  root_import : option exn;
  not_py : list string;
  units : list Unit_;
  walk_error : option exn;
  cleanup_error : option exn
}.

(** The registry under construction, with the local variables
    [yara_rules] and [yara_rule_names]. *)
Record Discovery : Type := mkDiscovery {
  d_parsers : Dict.t string Member;
  d_standalone : Dict.t string (list Member);
  yara_rules : list string;
  yara_rule_names : list string;
  d_log : list log_entry
}.

Definition Discovery_empty : Discovery := mkDiscovery [] [] [] [] [].

(** [s.add(member)] on a set of objects *)
Definition set_add (member : Member) (s : list Member) : list Member :=
  if existsb (fun x => Nat.eqb (oid x) (oid member)) s then s else s ++ [member].

Inductive loop_ctl : Type := Break | Continue.

Section Discovery.
Variable W : World.

Definition d_log_error (subject : string) (e : exn) : M Discovery unit :=
  modify (fun d => mkDiscovery (d_parsers d) (d_standalone d) (yara_rules d)
                     (yara_rule_names d) (d_log d ++ [LogError subject e])).

(** [self.parsers[key] = member] *)
Definition register (key : string) (member : Member) : M Discovery unit :=
  modify (fun d => mkDiscovery (Dict.set key member (d_parsers d)) (d_standalone d)
                     (yara_rules d) (yara_rule_names d) (d_log d)).

(** [self.standalone_parsers[fw_name].add(member)] *)
Definition add_standalone (fw : framework) (member : Member) : M Discovery unit :=
  modify (fun d =>
    let s := match Dict.get (fw_name fw) (d_standalone d) with
             | Some s => s
             | None => []
             end in
    mkDiscovery (d_parsers d) (Dict.set (fw_name fw) (set_add member s) (d_standalone d))
      (yara_rules d) (yara_rule_names d) (d_log d)).

(** [yara_rules.extend(rules)] *)
Definition extend_rules (rules : list string) : M Discovery unit :=
  modify (fun d => mkDiscovery (d_parsers d) (d_standalone d) (yara_rules d ++ rules)
                     (yara_rule_names d) (d_log d)).

(** [fw_class.extract_yara_from_module(member, yara_rule_names)] *)
Definition extract_rules (fw : framework) (member : Member) : M Discovery (list string) :=
  fun d =>
    let (res, names) := extract_yara_from_module W fw member (yara_rule_names d) in
    (res, mkDiscovery (d_parsers d) (d_standalone d) (yara_rules d) names (d_log d)).

(** [fw_class.validate(member)] *)
Definition validate (fw : framework) (member : Member) : outcome bool :=
  match fw with
  | CAPE => Ret (CAPE_validate member)
  | _ => other_validate W fw member
  end.

(** The body of [for fw_name, fw_class in self.FRAMEWORK_LIBRARY_MAPPING.items()]. *)
Definition claim (block_regex : option string) (fw : framework) (member : Member)
  : M Discovery loop_ctl :=
  try_except
    (ok <- lift (validate fw member) ;;
     if ok then
       if is_blocked W block_regex (__name__ member) then ret Continue
       else
         key <- lift (getattr "__module__" (__module__ member)) ;;
         register key member ;;;
         rules <- extract_rules fw member ;;
         match rules with
         | [] => add_standalone fw member
         | _ => extend_rules rules
         end ;;;
         ret Break
     else ret Continue)
    (fun e =>
       if is_TypeError e then ret Continue
       else d_log_error (member_str member) e ;;; ret Continue).

Fixpoint try_frameworks (block_regex : option string) (fws : list framework)
    (member : Member) : M Discovery unit :=
  match fws with
  | [] => ret tt
  | fw :: rest =>
      c <- claim block_regex fw member ;;
      match c with
      | Break => ret tt
      | Continue => try_frameworks block_regex rest member
      end
  end.

(** [for member in candidates] *)
Fixpoint inspect_candidates (block_regex : option string) (candidates : list Member)
  : M Discovery unit :=
  match candidates with
  | [] => ret tt
  | member :: rest =>
      try_frameworks block_regex PARSER_FRAMEWORKS member ;;;
      inspect_candidates block_regex rest
  end.

(** The three [continue]s at the head of the walk. *)
Definition skipped (root : Root) (u : Unit_) : bool :=
  ispkg u
  || Str.endswith (module_name u) ".setup"
  || existsb (fun np => Str.contains np (Str.last_component (module_name u))) (not_py root).

(** [yara_rules = [rule.replace(parsers_dir, original_dir) for rule in yara_rules]] *)
Definition correct_rules (root : Root) : M Discovery unit :=
  if String.eqb (original_dir root) (parsers_dir root) then ret tt
  else modify (fun d =>
    mkDiscovery (d_parsers d) (d_standalone d)
      (map (fun rule => Str.replace rule (parsers_dir root) (original_dir root)) (yara_rules d))
      (yara_rule_names d) (d_log d)).

(** [{k.replace(parsers_dir, original_dir): v for k, v in self.parsers.items()}] *)
Definition rekey (root : Root) (ps : Dict.t string Member) : Dict.t string Member :=
  fold_left
    (fun acc kv => Dict.set (Str.replace (fst kv) (parsers_dir root) (original_dir root))
                            (snd kv) acc)
    ps [].

Definition correct_parsers (root : Root) : M Discovery unit :=
  if String.eqb (original_dir root) (parsers_dir root) then ret tt
  else modify (fun d =>
    mkDiscovery (rekey root (d_parsers d)) (d_standalone d) (yara_rules d)
      (yara_rule_names d) (d_log d)).

(** The import of a unit and what follows it in the body of the walk. *)
Definition load_unit (block_regex : option string) (root : Root) (u : Unit_)
  : M Discovery unit :=
  match imported u with
  | Raise e => d_log_error (module_name u) e
  | Ret (module, classes) =>
      inspect_candidates block_regex (module :: classes) ;;;
      correct_rules root
  end.

(** The body of [for module_path, module_name, ispkg in pkgutil.walk_packages(..)].
    The search for the unit's [site-packages] is not inside the [try]. *)
Definition walk_unit (block_regex : option string) (root : Root)
    (root_site_packages : option string) (u : Unit_) : M Discovery unit :=
  if skipped root u then ret tt
  else
    parser_site_packages <-
      lift (find_site_packages (listdir W) (recursion_limit W) (parsers_dir root)
              root_site_packages (finder_path u)) ;;
    load_unit block_regex root u.

Fixpoint walk_units (block_regex : option string) (root : Root)
    (root_site_packages : option string) (us : list Unit_) : M Discovery unit :=
  match us with
  | [] => ret tt
  | u :: rest =>
      walk_unit block_regex root root_site_packages u ;;;
      walk_units block_regex root root_site_packages rest
  end.

(** [shutil.rmtree(parsers_dir)], where the root was loaded from a staging
    copy. *)
Definition cleanup (root : Root) : M Discovery unit :=
  if String.eqb (original_dir root) (parsers_dir root) then ret tt
  else match cleanup_error root with
       | Some e => raise e
       | None => ret tt
       end.

(** The body of [for parsers_dir in parsers_dirs]. *)
Definition walk_root (parser_blocklist : list string) (root : Root) : M Discovery unit :=
  root_site_packages <- lift (local_site_packages (listdir W) (original_dir root)) ;;
  match root_import root with
  | Some e => raise e
  | None =>
      block_regex <- lift (compile_blocklist W parser_blocklist) ;;
      walk_units block_regex root root_site_packages (units root) ;;;
      match walk_error root with
      | Some e => raise e
      | None => correct_parsers root ;;; cleanup root
      end
  end.

Fixpoint walk_roots (parser_blocklist : list string) (roots : list Root)
  : M Discovery unit :=
  match roots with
  | [] => ret tt
  | root :: rest =>
      walk_root parser_blocklist root ;;; walk_roots parser_blocklist rest
  end.

Definition newline : string := String (Ascii.ascii_of_nat 10) "".

(** [repr] of a list of strings that need no escaping. *)
Definition repr_list (l : list string) : string :=
  "[" ++ Str.join ", " (map (fun p => "'" ++ p ++ "'")%string l) ++ "]".

(** The line logged at the end of a construction with a blocklist. *)
Definition ignoring_message (parser_blocklist : list string) : string :=
  "Ignoring output from the following parsers matching: " ++ repr_list parser_blocklist.

(** [self.yara = yara.compile(source='\n'.join(yara_rules))] and the final
    log line. *)
Definition compile_rules (parser_blocklist : list string) (d : Discovery)
  : outcome Extractor :=
  let source := Str.join newline (yara_rules d) in
  match yara_compile W source with
  | Some e => Raise e
  | None =>
      Ret (mkExtractor (d_parsers d) (d_standalone d) source
             (match parser_blocklist with
              | [] => d_log d
              | _ => d_log d ++ [LogInfo (ignoring_message parser_blocklist)]
              end)
             [])
  end.

(** The state in which discovery ends or is aborted. *)
Definition discover (parsers_dirs : list Root) (parser_blocklist : list string)
  : outcome unit * Discovery :=
  walk_roots parser_blocklist parsers_dirs Discovery_empty.

(** [ConfigExtractor(parsers_dirs, parser_blocklist=..)] *)
Definition ConfigExtractor_init (parsers_dirs : list Root) (parser_blocklist : list string)
  : outcome Extractor :=
  match discover parsers_dirs parser_blocklist with
  | (Ret _, d) => compile_rules parser_blocklist d
  | (Raise e, _) => Raise e
  end.

End Discovery.

(* ------------------------------------------------------------------ *)
(** * Dispatch: [ConfigExtractor.run_parsers] *)

(** [parsers_to_run]: framework name (the value of the rule's
    [parser_framework] metadata, [None] when the rule has none) to batch. *)
Definition RunQueue : Type := Dict.t (option string) Batch.

(** The value of [run_parsers]: framework name to the framework's records. *)
Definition Result : Type := Dict.t string Records.

(** [parsers_to_run[framework][parser].extend(matches)] on nested
    [defaultdict]s: missing entries are created. *)
Definition queue_add (framework_ : option string) (parser : Member)
    (matches : list YaraMatch) (q : RunQueue) : RunQueue :=
  let batch := match Dict.get framework_ q with Some b => b | None => [] end in
  let old := match Dict.get (oid parser) batch with Some (_, l) => l | None => [] end in
  Dict.set framework_ (Dict.set (oid parser) (parser, old ++ matches) batch) q.

(** The line logged for a parser that the blocklist of the call excludes. *)
Definition blocking_message (name : string) : string :=
  "Blocking " ++ name ++ " based on passed blocklist regex list".

Section Dispatch.
Variable W : World.

(** [self.parsers[parser_module]] *)
Definition lookup_parser (parser_module : option string) : M Extractor Member :=
  fun cx =>
    match parser_module with
    | Some k =>
        match Dict.get k (parsers cx) with
        | Some member => (Ret member, cx)
        | None => (Raise (KeyError InParsers parser_module), cx)
        end
    | None => (Raise (KeyError InParsers None), cx)
    end.

(** [for yara_match in self.yara.match(sample)], with the local variables
    [parsers_to_run] and [parser_names]. *)
Fixpoint collect_matches (block_regex : option string) (matches : list YaraMatch)
    (q : RunQueue) (parser_names : list (option string))
  : M Extractor (RunQueue * list (option string)) :=
  match matches with
  | [] => ret (q, parser_names)
  | yara_match :: rest =>
      let parser_module := Dict.get "parser_module" (meta yara_match) in
      let parser_framework := Dict.get "parser_framework" (meta yara_match) in
      let parser_names := parser_names ++ [Dict.get "parser_name" (meta yara_match)] in
      parser <- lookup_parser parser_module ;;
      if is_blocked W block_regex (__name__ parser) then
        log_info (blocking_message (__name__ parser)) ;;;
        collect_matches block_regex rest q parser_names
      else
        collect_matches block_regex rest
          (queue_add parser_framework parser [yara_match] q) parser_names
  end.

(** [for parser in parser_list] of the standalone loop *)
Fixpoint collect_standalone_fw (block_regex : option string) (parser_framework : string)
    (parser_list : list Member) (q : RunQueue) : M Extractor RunQueue :=
  match parser_list with
  | [] => ret q
  | parser :: rest =>
      if is_blocked W block_regex (__name__ parser) then
        log_info (blocking_message (__name__ parser)) ;;;
        collect_standalone_fw block_regex parser_framework rest q
      else
        collect_standalone_fw block_regex parser_framework rest
          (queue_add (Some parser_framework) parser [] q)
  end.

(** [for parser_framework, parser_list in self.standalone_parsers.items()] *)
Fixpoint collect_standalone (block_regex : option string)
    (items : Dict.t string (list Member)) (q : RunQueue) : M Extractor RunQueue :=
  match items with
  | [] => ret q
  | (parser_framework, parser_list) :: rest =>
      q' <- collect_standalone_fw block_regex parser_framework parser_list q ;;
      collect_standalone block_regex rest q'
  end.

(** [self.FRAMEWORK_LIBRARY_MAPPING[framework]] *)
Definition lookup_framework (framework_ : option string) : outcome framework :=
  match framework_ with
  | Some name =>
      match framework_of_name name with
      | Some fw => Ret fw
      | None => Raise (KeyError InFrameworkMapping framework_)
      end
  | None => Raise (KeyError InFrameworkMapping None)
  end.

(** [fw_class.run(sample, parser_list)] *)
Definition framework_run (fw : framework) (sample : string) (parser_list : Batch)
  : M Extractor Records :=
  match fw with
  | CAPE => CAPE_run W sample parser_list
  | _ => lift (other_run W fw sample parser_list)
  end.

(** [for framework, parser_list in parsers_to_run.items()] *)
Fixpoint run_frameworks (sample : string) (items : RunQueue) (results : Result)
  : M Extractor Result :=
  match items with
  | [] => ret results
  | (framework_, parser_list) :: rest =>
      match parser_list with
      | [] => run_frameworks sample rest results
      | _ =>
          fw <- lift (lookup_framework framework_) ;;
          result <- framework_run fw sample parser_list ;;
          let result := finalize result in
          match result with
          | [] => run_frameworks sample rest results
          | _ => run_frameworks sample rest (Dict.set (fw_name fw) result results)
          end
      end
  end.

(** The batches a call hands to the frameworks. *)
Definition plan (sample : string) (parser_blocklist : list string) : M Extractor RunQueue :=
  block_regex <- lift (compile_blocklist W parser_blocklist) ;;
  matches <- (fun cx => (yara_match W (yara cx) sample, cx)) ;;
  qn <- collect_matches block_regex matches [] [] ;;
  standalone <- gets standalone_parsers ;;
  collect_standalone block_regex standalone (fst qn).

(** [ConfigExtractor.run_parsers] *)
Definition run_parsers (sample : string) (parser_blocklist : list string)
  : M Extractor Result :=
  q <- plan sample parser_blocklist ;;
  run_frameworks sample q [].

End Dispatch.

(* ------------------------------------------------------------------ *)
(** * Vocabulary of the properties *)

(** What a computation may do to an extractor: append to its log and to
    its trace of invocations. *)
Definition extends (cx cx' : Extractor) : Prop :=
  parsers cx' = parsers cx
  /\ standalone_parsers cx' = standalone_parsers cx
  /\ yara cx' = yara cx
  /\ (exists l, log cx' = log cx ++ l)
  /\ (exists t, invoked cx' = invoked cx ++ t).

(** Equal but for the log. *)
Definition same_registry (d d' : Discovery) : Prop :=
  d_parsers d' = d_parsers d
  /\ d_standalone d' = d_standalone d
  /\ yara_rules d' = yara_rules d
  /\ yara_rule_names d' = yara_rule_names d.

(** The adapter accepts the candidate. *)
Definition validates (W : World) (fw : framework) (member : Member) : bool :=
  match validate W fw member with Ret true => true | _ => false end.

(** Some adapter accepts the candidate. *)
Definition claimed (W : World) (member : Member) : bool :=
  existsb (fun fw => validates W fw member) PARSER_FRAMEWORKS.

(** The registry key of a candidate that gets registered. *)
Definition registration (W : World) (br : option string) (member : Member)
  : option string :=
  if claimed W member && negb (is_blocked W br (__name__ member))
  then __module__ member else None.

(** Every registered parser and every standalone parser satisfies [Q]. *)
Definition all_registered (Q : Member -> Prop) (d : Discovery) : Prop :=
  (forall m, In m (Dict.values (d_parsers d)) -> Q m)
  /\ (forall s m, In s (Dict.values (d_standalone d)) -> In m s -> Q m).

(** The candidates a walk inspects. *)
Definition unit_candidates (root : Root) (u : Unit_) : list Member :=
  if skipped root u then []
  else match imported u with
       | Ret (module, classes) => module :: classes
       | Raise _ => []
       end.

Definition root_candidates (root : Root) : list Member :=
  flat_map (unit_candidates root) (units root).

Definition candidates_of (roots : list Root) : list Member :=
  flat_map root_candidates roots.

(** The compiled blocklist of a run of discovery. *)
Definition blocklist_regex (W : World) (parser_blocklist : list string)
  : option string :=
  match compile_blocklist W parser_blocklist with
  | Ret block_regex => block_regex
  | Raise _ => None
  end.

(** The registry, the standalone sets and the ruleset of two extractors
    agree. *)
Definition same_core (cx cx2 : Extractor) : Prop :=
  parsers cx2 = parsers cx
  /\ standalone_parsers cx2 = standalone_parsers cx
  /\ yara cx2 = yara cx.

(** A computation that only appends to the log and to the trace, and
    whose value depends on the extractor through its registry, standalone
    sets and ruleset only. *)
Definition frames {A} (m : M Extractor A) : Prop :=
  forall cx,
    extends cx (snd (m cx))
    /\ forall cx2, same_core cx cx2 -> fst (m cx2) = fst (m cx).

(** Every parser of every batch. *)
Definition queue_members (q : RunQueue) : list Member :=
  flat_map (fun e => batch_parsers (snd e)) q.

(** The batch of the framework has an entry for the parser. *)
Definition queued (framework_ : option string) (parser : Member) (q : RunQueue) : Prop :=
  exists batch,
    Dict.get framework_ q = Some batch /\ Dict.mem (oid parser) batch = true.

(** The members of a list, one per identity. *)
Fixpoint distinct (l : list Member) : list Member :=
  match l with
  | [] => []
  | m :: rest => m :: filter (fun x => negb (Nat.eqb (oid x) (oid m))) (distinct rest)
  end.

(** The distinct candidates that some adapter accepts. *)
Definition claimed_candidates (W : World) (roots : list Root) : list Member :=
  distinct (filter (claimed W) (candidates_of roots)).

(** What the inspection of one candidate does to the registry. *)
Definition register_candidate (W : World) (br : option string)
    (ps : Dict.t string Member) (m : Member) : Dict.t string Member :=
  match registration W br m with
  | Some k => Dict.set k m ps
  | None => ps
  end.

(** The registry after an adapter's turn on [member]: [b] tells whether the
    adapter accepted it. *)
Definition register_if (W : World) (br : option string) (b : bool)
    (member : Member) (ps : Dict.t string Member) : Dict.t string Member :=
  if b && negb (is_blocked W br (__name__ member)) then
    match __module__ member with
    | Some k => Dict.set k member ps
    | None => ps
    end
  else ps.

(** The same world with other adapters: [validate] of MACO and MWCP and
    the rule extraction are replaced. *)
Definition with_adapters (W : World)
    (validate_ : framework -> Member -> outcome bool)
    (extract_ : framework -> Member -> list string -> outcome (list string) * list string)
  : World :=
  mkWorld (regex_valid W) (regex_match W) (yara_compile W) (yara_match W)
    validate_ extract_
    (get_name W) (other_run W) (ExtractorModel_dict W) (read_file W)
    (listdir W) (recursion_limit W).

(** The parser has an entry point that, on the sample, returns something
    truthy. *)
Definition CAPE_parser_output (W : World) (sample_path : string) (parser : Member) : Prop :=
  exists f data v,
    extract_config parser = Some f
    /\ read_file W sample_path = Ret data
    /\ f data = Ret v
    /\ truthy v = true.

(** The records under a framework's name come from a run of that
    framework on a non-empty batch of the queue, and the run returned
    records. *)
Definition produced (W : World) (sample : string) (q : RunQueue)
    (name : string) (recs : Records) : Prop :=
  exists fw batch cx2 cx3 recs0,
    framework_of_name name = Some fw
    /\ In (Some name, batch) q
    /\ batch <> []
    /\ framework_run W fw sample batch cx2 = (Ret recs0, cx3)
    /\ recs0 <> []
    /\ recs = finalize recs0.

(** [self.parsers[yara_match.meta.get('parser_module')]], when it exists. *)
Definition resolve (cx : Extractor) (ym : YaraMatch) : option Member :=
  match Dict.get "parser_module" (meta ym) with
  | Some k => Dict.get k (parsers cx)
  | None => None
  end.





(* ------------------------------------------------------------------ *)
(** * Concrete plugins, used to run the model *)

Module Examples.

Definition no_rules
  : framework -> Member -> list string -> outcome (list string) * list string :=
  fun _ _ names => (Ret [], names).

(** The blocklists of the examples are names joined by [|].  On such a
    pattern the library's [match] tells whether the string starts with one
    of the names.  The worlds of the examples give no other pattern a
    meaning: they refuse it. *)
Definition is_name_char (c : ascii) : bool :=
  let n := nat_of_ascii c in
  (Nat.leb 48 n && Nat.leb n 57) || (Nat.leb 65 n && Nat.leb n 90)
  || (Nat.leb 97 n && Nat.leb n 122) || Nat.eqb n 95 || Nat.eqb n 124.

Fixpoint names_valid (p : string) : bool :=
  match p with
  | EmptyString => true
  | String c p' => is_name_char c && names_valid p'
  end.

Fixpoint alternatives (p : string) (cur : string) : list string :=
  match p with
  | EmptyString => [Str.rev_string cur ""]
  | String c p' =>
      if Ascii.eqb c "|" then Str.rev_string cur "" :: alternatives p' ""
      else alternatives p' (String c cur)
  end.

Definition names_match (p s : string) : bool :=
  existsb (fun name => String.prefix name s) (alternatives p "").

(** The directories of the examples hold no [site-packages]. *)
Definition no_site_packages (d : string) : outcome (list string) := Ret [].

(** A world in which only CAPE claims anything, no parser has a rule,
    every file is empty and no sample matches. *)
Definition plain_world : World :=
  mkWorld names_valid names_match
    (fun _ => None)
    (fun _ _ => Ret [])
    (fun _ _ => Ret false)
    no_rules
    (fun _ m => __name__ m)
    (fun _ _ _ => Ret [])
    (fun other family => Ret (mkConfig None [("family", PStr family); ("other", other)]))
    (fun _ => Ret [])
    no_site_packages 1000.

(** A parser that returns a configuration. *)
Definition good_parser : Member :=
  mkMember 1 "good" (Some "parsers.good") "<class 'parsers.good.good'>"
    (Some (fun _ => Ret (PDict [("key", PStr "value")])))
    (Some (PStr "author")) (Some (PStr "")).

(** A parser whose entry point raises. *)
Definition bad_parser : Member :=
  mkMember 2 "bad" (Some "parsers.bad") "<class 'parsers.bad.bad'>"
    (Some (fun _ => Raise (OtherError "boom")))
    (Some (PStr "author")) (Some (PStr "")).

Definition other_parser : Member :=
  mkMember 3 "other" (Some "parsers.other") "<class 'parsers.other.other'>"
    (Some (fun _ => Ret (PDict [("n", PInt 1)])))
    (Some (PStr "someone")) (Some (PStr "text")).

Definition empty_extractor : Extractor := mkExtractor [] [] "" [] [].

End Examples.

Module Examples2.

(** MACO's validation raises on the classes named ["Broken"] and accepts
    the classes whose name starts with ["Maco"]; MWCP raises [TypeError] on
    everything; rule extraction raises for ["MacoNoRule"] and yields one
    rule for the other MACO classes. *)
Definition picky_validate (fw : framework) (m : Member) : outcome bool :=
  match fw with
  | MACO =>
      if String.eqb (__name__ m) "Broken" then Raise (OtherError "validate failed")
      else Ret (String.prefix "Maco" (__name__ m))
  | _ => Raise (TypeError "issubclass() arg 1 must be a class")
  end.

Definition picky_extract (fw : framework) (m : Member) (names : list string)
  : outcome (list string) * list string :=
  match fw with
  | MACO =>
      if String.eqb (__name__ m) "MacoNoRule" then (Raise (OtherError "no rule"), names)
      else (Ret [("rule " ++ __name__ m)%string], names ++ [__name__ m])
  | _ => (Ret [], names)
  end.

Definition picky_world : World :=
  mkWorld Examples.names_valid Examples.names_match
    (fun _ => None)
    (fun _ _ => Ret [])
    picky_validate
    picky_extract
    (fun _ m => __name__ m)
    (fun _ _ _ => Ret [])
    (fun other family => Ret (mkConfig None [("family", PStr family); ("other", other)]))
    (fun _ => Ret [])
    Examples.no_site_packages 1000.

(** A class of the module [module_]. *)
Definition class_ (id : nat) (name module_ : string) : Member :=
  mkMember id name (Some module_) ("<class '" ++ module_ ++ "." ++ name ++ "'>")
    None None None.

(** The module object of the module [name], loaded from [file]. *)
Definition module_ (id : nat) (name file : string) : Member :=
  mkMember id name None ("<module '" ++ name ++ "' from '" ++ file ++ "'>")
    None None None.

(** One root with three units: one that fails to import, one that defines
    two MACO parsers and a class whose validation raises, and one whose
    parser has no extractable rule. *)
Definition root1 : Root :=
  mkRoot "/srv/parsers" "/srv/parsers" None []
    [ mkUnit "parsers.fam.missing_dep" false "/srv/parsers/fam"
        (Raise (OtherError "No module named 'x'"));
      mkUnit "parsers.fam.foo" false "/srv/parsers/fam"
        (Ret (module_ 10 "parsers.fam.foo" "/srv/parsers/fam/foo.py",
              [class_ 11 "Broken" "parsers.fam.foo";
               class_ 12 "MacoA" "parsers.fam.foo";
               class_ 13 "MacoB" "parsers.fam.foo"]));
      mkUnit "parsers.fam.bar" false "/srv/parsers/fam"
        (Ret (module_ 20 "parsers.fam.bar" "/srv/parsers/fam/bar.py",
              [class_ 21 "MacoNoRule" "parsers.fam.bar"])) ]
    None None.

End Examples2.

Module Examples3.

(** One unit, [/srv/parsers/fam/foo.py], that defines two MACO parsers. *)
Definition root2 : Root :=
  mkRoot "/srv/parsers" "/srv/parsers" None []
    [ mkUnit "parsers.fam.foo" false "/srv/parsers/fam"
        (Ret (Examples2.module_ 10 "parsers.fam.foo" "/srv/parsers/fam/foo.py",
              [Examples2.class_ 12 "MacoA" "parsers.fam.foo";
               Examples2.class_ 13 "MacoB" "parsers.fam.foo"])) ]
    None None.

(** The same unit lying directly in the parser directory, as
    [/srv/parsers/foo.py]: its finder is the parser directory itself. *)
Definition flat_root : Root :=
  mkRoot "/srv/parsers" "/srv/parsers" None []
    [ mkUnit "parsers.foo" false "/srv/parsers"
        (Ret (Examples2.module_ 10 "parsers.foo" "/srv/parsers/foo.py",
              [Examples2.class_ 12 "MacoA" "parsers.foo"])) ]
    None None.

End Examples3.

Module Examples4.

(** An extractor with one standalone CAPE parser. *)
Definition cx_standalone : Extractor :=
  mkExtractor [("parsers.good", Examples.good_parser)]
              [("CAPE", [Examples.good_parser])] "" [] [].

End Examples4.

Module Examples5.


End Examples5.

Module Examples6.

(** The example of the specification: one MACO parser whose rule matches
    the sample [marked.bin] and no other, and whose run returns a family
    and one connection without protocol. *)
Definition marker_parser : Member := Examples2.class_ 40 "Marker" "parsers.marker".

Definition marker_world : World :=
  mkWorld Examples.names_valid Examples.names_match
    (fun _ => None)
    (fun _ sample =>
       if String.eqb sample "marked.bin"
       then Ret [mkMatch "Marker" [("parser_module", "parsers.marker");
                                   ("parser_framework", "MACO");
                                   ("parser_name", "Marker")]]
       else Ret [])
    (fun _ _ => Ret false)
    Examples.no_rules
    (fun _ m => __name__ m)
    (fun fw _ batch =>
       match fw with
       | MACO => Ret (map (fun e => (__name__ (fst (snd e)),
                                     mkRecord (PStr "someone") (PStr "")
                                       (Some (mkConfig (Some [[("uri", "1.2.3.4/c2")]])
                                                       [("family", PStr "X")]))))
                          batch)
       | _ => Ret []
       end)
    (fun other family => Ret (mkConfig None []))
    (fun _ => Ret [])
    Examples.no_site_packages 1000.

Definition marker_extractor : Extractor :=
  mkExtractor [("parsers.marker", marker_parser)] [] "rule Marker" [] [].




(** A root that was loaded from a staging copy: the rule of its parser
    names the staging directory. *)
Definition staged_world : World :=
  mkWorld Examples.names_valid Examples.names_match
    (fun _ => None)
    (fun _ _ => Ret [])
    Examples2.picky_validate
    (fun _ m names =>
       (Ret [("rule " ++ __name__ m ++ " /tmp/stage/fam/foo.py")%string],
        names ++ [__name__ m]))
    (fun _ m => __name__ m)
    (fun _ _ _ => Ret [])
    (fun other family => Ret (mkConfig None []))
    (fun _ => Ret [])
    Examples.no_site_packages 1000.

Definition staged_root : Root :=
  mkRoot "/srv/parsers" "/tmp/stage" None []
    [ mkUnit "stage.fam.foo" false "/tmp/stage/fam"
        (Ret (Examples2.module_ 50 "stage.fam.foo" "/tmp/stage/fam/foo.py",
              [Examples2.class_ 51 "MacoA" "stage.fam.foo"])) ]
    None None.

End Examples6.

(* ------------------------------------------------------------------ *)
(** * Vocabulary of the further properties *)

(** [rec] is the record that [CAPE.run] builds for the parser: the parser
    has an entry point that returns something truthy on the sample, an
    [AUTHOR] and a [DESCRIPTION], and the model class accepts the output. *)
Definition CAPE_record (W : World) (sample_path : string) (parser : Member)
    (rec : ResultRecord) : Prop :=
  exists f data v a dsc cfg,
    extract_config parser = Some f
    /\ read_file W sample_path = Ret data
    /\ f data = Ret v
    /\ truthy v = true
    /\ AUTHOR parser = Some a
    /\ DESCRIPTION parser = Some dsc
    /\ ExtractorModel_dict W v (get_name W CAPE parser) = Ret cfg
    /\ rec = mkRecord a (if truthy dsc then dsc else PStr "") (Some cfg).

(** The error that [CAPE.run] logs for a parser when the sample cannot be
    read with the exception [e]: the attribute lookup comes first. *)
Definition unreadable_error (e : exn) (parser : Member) : exn :=
  match extract_config parser with
  | Some _ => e
  | None => AttributeError "extract_config"
  end.

Module Examples7.

(** A world like [Examples.plain_world] in which no sample can be read. *)
Definition unreadable_world : World :=
  mkWorld (regex_valid Examples.plain_world) (regex_match Examples.plain_world)
    (yara_compile Examples.plain_world) (yara_match Examples.plain_world)
    (other_validate Examples.plain_world)
    (extract_yara_from_module Examples.plain_world)
    (get_name Examples.plain_world)
    (other_run Examples.plain_world)
    (ExtractorModel_dict Examples.plain_world)
    (fun path => Raise (IOError path))
    (listdir Examples.plain_world) (recursion_limit Examples.plain_world).

End Examples7.

(** The lines that the adapters [fws] log for a candidate that none of
    them accepts: the exceptions of [validate] other than [TypeError]. *)
Definition validation_log (W : World) (member : Member) (fws : list framework)
  : list log_entry :=
  flat_map (fun fw => match validate W fw member with
                      | Raise e =>
                          if is_TypeError e then []
                          else [LogError (member_str member) e]
                      | Ret _ => []
                      end) fws.

(** The lines that the adapters [fws] log for a candidate without
    [__module__]: the accepting ones fail at the registration. *)
Definition attempt_log (W : World) (br : option string) (member : Member)
    (fws : list framework) : list log_entry :=
  flat_map (fun fw => match validate W fw member with
                      | Ret true =>
                          if is_blocked W br (__name__ member) then []
                          else [LogError (member_str member) (AttributeError "__module__")]
                      | Ret false => []
                      | Raise e =>
                          if is_TypeError e then []
                          else [LogError (member_str member) e]
                      end) fws.

(** Every standalone set is filed under the name of an adapter that
    accepted each of its members, is not empty and holds each object
    once. *)
Definition standalone_by_adapter (W : World) (st : Dict.t string (list Member)) : Prop :=
  NoDup (Dict.keys st)
  /\ forall name s, In (name, s) st ->
       exists fw, name = fw_name fw
                  /\ s <> []
                  /\ NoDup (map oid s)
                  /\ forall m, In m s -> validate W fw m = Ret true.

Module Examples8.

(** A module-level CAPE parser: the module object has an entry point and,
    like every module object, no [__module__]. *)
Definition bare_module : Member :=
  mkMember 61 "cape.bare" None "<module 'cape.bare' from '/srv/cape/bare.py'>"
    (Some (fun _ => Ret (PDict [("key", PStr "value")])))
    (Some (PStr "author")) (Some (PStr "")).

(** A root with one unit, whose class is a standalone CAPE parser. *)
Definition cape_root : Root :=
  mkRoot "/srv/cape" "/srv/cape" None []
    [ mkUnit "cape.fam.good" false "/srv/cape/fam"
        (Ret (Examples2.module_ 60 "cape.fam.good" "/srv/cape/fam/good.py",
              [Examples.good_parser])) ]
    None None.

(** A root in which a rule file lies next to the parser of the same stem. *)
Definition shadowed_root : Root :=
  mkRoot "/srv/parsers" "/srv/parsers" None ["emotet.yara"]
    [ mkUnit "parsers.fam.emotet" false "/srv/parsers/fam"
        (Ret (Examples2.module_ 70 "parsers.fam.emotet" "/srv/parsers/fam/emotet.py",
              [Examples2.class_ 71 "MacoEmotet" "parsers.fam.emotet"])) ]
    None None.

(** A ruleset with two rules of the parser [good], both of which match
    every sample. *)
Definition twice_world : World :=
  mkWorld Examples.names_valid Examples.names_match
    (fun _ => None)
    (fun _ _ => Ret [mkMatch "good_a" [("parser_module", "parsers.good");
                                      ("parser_framework", "CAPE");
                                      ("parser_name", "good")];
                     mkMatch "good_b" [("parser_module", "parsers.good");
                                      ("parser_framework", "CAPE");
                                      ("parser_name", "good")]])
    (fun _ _ => Ret false)
    Examples.no_rules
    (fun _ m => __name__ m)
    (fun _ _ _ => Ret [])
    (fun other family => Ret (mkConfig None [("family", PStr family); ("other", other)]))
    (fun _ => Ret [])
    Examples.no_site_packages 1000.

(** A ruleset whose rule names a framework that does not exist. *)
Definition misfiled_world : World :=
  mkWorld Examples.names_valid Examples.names_match
    (fun _ => None)
    (fun _ _ => Ret [mkMatch "good_a" [("parser_module", "parsers.good");
                                      ("parser_framework", "YARP");
                                      ("parser_name", "good")]])
    (fun _ _ => Ret false)
    Examples.no_rules
    (fun _ m => __name__ m)
    (fun _ _ _ => Ret [])
    (fun other family => Ret (mkConfig None [("family", PStr family); ("other", other)]))
    (fun _ => Ret [])
    Examples.no_site_packages 1000.

End Examples8.

(** The matches queued for the parser object [k] under a framework. *)
Definition queue_matches (framework_ : option string) (k : nat) (q : RunQueue)
  : list YaraMatch :=
  match Dict.get framework_ q with
  | Some batch =>
      match Dict.get k batch with
      | Some (_, matches) => matches
      | None => []
      end
  | None => []
  end.

(** The match is handed to the parser object [k] under [framework_]: its
    rule names that framework, and the parser it resolves to is that
    object and is not blocked. *)
Definition routed (W : World) (br : option string) (cx : Extractor)
    (framework_ : option string) (k : nat) (ym : YaraMatch) : bool :=
  match resolve cx ym with
  | Some parser =>
      negb (is_blocked W br (__name__ parser))
      && (keqb framework_ (Dict.get "parser_framework" (meta ym))
          && Nat.eqb k (oid parser))
  | None => false
  end.

(** No batch is empty, and a batch holds one entry per parser object. *)
Definition batches_by_parser (q : RunQueue) : Prop :=
  NoDup (Dict.keys q)
  /\ forall f batch, In (f, batch) q ->
       batch <> []
       /\ NoDup (Dict.keys batch)
       /\ forall k p ms, In (k, (p, ms)) batch -> k = oid p.

(** The parsers that a call's blocklist can hit: the ones that the matches
    resolve to, then the standalone ones. *)
Definition call_targets (cx : Extractor) (matches : list YaraMatch) : list Member :=
  flat_map (fun ym => match resolve cx ym with Some p => [p] | None => [] end) matches
  ++ List.concat (Dict.values (standalone_parsers cx)).

(** The parsers that an extractor can run. *)
Definition known_parsers (cx : Extractor) : list Member :=
  Dict.values (parsers cx) ++ List.concat (Dict.values (standalone_parsers cx)).

(** An identity stands for one object. *)
Definition one_object_per_identity (cx : Extractor) : Prop :=
  forall m m', In m (known_parsers cx) -> In m' (known_parsers cx) ->
    oid m = oid m' -> m = m'.

(* ------------------------------------------------------------------ *)
(** * Details of a parser: [ConfigExtractor.get_details] *)

Section Details.
Variable W : World.

(** The attribute [TLP] of a parser object, when it has one. *)
Variable TLP : Member -> option pyval.

(** [get_classification] of the MACO and MWCP adapters, which these sources
    do not contain. *)
Variable other_get_classification : framework -> Member -> outcome pyval.

(** [CAPE.get_classification] *)
Definition CAPE_get_classification (module : Member) : pyval :=
  match TLP module with
  | Some tlp => tlp
  | None => PNone
  end.

(** [fw_class.__class__.get_classification(module)] *)
Definition get_classification (fw : framework) (module : Member) : outcome pyval :=
  match fw with
  | CAPE => Ret (CAPE_get_classification module)
  | _ => other_get_classification fw module
  end.

(** The dictionary that [get_details] returns for the adapter [fw]. *)
Definition details (fw : framework) (classification : pyval) (module : Member)
  : Dict.t string pyval :=
  [("framework", PStr (fw_name fw));
   ("classification", classification);
   ("name", PStr (get_name W fw module))].

(** [for fw_name, fw_class in self.FRAMEWORK_LIBRARY_MAPPING.items()] of
    [get_details]; [None] when the loop ends without a [return]. *)
Fixpoint details_loop (fws : list framework) (module : Member)
  : outcome (option (Dict.t string pyval)) :=
  match fws with
  | [] => Ret None
  | fw :: rest =>
      match validate W fw module with
      | Raise e => Raise e
      | Ret true =>
          match get_classification fw module with
          | Raise e => Raise e
          | Ret classification => Ret (Some (details fw classification module))
          end
      | Ret false => details_loop rest module
      end
  end.

(** [ConfigExtractor.get_details] *)
Definition get_details (parser_path : string) (cx : Extractor)
  : outcome (option (Dict.t string pyval)) :=
  match Dict.get parser_path (parsers cx) with
  | None => Raise (KeyError InParsers (Some parser_path))
  | Some module => details_loop PARSER_FRAMEWORKS module
  end.

End Details.

Module Examples10.

(** The parser [good] carries a [TLP]; no other parser does. *)
Definition tlp (m : Member) : option pyval :=
  if Nat.eqb (oid m) 1 then Some (PStr "TLP:AMBER") else None.

Definition no_classification (fw : framework) (m : Member) : outcome pyval := Ret PNone.

(** A world in which MACO declines everything and MWCP's [validate] raises
    a [TypeError] on everything. *)
Definition typeerror_world : World :=
  mkWorld Examples.names_valid Examples.names_match
    (fun _ => None)
    (fun _ _ => Ret [])
    (fun fw _ => match fw with
                 | MWCP => Raise (TypeError "issubclass() arg 1 must be a class")
                 | _ => Ret false
                 end)
    Examples.no_rules
    (fun _ m => __name__ m)
    (fun _ _ _ => Ret [])
    (fun other family => Ret (mkConfig None [("family", PStr family); ("other", other)]))
    (fun _ => Ret [])
    Examples.no_site_packages 1000.

End Examples10.

(* ------------------------------------------------------------------ *)
(** * The command line: [cli.main] *)

(** A value of the dictionary that [main] prints.  For a sample path that
    is a file the dictionary is the result of [run_parsers], framework
    name to records; for a directory it maps the path of a file to the
    result of [run_parsers] on it. *)
Inductive cli_entry : Type :=
| FrameworkRecords (records : Records)
| FileResult (result : Result).

Definition CliResults : Type := Dict.t string cli_entry.

Section Cli.
Variable W : World.

(** [os.path.isfile] *)
Variable isfile : string -> bool.

(** [os.walk(top)]: the directories below [top], each with its path and
    the names of its files. *)
Variable walk : string -> list (string * list string).

(** [for file in files] *)
Fixpoint scan_files (root : string) (files : list string) (results : CliResults)
  : M Extractor CliResults :=
  match files with
  | [] => ret results
  | file :: rest =>
      let file_path := path_join root file in
      result <- run_parsers W file_path [] ;;
      match result with
      | [] => scan_files root rest results
      | _ => scan_files root rest (Dict.set file_path (FileResult result) results)
      end
  end.

(** [for root, _, files in os.walk(sample_path)] *)
Fixpoint scan_dirs (dirs : list (string * list string)) (results : CliResults)
  : M Extractor CliResults :=
  match dirs with
  | [] => ret results
  | (root, files) :: rest =>
      results' <- scan_files root files results ;;
      scan_dirs rest results'
  end.

(** The body of [for sample_path in sample_paths]: the value it gives to
    [results]. *)
Definition scan_sample (sample_path : string) : M Extractor CliResults :=
  if isfile sample_path then
    results <- run_parsers W sample_path [] ;;
    ret (Dict.map_values FrameworkRecords results)
  else scan_dirs (walk sample_path) [].

(** [for sample_path in sample_paths] *)
Fixpoint scan_samples (sample_paths : list string) (results : CliResults)
  : M Extractor CliResults :=
  match sample_paths with
  | [] => ret results
  | sample_path :: rest =>
      results' <- scan_sample sample_path ;;
      scan_samples rest results'
  end.

(** [main]: the dictionary that is printed. *)
Definition main (parsers_paths : list Root) (sample_paths : list string)
    (block : list string) : outcome CliResults :=
  match ConfigExtractor_init W parsers_paths block with
  | Raise e => Raise e
  | Ret cx => fst (scan_samples sample_paths [] cx)
  end.

(** The paths of the files of a walk, in its order. *)
Definition walked_files (sample_path : string) : list string :=
  flat_map (fun d => map (path_join (fst d)) (snd d)) (walk sample_path).

End Cli.

(** The scan of a list of file paths. *)
Fixpoint scan_paths (W : World) (paths : list string) (results : CliResults)
  : M Extractor CliResults :=
  match paths with
  | [] => ret results
  | file_path :: rest =>
      result <- run_parsers W file_path [] ;;
      match result with
      | [] => scan_paths W rest results
      | _ => scan_paths W rest (Dict.set file_path (FileResult result) results)
      end
  end.

Module Examples11.

(** One directory with two files; and a second sample path that is a
    file. *)
Definition isfile (path : string) : bool := String.eqb path "marked.bin".

Definition walk (top : string) : list (string * list string) :=
  if String.eqb top "samples" then [("samples", ["a.bin"]); ("samples/sub", ["b.bin"])]
  else [].

(** A ruleset that cannot scan [samples/sub/b.bin]. *)
Definition failing_world : World :=
  mkWorld Examples.names_valid Examples.names_match
    (fun _ => None)
    (fun _ sample =>
       if String.eqb sample "samples/sub/b.bin"
       then Raise (YaraError "could not open file")
       else Ret [])
    (fun _ _ => Ret false)
    Examples.no_rules
    (fun _ m => __name__ m)
    (fun _ _ _ => Ret [])
    (fun other family => Ret (mkConfig None [("family", PStr family); ("other", other)]))
    (fun _ => Ret [])
    Examples.no_site_packages 1000.

End Examples11.

(* ------------------------------------------------------------------ *)
(** * Vocabulary of the search for [site-packages] *)

(** [d/name] *)
Definition subdir (d name : string) : string := d ++ "/" ++ name.

(** The directory reached from [d] by the folder names [names]. *)
Definition descend (d : string) (names : list string) : string :=
  fold_left subdir names d.

(** A directory path that is not empty and does not end with a
    separator. *)
Definition plain_dir (d : string) : Prop := d <> EmptyString /\ Path.rstrip d = d.

(** A folder name: not empty, without separator. *)
Definition plain_name (name : string) : Prop :=
  name <> EmptyString /\ Path.head_of name = EmptyString.

Module Examples12.

(** A file system in which only the folder [/srv/parsers/family/emotet]
    holds a [site-packages]. *)
Definition listdir (d : string) : outcome (list string) :=
  if String.eqb d "/srv/parsers/family/emotet" then Ret ["site-packages"; "emotet.py"]
  else Ret ["emotet.py"].

End Examples12.

(* ================================================================== *)
(** * Properties *)

(* ------------------------------------------------------------------ *)
(** * Strings and dictionaries *)

Module StrFacts.
Import Str.

Lemma prefix_refl_app (p s : string) : String.prefix p (p ++ s) = true.
Proof.
  induction p as [|c p IH]; simpl.
  - destruct s; reflexivity.
  - destruct (Ascii.ascii_dec c c) as [_|N]; [exact IH | now elim N].
Qed.

Lemma startswith_app (p s : string) : startswith (p ++ s) p = true.
Proof. apply prefix_refl_app. Qed.

End StrFacts.

Example replace_ex1 : Str.replace "/tmp/x1/a /tmp/x1" "/tmp/x1" "/srv/p" = "/srv/p/a /srv/p".
Proof. reflexivity. Qed.

Example replace_ex2 : Str.replace "aaa" "aa" "b" = "ba".
Proof. reflexivity. Qed.

Example last_component_ex : Str.last_component "parsers.family.emotet" = "emotet".
Proof. reflexivity. Qed.

Example endswith_ex : Str.endswith "parsers.setup" ".setup" = true.
Proof. reflexivity. Qed.

Lemma keqb_refl {K} `{EqKey K} (k : K) : keqb k k = true.
Proof. destruct (keqb_spec k k); congruence. Qed.

Lemma keqb_neq {K} `{EqKey K} (a b : K) : a <> b -> keqb a b = false.
Proof. destruct (keqb_spec a b); congruence. Qed.

Module DictFacts.
Import Dict.

Section DefsFacts.
Context {K V : Type} `{EqKey K}.
Implicit Types (k : K) (v x : V) (d : Dict.t K V).

Lemma get_set_same k v d : get k (set k v d) = Some v.
Proof.
  induction d as [|[k' v'] d IH]; simpl.
  - now rewrite keqb_refl.
  - destruct (keqb k k') eqn:E; simpl; rewrite E; auto.
Qed.

Lemma get_set_other k k' v d : k' <> k -> get k' (set k v d) = get k' d.
Proof.
  intros N. induction d as [|[k0 v0] d IH]; simpl.
  - now rewrite (keqb_neq _ _ N).
  - destruct (keqb_spec k k0) as [->|N0]; simpl.
    + now rewrite (keqb_neq _ _ N).
    + destruct (keqb k' k0); auto.
Qed.

Lemma keys_set_mem k v d : mem k d = true -> keys (set k v d) = keys d.
Proof.
  unfold mem. induction d as [|[k0 v0] d IH]; simpl; [discriminate|].
  destruct (keqb k k0) eqn:E; simpl; [reflexivity|].
  intros Hm. f_equal. apply IH, Hm.
Qed.

Lemma keys_set_fresh k v d : mem k d = false -> keys (set k v d) = keys d ++ [k].
Proof.
  unfold mem. induction d as [|[k0 v0] d IH]; simpl; [reflexivity|].
  destruct (keqb k k0) eqn:E; simpl; [discriminate|].
  intros Hm. f_equal. apply IH, Hm.
Qed.

Lemma mem_In_keys k d : mem k d = true <-> In k (keys d).
Proof.
  unfold mem. induction d as [|[k0 v0] d IH]; simpl.
  - split; [discriminate | tauto].
  - destruct (keqb_spec k k0) as [->|N].
    + split; auto.
    + rewrite IH. split; [tauto | intros [E|I]; congruence].
Qed.

Lemma get_In k v d : get k d = Some v -> In (k, v) d.
Proof.
  induction d as [|[k0 v0] d IH]; simpl; [discriminate|].
  destruct (keqb_spec k k0) as [->|N]; [intros [= ->]; auto | auto].
Qed.

Lemma In_values_set v0 k v d :
  In v0 (values (set k v d)) -> v0 = v \/ In v0 (values d).
Proof.
  induction d as [|[k1 v1] d IH]; simpl.
  - intros [E|[]]; auto.
  - destruct (keqb k k1); simpl; intros [E|I]; auto.
    destruct (IH I); auto.
Qed.

Lemma NoDup_keys_set k v d : NoDup (keys d) -> NoDup (keys (set k v d)).
Proof.
  intros ND. destruct (mem k d) eqn:E.
  - now rewrite keys_set_mem.
  - rewrite (keys_set_fresh _ v _ E).
    apply NoDup_app; auto.
    + constructor; [intros []| constructor].
    + intros x Hx [<-|[]]. apply mem_In_keys in Hx. congruence.
Qed.

Lemma get_setdefault_same k v d :
  get k (setdefault k v d) = Some (match get k d with Some x => x | None => v end).
Proof.
  unfold setdefault. destruct (get k d) eqn:E; [exact E | apply get_set_same].
Qed.

Lemma get_setdefault_other k k' v d : k' <> k -> get k' (setdefault k v d) = get k' d.
Proof.
  intros N. unfold setdefault. destruct (get k d); [reflexivity | now apply get_set_other].
Qed.

Lemma setdefault_present k v x d : get k d = Some x -> setdefault k v d = d.
Proof. unfold setdefault. now intros ->. Qed.

Lemma In_set k v k0 v0 d :
  In (k, v) (set k0 v0 d) -> (k = k0 /\ v = v0) \/ In (k, v) d.
Proof.
  induction d as [|[k1 v1] d IH]; simpl.
  - intros [[= <- <-]|[]]. auto.
  - destruct (keqb_spec k0 k1) as [->|N]; simpl.
    + intros [[= <- <-]|I]; auto.
    + intros [E|I]; auto. destruct (IH I); auto.
Qed.

Lemma In_values k v d : In (k, v) d -> In v (values d).
Proof. intros I. unfold values. apply in_map_iff. now exists (k, v). Qed.

Lemma set_set k v d : set k v (set k v d) = set k v d.
Proof.
  induction d as [|[k1 v1] d IH]; simpl.
  - now rewrite keqb_refl.
  - destruct (keqb k k1) eqn:E; simpl; rewrite E; [reflexivity | now rewrite IH].
Qed.

Lemma mem_set_same k v d : mem k (set k v d) = true.
Proof. unfold mem. now rewrite get_set_same. Qed.

Lemma mem_set_other k k' v d : mem k' d = true -> mem k' (set k v d) = true.
Proof.
  unfold mem. destruct (keqb_spec k' k) as [->|N].
  - now rewrite get_set_same.
  - now rewrite get_set_other.
Qed.

Lemma size_set_le k v d : size d <= size (set k v d) <= S (size d).
Proof.
  unfold size. induction d as [|[k1 v1] d IH]; simpl; [lia|].
  destruct (keqb k k1); simpl; lia.
Qed.

End DefsFacts.

Lemma get_map_values {K V W : Type} `{EqKey K} (f : V -> W) k (d : t K V) :
  get k (map_values f d) = option_map f (get k d).
Proof.
  induction d as [|[k0 v0] d IH]; simpl; [reflexivity|].
  destruct (keqb k k0); [reflexivity | exact IH].
Qed.

Lemma keys_map_values {K V W : Type} (f : V -> W) (d : t K V) :
  keys (map_values f d) = keys d.
Proof. unfold keys, map_values. rewrite map_map. reflexivity. Qed.

End DictFacts.

Example finalize_spec_example :
  finalize [("Parser", mkRecord (PStr "a") (PStr "d")
               (Some (mkConfig (Some [[("uri", "1.2.3.4/c2")]]) [("family", PStr "X")])))]
  = [("Parser", mkRecord (PStr "a") (PStr "d")
               (Some (mkConfig (Some [[("uri", "http://1.2.3.4/c2"); ("protocol", "http")]])
                               [("family", PStr "X")])))].
Proof. reflexivity. Qed.

(* ------------------------------------------------------------------ *)
(** * Properties of [finalize] *)

Section FinalizeFacts.

Lemma protocol_after_default (c : NetworkConn) :
  Dict.get "protocol" (Dict.setdefault "protocol" "http" c)
  = Some (match Dict.get "protocol" c with Some p => p | None => "http" end).
Proof. apply DictFacts.get_setdefault_same. Qed.

Lemma uri_after_default (c : NetworkConn) :
  Dict.get "uri" (Dict.setdefault "protocol" "http" c) = Dict.get "uri" c.
Proof. apply DictFacts.get_setdefault_other. discriminate. Qed.

(** The loop body on an entry that has a protocol. *)
Lemma finalize_conn_with_protocol (c : NetworkConn) (p : string) :
  Dict.get "protocol" c = Some p ->
  finalize_conn c =
    match Dict.get "uri" c with
    | Some uri =>
        if negb (String.eqb uri "") && negb (Str.startswith uri p)
        then Dict.set "uri" (p ++ "://" ++ uri)%string c
        else c
    | None => c
    end.
Proof.
  intros Hp. unfold finalize_conn.
  rewrite (DictFacts.setdefault_present _ _ _ _ Hp), Hp.
  destruct (Dict.get "uri" c); reflexivity.
Qed.

Lemma finalize_conn_unfold (c : NetworkConn) :
  finalize_conn c = finalize_conn (Dict.setdefault "protocol" "http" c).
Proof.
  unfold finalize_conn.
  rewrite (DictFacts.setdefault_present "protocol" "http" _ _ (protocol_after_default c)).
  reflexivity.
Qed.

(** A normalised entry is a fixed point of the loop body. *)
Lemma finalize_conn_idempotent (c : NetworkConn) :
  finalize_conn (finalize_conn c) = finalize_conn c.
Proof.
  rewrite (finalize_conn_unfold c).
  set (c1 := Dict.setdefault "protocol" "http" c).
  assert (Hp : exists p, Dict.get "protocol" c1 = Some p).
  { eexists. apply protocol_after_default. }
  destruct Hp as [p Hp].
  rewrite (finalize_conn_with_protocol c1 p Hp).
  destruct (Dict.get "uri" c1) as [u|] eqn:Hu.
  - destruct (negb (String.eqb u "") && negb (Str.startswith u p)) eqn:Hc.
    + (* the uri was rewritten: it now starts with the protocol *)
      set (c2 := Dict.set "uri" (p ++ "://" ++ u)%string c1).
      assert (Hp2 : Dict.get "protocol" c2 = Some p).
      { unfold c2. rewrite DictFacts.get_set_other; [exact Hp | discriminate]. }
      rewrite (finalize_conn_with_protocol c2 p Hp2).
      unfold c2 at 1. rewrite DictFacts.get_set_same.
      rewrite StrFacts.startswith_app, andb_false_r. reflexivity.
    + rewrite (finalize_conn_with_protocol c1 p Hp), Hu, Hc. reflexivity.
  - rewrite (finalize_conn_with_protocol c1 p Hp), Hu. reflexivity.
Qed.

Lemma finalize_record_idempotent (r : ResultRecord) :
  finalize_record (finalize_record r) = finalize_record r.
Proof.
  destruct r as [a d [[h f]|]]; unfold finalize_record, finalize_config; simpl;
    [|reflexivity].
  do 2 f_equal. f_equal. destruct h as [l|]; simpl; [|reflexivity].
  f_equal. rewrite map_map. apply map_ext. intros c. apply finalize_conn_idempotent.
Qed.

End FinalizeFacts.

(** C2. [finalize] is idempotent: for every mapping of result records,
    normalising it a second time changes nothing; an endpoint that was
    rewritten to [<protocol>://<endpoint>] is not prefixed again. *)
Theorem finalize_idempotent (results : Records) :
  finalize (finalize results) = finalize results.
Proof.
  unfold finalize, Dict.map_values. rewrite map_map. apply map_ext.
  intros [k r]. simpl. f_equal. apply finalize_record_idempotent.
Qed.

(** C5, as stated, fails for an entry whose uri is the empty string: the
    empty uri does not start with the protocol ["http"], and yet the code
    leaves it as it is instead of rewriting it to ["http://"]. *)
Lemma finalize_empty_uri_not_rewritten :
  let conn : NetworkConn := [("uri", "")] in
  Str.startswith "" "http" = false
  /\ Dict.get "uri" (finalize_conn conn) = Some ""
  /\ Dict.get "uri" (finalize_conn conn) <> Some "http://"
  /\ finalize [("P", mkRecord PNone PNone (Some (mkConfig (Some [conn]) [])))]
     = [("P", mkRecord PNone PNone
               (Some (mkConfig (Some [[("uri", ""); ("protocol", "http")]]) [])))].
Proof. repeat split; try reflexivity. discriminate. Qed.

(** C5, amended.  For every entry of the [config.http] list of every
    record, [finalize] sets a missing protocol to ["http"] and keeps a
    present one; a uri that is present, non-empty and does not start with
    that protocol becomes [<protocol>://<uri>]; a uri that is absent,
    empty or already starts with the protocol is kept; every other field
    of the entry is kept. *)
Theorem finalize_http_entry
    (results : Records) (name : string) (r : ResultRecord) (c : Config)
    (conns : list NetworkConn) (i : nat) (conn : NetworkConn) :
  Dict.get name results = Some r ->
  config r = Some c ->
  http c = Some conns ->
  nth_error conns i = Some conn ->
  exists r' c' conns' conn',
    Dict.get name (finalize results) = Some r'
    /\ config r' = Some c'
    /\ http c' = Some conns'
    /\ nth_error conns' i = Some conn'
    /\ let protocol :=
         match Dict.get "protocol" conn with Some p => p | None => "http" end in
       Dict.get "protocol" conn' = Some protocol
       /\ Dict.get "uri" conn' =
            match Dict.get "uri" conn with
            | Some uri =>
                if negb (String.eqb uri "") && negb (Str.startswith uri protocol)
                then Some (protocol ++ "://" ++ uri)%string
                else Some uri
            | None => None
            end
       /\ forall k, k <> "protocol" -> k <> "uri" -> Dict.get k conn' = Dict.get k conn.
Proof.
  intros Hr Hc Hh Hn.
  exists (finalize_record r), (finalize_config c), (map finalize_conn conns),
         (finalize_conn conn).
  split. { unfold finalize. rewrite DictFacts.get_map_values, Hr. reflexivity. }
  split. { unfold finalize_record. simpl. rewrite Hc. reflexivity. }
  split. { unfold finalize_config. simpl. rewrite Hh. reflexivity. }
  split. { rewrite nth_error_map, Hn. reflexivity. }
  cbv zeta. unfold finalize_conn.
  rewrite protocol_after_default, uri_after_default.
  set (p := match Dict.get "protocol" conn with Some p => p | None => "http" end).
  set (c1 := Dict.setdefault "protocol" "http" conn).
  assert (Hp : Dict.get "protocol" c1 = Some p) by apply protocol_after_default.
  assert (Hother : forall k, k <> "protocol" -> Dict.get k c1 = Dict.get k conn).
  { intros k N. now apply DictFacts.get_setdefault_other. }
  destruct (Dict.get "uri" conn) as [u|] eqn:Hu.
  - destruct (negb (String.eqb u "") && negb (Str.startswith u p)) eqn:Hcond.
    + split; [rewrite DictFacts.get_set_other; [exact Hp | discriminate]|].
      split; [apply DictFacts.get_set_same|].
      intros k N1 N2. rewrite DictFacts.get_set_other by exact N2. now apply Hother.
    + split; [exact Hp|]. split; [|intros k N1 _; now apply Hother].
      rewrite Hother by discriminate. exact Hu.
  - split; [exact Hp|]. split; [|intros k N1 _; now apply Hother].
    rewrite Hother by discriminate. exact Hu.
Qed.

(** The amended C5 at the example of the specification. *)
Lemma finalize_http_entry_witness :
  exists r' c' conns' conn',
    Dict.get "Parser"
      (finalize [("Parser", mkRecord (PStr "a") (PStr "d")
                   (Some (mkConfig (Some [[("uri", "1.2.3.4/c2")]]) [])))]) = Some r'
    /\ config r' = Some c'
    /\ http c' = Some conns'
    /\ nth_error conns' 0 = Some conn'
    /\ Dict.get "protocol" conn' = Some "http"
    /\ Dict.get "uri" conn' = Some "http://1.2.3.4/c2".
Proof.
  destruct (finalize_http_entry
              [("Parser", mkRecord (PStr "a") (PStr "d")
                   (Some (mkConfig (Some [[("uri", "1.2.3.4/c2")]]) [])))]
              "Parser" _ _ _ 0 _ eq_refl eq_refl eq_refl eq_refl)
    as (r' & c' & conns' & conn' & H1 & H2 & H3 & H4 & H5 & H6 & _).
  exists r', c', conns', conn'. repeat split; assumption.
Defined.

(* ------------------------------------------------------------------ *)
(** * Fault isolation in [CAPE.run] *)

Example CAPE_run_ex :
  CAPE_run Examples.plain_world "sample"
    [(2, (Examples.bad_parser, [])); (1, (Examples.good_parser, []))]
    Examples.empty_extractor
  = (Ret [("good", mkRecord (PStr "author") (PStr "")
                    (Some (mkConfig None [("family", PStr "good");
                                          ("other", PDict [("key", PStr "value")])])))],
     mkExtractor [] [] "" [LogError "bad" (OtherError "boom")] [2; 1]).
Proof. reflexivity. Qed.

Section CapeFacts.
Variable W : World.

Lemma extends_refl cx : extends cx cx.
Proof.
  repeat split; try (exists []; now rewrite app_nil_r).
Qed.

Lemma extends_trans a b c : extends a b -> extends b c -> extends a c.
Proof.
  intros (P1 & S1 & Y1 & [l1 L1] & [t1 T1]) (P2 & S2 & Y2 & [l2 L2] & [t2 T2]).
  repeat split; try congruence.
  - exists (l1 ++ l2). rewrite L2, L1. now rewrite app_assoc.
  - exists (t1 ++ t2). rewrite T2, T1. now rewrite app_assoc.
Qed.

Lemma extends_log_error cx subject e : extends cx (snd (log_error subject e cx)).
Proof.
  repeat split; simpl; [now eexists | exists []; now rewrite app_nil_r].
Qed.

Lemma extends_log_info cx msg : extends cx (snd (log_info msg cx)).
Proof.
  repeat split; simpl; [now eexists | exists []; now rewrite app_nil_r].
Qed.

Ltac cape_cases parser sample_path :=
  unfold CAPE_run_one, CAPE_try, try_except, bind, lift, ret, invoke, getattr,
    log_error, modify;
  destruct (extract_config parser) as [f|]; simpl;
  [ destruct (read_file W sample_path) as [data|]; simpl;
    [ destruct (f data) as [result|]; simpl;
      [ destruct (truthy result); simpl;
        [ destruct (AUTHOR parser); simpl;
          [ destruct (DESCRIPTION parser); simpl;
            [ destruct (ExtractorModel_dict W result (get_name W CAPE parser)); simpl
            | ]
          | ]
        | ]
      | ]
    | ]
  | ].

(** A turn of the loop never raises, and what it stores does not depend
    on the extractor it runs in. *)
Lemma CAPE_run_one_total sample_path parser results cx :
  exists results' cx',
    CAPE_run_one W sample_path parser results cx = (Ret results', cx')
    /\ extends cx cx'
    /\ forall cx2, fst (CAPE_run_one W sample_path parser results cx2) = Ret results'.
Proof.
  cape_cases parser sample_path;
    do 2 eexists; (split; [reflexivity|]); (split; [|reflexivity]);
    repeat split; simpl;
    try (now eexists); try (exists []; now rewrite app_nil_r);
    try (eexists; rewrite <- app_assoc; reflexivity).
Qed.

(** The turn of a parser that raises stores nothing and logs the error
    under the parser's name. *)
Lemma CAPE_run_one_raises sample_path parser results cx :
  CAPE_parser_raises W sample_path parser ->
  exists e cx',
    CAPE_run_one W sample_path parser results cx = (Ret results, cx')
    /\ In (LogError (get_name W CAPE parser) e) (log cx').
Proof.
  intros Hr. destruct (Hr cx) as [e He]. revert He.
  cape_cases parser sample_path; intros He; try discriminate He;
    do 2 eexists; (split; [reflexivity|]); simpl;
    apply in_or_app; right; left; reflexivity.
Qed.

(** The turn of a parser that has an entry point, on a readable sample,
    calls it. *)
Lemma CAPE_run_one_invokes sample_path parser results cx f data :
  extract_config parser = Some f ->
  read_file W sample_path = Ret data ->
  In (oid parser) (invoked (snd (CAPE_run_one W sample_path parser results cx))).
Proof.
  intros Hf Hd.
  unfold CAPE_run_one, CAPE_try, try_except, bind, lift, ret, invoke, getattr,
    log_error, modify.
  rewrite Hf, Hd. simpl.
  destruct (f data) as [result|]; simpl.
  - destruct (truthy result); simpl;
      [ destruct (AUTHOR parser); simpl;
        [ destruct (DESCRIPTION parser); simpl;
          [ destruct (ExtractorModel_dict W result (get_name W CAPE parser)); simpl | ] | ] | ];
      apply in_or_app; right; left; reflexivity.
  - apply in_or_app; right; left; reflexivity.
Qed.

Lemma CAPE_run_loop_total sample_path items results cx :
  exists results' cx',
    CAPE_run_loop W sample_path items results cx = (Ret results', cx')
    /\ extends cx cx'
    /\ forall cx2, fst (CAPE_run_loop W sample_path items results cx2) = Ret results'.
Proof.
  revert results cx.
  induction items as [|[k [parser ms]] rest IH]; intros results cx; simpl.
  - exists results, cx. split; [reflexivity|]. split; [apply extends_refl | reflexivity].
  - destruct (CAPE_run_one_total sample_path parser results cx)
      as (r1 & cx1 & E1 & X1 & I1).
    destruct (IH r1 cx1) as (r2 & cx2 & E2 & X2 & I2).
    exists r2, cx2. unfold bind. rewrite E1. split; [exact E2|].
    split; [eapply extends_trans; eassumption|].
    intros cx3. specialize (I1 cx3).
    destruct (CAPE_run_one W sample_path parser results cx3) as [o3 cx3'].
    simpl in I1. subst o3. apply I2.
Qed.

Lemma CAPE_run_loop_app sample_path items1 items2 results cx :
  CAPE_run_loop W sample_path (items1 ++ items2) results cx =
  match CAPE_run_loop W sample_path items1 results cx with
  | (Ret r1, cx1) => CAPE_run_loop W sample_path items2 r1 cx1
  | (Raise e, cx1) => (Raise e, cx1)
  end.
Proof.
  revert results cx.
  induction items1 as [|[k [parser ms]] rest IH]; intros results cx; simpl.
  - reflexivity.
  - unfold bind.
    destruct (CAPE_run_one W sample_path parser results cx) as [[r1|e] cx1];
      [apply IH | reflexivity].
Qed.

Lemma CAPE_run_loop_invokes sample_path items results cx sibling f data :
  In sibling (batch_parsers items) ->
  extract_config sibling = Some f ->
  read_file W sample_path = Ret data ->
  In (oid sibling) (invoked (snd (CAPE_run_loop W sample_path items results cx))).
Proof.
  intros Hin Hf Hd. revert results cx.
  induction items as [|[k [parser ms]] rest IH]; intros results cx; simpl in *.
  - contradiction.
  - unfold bind.
    destruct (CAPE_run_one_total sample_path parser results cx)
      as (r1 & cx1 & E1 & X1 & _).
    pose proof (CAPE_run_one_invokes sample_path parser results cx f data) as Hinv.
    rewrite E1 in *. simpl in Hinv.
    destruct Hin as [<-|Hin].
    + specialize (Hinv Hf Hd).
      destruct (CAPE_run_loop_total sample_path rest r1 cx1)
        as (r2 & cx2 & E2 & (_ & _ & _ & _ & [t T]) & _).
      rewrite E2. simpl. rewrite T. apply in_or_app. now left.
    + apply IH, Hin.
Qed.

End CapeFacts.

(** C6. In a run of the CAPE framework over a batch, a parser whose turn
    raises (its entry point, an attribute it lacks, the model class or the
    reading of the sample) contributes no record: the run returns, and
    returns exactly the records of the batch without that parser; the
    error is logged under the parser's name; and every other parser of
    the batch that has an entry point is called.  The run never raises,
    so it aborts neither the batch nor the [run_parsers] call around it. *)
Theorem CAPE_run_isolates_failures
    (W : World) (sample_path : string) (before after : Batch)
    (k : nat) (parser : Member) (ms : list YaraMatch) (cx : Extractor) :
  CAPE_parser_raises W sample_path parser ->
  exists results cx' e,
    CAPE_run W sample_path (before ++ (k, (parser, ms)) :: after) cx = (Ret results, cx')
    /\ fst (CAPE_run W sample_path (before ++ after) cx) = Ret results
    /\ In (LogError (get_name W CAPE parser) e) (log cx')
    /\ (forall sibling f data,
          In sibling (batch_parsers (before ++ after)) ->
          extract_config sibling = Some f ->
          read_file W sample_path = Ret data ->
          In (oid sibling) (invoked cx'))
    /\ (forall batch cx0, exists results0 cx0',
          CAPE_run W sample_path batch cx0 = (Ret results0, cx0')).
Proof.
  intros Hraise. unfold CAPE_run.
  destruct (CAPE_run_loop_total W sample_path before [] cx)
    as (r1 & cx1 & E1 & X1 & I1).
  destruct (CAPE_run_one_raises W sample_path parser r1 cx1 Hraise)
    as (e & cx2 & E2 & L2).
  destruct (CAPE_run_loop_total W sample_path after r1 cx2)
    as (r3 & cx3 & E3 & X3 & I3).
  exists r3, cx3, e.
  assert (Hrun : CAPE_run_loop W sample_path (before ++ (k, (parser, ms)) :: after) [] cx
                 = (Ret r3, cx3)).
  { rewrite CAPE_run_loop_app, E1. simpl. unfold bind. rewrite E2. exact E3. }
  split; [exact Hrun|].
  split.
  { rewrite CAPE_run_loop_app, E1. apply I3. }
  split.
  { destruct X3 as (_ & _ & _ & [l Hl] & _). rewrite Hl. apply in_or_app. now left. }
  split.
  { intros sibling f data Hin Hf Hd.
    pose proof (CAPE_run_loop_invokes W sample_path
                  (before ++ (k, (parser, ms)) :: after) [] cx sibling f data) as H.
    rewrite Hrun in H. apply H; auto.
    unfold batch_parsers in *. rewrite map_app in *. simpl.
    apply in_app_or in Hin. apply in_or_app. destruct Hin; [left | right; right]; auto. }
  intros batch cx0.
  destruct (CAPE_run_loop_total W sample_path batch [] cx0) as (r & c & E & _).
  now exists r, c.
Qed.

(** C6 at a batch of three parsers, the second of which raises. *)
Lemma CAPE_run_isolates_failures_witness :
  exists results cx' e,
    CAPE_run Examples.plain_world "sample"
      ([(1, (Examples.good_parser, []))] ++
       (2, (Examples.bad_parser, [])) :: [(3, (Examples.other_parser, []))])
      Examples.empty_extractor = (Ret results, cx')
    /\ fst (CAPE_run Examples.plain_world "sample"
              ([(1, (Examples.good_parser, []))] ++ [(3, (Examples.other_parser, []))])
              Examples.empty_extractor) = Ret results
    /\ In (LogError "bad" e) (log cx')
    /\ Dict.keys results = ["good"; "other"].
Proof.
  destruct (CAPE_run_isolates_failures Examples.plain_world "sample"
              [(1, (Examples.good_parser, []))] [(3, (Examples.other_parser, []))]
              2 Examples.bad_parser [] Examples.empty_extractor)
    as (results & cx' & e & H1 & H2 & H3 & _).
  - intros cx. eexists. reflexivity.
  - exists results, cx', e. repeat split; try assumption.
    vm_compute in H2. injection H2 as <-. reflexivity.
Defined.

(* ------------------------------------------------------------------ *)
(** * Discovery: the loops over adapters and candidates end *)

Example discover_ex :
  discover Examples2.picky_world [Examples2.root1] []
  = (Ret tt,
     mkDiscovery
       [("parsers.fam.foo", Examples2.class_ 13 "MacoB" "parsers.fam.foo");
        ("parsers.fam.bar", Examples2.class_ 21 "MacoNoRule" "parsers.fam.bar")]
       []
       ["rule MacoA"; "rule MacoB"]
       ["MacoA"; "MacoB"]
       [LogError "parsers.fam.missing_dep" (OtherError "No module named 'x'");
        LogError "<class 'parsers.fam.foo.Broken'>" (OtherError "validate failed");
        LogError "<class 'parsers.fam.bar.MacoNoRule'>" (OtherError "no rule")]).
Proof. reflexivity. Qed.

(** A module that lies directly in the parser directory: the search for
    its [site-packages] starts above the parser directory, never meets it
    and ends at the recursion limit, outside any handler. *)
Example discover_flat_ex :
  discover Examples2.picky_world [Examples3.flat_root] []
  = (Raise RecursionError, Discovery_empty).
Proof. vm_compute. reflexivity. Qed.

Section DiscoveryTotalFacts.
Variable W : World.

Lemma same_registry_refl d : same_registry d d.
Proof. now repeat split. Qed.

Lemma same_registry_trans a b c : same_registry a b -> same_registry b c -> same_registry a c.
Proof. unfold same_registry. intuition congruence. Qed.

Ltac claim_cases br fw member d :=
  unfold claim, try_except, bind, lift, ret, register, extract_rules, add_standalone,
    extend_rules, d_log_error, modify, getattr;
  destruct (validate W fw member) as [[|]|ev]; simpl;
  [ destruct (is_blocked W br (__name__ member)); simpl;
    [ | destruct (__module__ member) as [key|]; simpl;
        [ destruct (extract_yara_from_module W fw member (yara_rule_names d))
            as [[[|rule1 rules]|ex] names]; simpl;
          [ | | destruct (is_TypeError ex); simpl ]
        | ] ]
  |
  | destruct (is_TypeError ev); simpl ].

Lemma claim_total br fw member d :
  exists c d', claim W br fw member d = (Ret c, d').
Proof. claim_cases br fw member d; do 2 eexists; reflexivity. Qed.

Lemma claim_validate_raises br fw member d e :
  validate W fw member = Raise e ->
  exists d',
    claim W br fw member d = (Ret Continue, d')
    /\ same_registry d d'
    /\ d_log d' = if is_TypeError e then d_log d
                  else d_log d ++ [LogError (member_str member) e].
Proof.
  intros Hv.
  unfold claim, try_except, bind, lift, ret, d_log_error, modify.
  rewrite Hv. simpl.
  destruct (is_TypeError e); simpl; eexists; (split; [reflexivity|]);
    (split; [now repeat split | reflexivity]).
Qed.

Lemma claim_extract_raises br fw member d key e names :
  validate W fw member = Ret true ->
  is_blocked W br (__name__ member) = false ->
  __module__ member = Some key ->
  extract_yara_from_module W fw member (yara_rule_names d) = (Raise e, names) ->
  exists d',
    claim W br fw member d = (Ret Continue, d')
    /\ d_standalone d' = d_standalone d
    /\ yara_rules d' = yara_rules d
    /\ d_log d' = if is_TypeError e then d_log d
                  else d_log d ++ [LogError (member_str member) e].
Proof.
  intros Hv Hb Hm He.
  unfold claim, try_except, bind, lift, ret, register, extract_rules, d_log_error,
    modify, getattr.
  rewrite Hv. simpl. rewrite Hb, Hm. simpl. rewrite He. simpl.
  destruct (is_TypeError e); simpl; eexists; (split; [reflexivity|]);
    repeat split; reflexivity.
Qed.

Lemma try_frameworks_total br fws member d :
  exists d', try_frameworks W br fws member d = (Ret tt, d').
Proof.
  revert d. induction fws as [|fw rest IH]; intros d; simpl.
  - now exists d.
  - destruct (claim_total br fw member d) as (c & d1 & E).
    unfold bind. rewrite E. destruct c; [now exists d1 | apply IH].
Qed.

Lemma inspect_candidates_total br candidates d :
  exists d', inspect_candidates W br candidates d = (Ret tt, d').
Proof.
  revert d. induction candidates as [|m rest IH]; intros d; cbn [inspect_candidates].
  - now exists d.
  - destruct (try_frameworks_total br PARSER_FRAMEWORKS m d) as (d1 & E).
    unfold bind. rewrite E. apply IH.
Qed.

Lemma correct_rules_total root d : exists d', correct_rules root d = (Ret tt, d').
Proof.
  unfold correct_rules. destruct (String.eqb _ _); eexists; reflexivity.
Qed.

Lemma correct_parsers_total root d : exists d', correct_parsers root d = (Ret tt, d').
Proof.
  unfold correct_parsers. destruct (String.eqb _ _); eexists; reflexivity.
Qed.

Lemma load_unit_total br root u d : exists d', load_unit W br root u d = (Ret tt, d').
Proof.
  unfold load_unit. destruct (imported u) as [[module classes]|e].
  - destruct (inspect_candidates_total br (module :: classes) d) as (d1 & E).
    unfold bind. rewrite E. apply correct_rules_total.
  - eexists. reflexivity.
Qed.

(** A turn of the walk that ends was skipped, or found its way through the
    search for [site-packages] and loaded the unit. *)
Lemma walk_unit_inv br root rsp u d d' :
  walk_unit W br root rsp u d = (Ret tt, d') ->
  (skipped root u = true /\ d' = d)
  \/ (skipped root u = false /\ load_unit W br root u d = (Ret tt, d')).
Proof.
  unfold walk_unit. destruct (skipped root u).
  - intros [= <-]. now left.
  - unfold bind, lift. destruct (find_site_packages _ _ _ _ _); [|discriminate].
    intros H. now right.
Qed.

Lemma cleanup_state root d o d' : cleanup root d = (o, d') -> d' = d.
Proof.
  unfold cleanup, raise, ret. destruct (String.eqb _ _); [now intros [= _ <-]|].
  destruct (cleanup_error root); now intros [= _ <-].
Qed.

(** A turn of a root that ends has compiled the blocklist, walked the
    units and corrected the keys. *)
Lemma walk_root_inv bl root d d' :
  walk_root W bl root d = (Ret tt, d') ->
  exists br rsp d1,
    compile_blocklist W bl = Ret br
    /\ walk_units W br root rsp (units root) d = (Ret tt, d1)
    /\ correct_parsers root d1 = (Ret tt, d').
Proof.
  unfold walk_root, bind, lift, raise.
  destruct (local_site_packages _ _) as [rsp|e]; [|discriminate].
  destruct (root_import root); [discriminate|].
  destruct (compile_blocklist W bl) as [br|e]; [|discriminate].
  destruct (walk_units W br root rsp (units root) d) as [[[]|e] d1] eqn:E; [|discriminate].
  destruct (walk_error root); [discriminate|].
  destruct (correct_parsers_total root d1) as (d2 & E2). rewrite E2.
  intros H. exists br, rsp, d1. repeat split; [exact E|].
  destruct (cleanup root d2) as [o d3] eqn:E3.
  pose proof (cleanup_state _ _ _ _ E3) as ->. injection H as _ <-. exact E2.
Qed.

End DiscoveryTotalFacts.

(* ------------------------------------------------------------------ *)
(** * Discovery: whether it ends does not depend on the adapters *)

Section AdapterIndependence.
Variables W W2 : World.
Hypothesis same_listdir : listdir W2 = listdir W.
Hypothesis same_limit : recursion_limit W2 = recursion_limit W.
Hypothesis same_regex : regex_valid W2 = regex_valid W.

Lemma walk_unit_outcome br br2 root rsp u d d2 :
  fst (walk_unit W2 br2 root rsp u d2) = fst (walk_unit W br root rsp u d).
Proof.
  unfold walk_unit. rewrite same_listdir, same_limit.
  destruct (skipped root u); [reflexivity|].
  unfold bind, lift. destruct (find_site_packages _ _ _ _ _); [|reflexivity].
  destruct (load_unit_total W br root u d) as (? & ->).
  destruct (load_unit_total W2 br2 root u d2) as (? & ->). reflexivity.
Qed.

Lemma walk_units_outcome br br2 root rsp us d d2 :
  fst (walk_units W2 br2 root rsp us d2) = fst (walk_units W br root rsp us d).
Proof.
  revert d d2. induction us as [|u rest IH]; intros d d2; cbn [walk_units]; [reflexivity|].
  unfold bind. pose proof (walk_unit_outcome br br2 root rsp u d d2) as H.
  destruct (walk_unit W2 br2 root rsp u d2) as [[[]|e2] d2'],
           (walk_unit W br root rsp u d) as [[[]|e] d'];
    simpl in H; try discriminate H; [apply IH | exact H].
Qed.

Lemma compile_blocklist_same bl : compile_blocklist W2 bl = compile_blocklist W bl.
Proof. unfold compile_blocklist. now rewrite same_regex. Qed.

Lemma walk_root_outcome bl root d d2 :
  fst (walk_root W2 bl root d2) = fst (walk_root W bl root d).
Proof.
  unfold walk_root, bind, lift, raise.
  rewrite same_listdir, compile_blocklist_same.
  destruct (local_site_packages _ _) as [rsp|e]; [|reflexivity].
  destruct (root_import root); [reflexivity|].
  destruct (compile_blocklist W bl) as [br|e]; [|reflexivity].
  pose proof (walk_units_outcome br br root rsp (units root) d d2) as H.
  destruct (walk_units W2 br root rsp (units root) d2) as [[[]|e2] d2'],
           (walk_units W br root rsp (units root) d) as [[[]|e] d'];
    simpl in H; try discriminate H; [|exact H].
  destruct (walk_error root); [reflexivity|].
  destruct (correct_parsers_total root d2') as (? & ->).
  destruct (correct_parsers_total root d') as (? & ->).
  unfold cleanup, raise, ret. destruct (String.eqb _ _); [reflexivity|].
  destruct (cleanup_error root); reflexivity.
Qed.

Lemma walk_roots_outcome bl roots d d2 :
  fst (walk_roots W2 bl roots d2) = fst (walk_roots W bl roots d).
Proof.
  revert d d2. induction roots as [|root rest IH]; intros d d2; cbn [walk_roots];
    [reflexivity|].
  unfold bind. pose proof (walk_root_outcome bl root d d2) as H.
  destruct (walk_root W2 bl root d2) as [[[]|e2] d2'],
           (walk_root W bl root d) as [[[]|e] d'];
    simpl in H; try discriminate H; [apply IH | exact H].
Qed.

End AdapterIndependence.

(* ------------------------------------------------------------------ *)
(** * Discovery: what gets registered *)

Ltac claim_cases_eq W br fw member d :=
  unfold claim, try_except, bind, lift, ret, register, extract_rules, add_standalone,
    extend_rules, d_log_error, modify, getattr;
  let Hv := fresh "Hv" in
  let Hb := fresh "Hb" in
  let Hm := fresh "Hm" in
  let He := fresh "He" in
  destruct (validate W fw member) as [[|]|?ev] eqn:Hv; simpl;
  [ destruct (is_blocked W br (__name__ member)) eqn:Hb; simpl;
    [ | destruct (__module__ member) as [?key|] eqn:Hm; simpl;
        [ destruct (extract_yara_from_module W fw member (yara_rule_names d))
            as [[[|?rule1 ?rules]|?ex] ?names] eqn:He; simpl;
          [ | | destruct (is_TypeError ex); simpl ]
        | ] ]
  |
  | destruct (is_TypeError ev); simpl ].

Section DiscoveryInvFacts.
Variable W : World.
Variable br : option string.

Lemma In_set_add m x s : In m (set_add x s) -> m = x \/ In m s.
Proof.
  unfold set_add. destruct (existsb _ s); [auto|].
  intros H. apply in_app_or in H. destruct H as [H|[<-|[]]]; auto.
Qed.

Lemma validates_claimed fw member : validates W fw member = true -> claimed W member = true.
Proof.
  intros H. unfold claimed. apply existsb_exists. exists fw. split; [|exact H].
  destruct fw; simpl; auto.
Qed.

Lemma validate_registration fw member key :
  validate W fw member = Ret true ->
  is_blocked W br (__name__ member) = false ->
  __module__ member = Some key ->
  registration W br member = Some key.
Proof.
  intros Hv Hb Hm. unfold registration.
  rewrite (validates_claimed fw member), Hb; [exact Hm|].
  unfold validates. now rewrite Hv.
Qed.

Lemma claim_preserves (Q : Member -> Prop) fw member d c d' :
  (registration W br member <> None -> Q member) ->
  all_registered Q d ->
  claim W br fw member d = (Ret c, d') ->
  all_registered Q d'.
Proof.
  intros HQ [Hp Hs]. revert HQ.
  claim_cases_eq W br fw member d; intros HQ [= <- <-]; try (split; assumption);
    assert (Qm : Q member)
      by (apply HQ; erewrite validate_registration by eassumption; discriminate);
    split; simpl; intros;
    repeat match goal with
    | H : In _ (Dict.values (Dict.set _ _ _)) |- _ =>
        apply DictFacts.In_values_set in H; destruct H as [->|H]
    | H : In _ (set_add _ _) |- _ => apply In_set_add in H; destruct H as [->|H]
    end; eauto.
  destruct (Dict.get (fw_name fw) (d_standalone d)) as [s0|] eqn:Hg.
  - apply DictFacts.get_In in Hg. eapply Hs; [|eassumption].
    unfold Dict.values. apply in_map_iff. now exists (fw_name fw, s0).
  - contradiction.
Qed.

(** A blocked candidate leaves no trace but log lines. *)
Lemma claim_blocked fw member d :
  is_blocked W br (__name__ member) = true ->
  exists d', claim W br fw member d = (Ret Continue, d') /\ same_registry d d'.
Proof.
  intros Hblk.
  claim_cases_eq W br fw member d; try congruence;
    eexists; (split; [reflexivity | now repeat split]).
Qed.

Lemma try_frameworks_blocked fws member d :
  is_blocked W br (__name__ member) = true ->
  exists d', try_frameworks W br fws member d = (Ret tt, d') /\ same_registry d d'.
Proof.
  intros Hblk. revert d. induction fws as [|fw rest IH]; intros d; simpl.
  - exists d. split; [reflexivity | apply same_registry_refl].
  - destruct (claim_blocked fw member d Hblk) as (d1 & E & S1).
    unfold bind. rewrite E.
    destruct (IH d1) as (d2 & E2 & S2). exists d2. split; [exact E2|].
    eapply same_registry_trans; eassumption.
Qed.

Lemma try_frameworks_preserves (Q : Member -> Prop) fws member d d' :
  (registration W br member <> None -> Q member) ->
  all_registered Q d ->
  try_frameworks W br fws member d = (Ret tt, d') ->
  all_registered Q d'.
Proof.
  intros HQ. revert d. induction fws as [|fw rest IH]; intros d Hinv; simpl.
  - now intros [= <-].
  - unfold bind. destruct (claim_total W br fw member d) as (c & d1 & E). rewrite E.
    pose proof (claim_preserves Q fw member d c d1 HQ Hinv E) as H1.
    destruct c; [now intros [= <-] | now apply IH].
Qed.

Lemma inspect_candidates_preserves (Q : Member -> Prop) candidates d d' :
  (forall m, In m candidates -> registration W br m <> None -> Q m) ->
  all_registered Q d ->
  inspect_candidates W br candidates d = (Ret tt, d') ->
  all_registered Q d'.
Proof.
  revert d. induction candidates as [|m rest IH]; intros d HQ Hinv;
    cbn [inspect_candidates].
  - now intros [= <-].
  - unfold bind.
    destruct (try_frameworks_total W br PARSER_FRAMEWORKS m d) as (d1 & E). rewrite E.
    apply IH.
    + intros m' Hin. apply HQ. now right.
    + eapply try_frameworks_preserves; [|exact Hinv|exact E]. apply HQ. now left.
Qed.

Lemma walk_unit_preserves (Q : Member -> Prop) root rsp u d d' :
  (forall m, In m (unit_candidates root u) -> registration W br m <> None -> Q m) ->
  all_registered Q d ->
  walk_unit W br root rsp u d = (Ret tt, d') ->
  all_registered Q d'.
Proof.
  intros HQ Hinv H. apply walk_unit_inv in H. destruct H as [[_ ->]|[Hs H]]; [exact Hinv|].
  revert HQ H. unfold load_unit, unit_candidates. rewrite Hs.
  destruct (imported u) as [[module classes]|e].
  - intros HQ. unfold bind.
    destruct (inspect_candidates_total W br (module :: classes) d) as (d1 & E).
    rewrite E.
    pose proof (inspect_candidates_preserves Q (module :: classes) d d1 HQ Hinv E) as H1.
    unfold correct_rules. destruct (String.eqb _ _); intros [= <-]; exact H1.
  - intros _ [= <-]. exact Hinv.
Qed.

Lemma walk_units_preserves (Q : Member -> Prop) root rsp us d d' :
  (forall m, In m (flat_map (unit_candidates root) us) -> registration W br m <> None -> Q m) ->
  all_registered Q d ->
  walk_units W br root rsp us d = (Ret tt, d') ->
  all_registered Q d'.
Proof.
  revert d. induction us as [|u rest IH]; intros d HQ Hinv; simpl.
  - now intros [= <-].
  - unfold bind. destruct (walk_unit W br root rsp u d) as [[[]|e] d1] eqn:E; [|discriminate].
    apply IH.
    + intros m Hin. apply HQ. simpl. apply in_or_app. now right.
    + eapply walk_unit_preserves; [|exact Hinv|exact E].
      intros m Hin. apply HQ. simpl. apply in_or_app. now left.
Qed.

Lemma In_values_fold_set {V} (f : string -> string) (ps acc : Dict.t string V) v :
  In v (Dict.values (fold_left (fun a kv => Dict.set (f (fst kv)) (snd kv) a) ps acc)) ->
  In v (Dict.values acc) \/ In v (Dict.values ps).
Proof.
  revert acc. induction ps as [|[k x] ps IH]; intros acc; simpl; [auto|].
  intros H. apply IH in H. destruct H as [H|H]; [|auto].
  apply DictFacts.In_values_set in H. destruct H as [->|H]; auto.
Qed.

Lemma In_values_rekey root ps v :
  In v (Dict.values (rekey root ps)) -> In v (Dict.values ps).
Proof.
  intros H. unfold rekey in H.
  apply (In_values_fold_set
           (fun k => Str.replace k (parsers_dir root) (original_dir root))) in H.
  destruct H as [[]|H]. exact H.
Qed.

Lemma correct_parsers_preserves (Q : Member -> Prop) root d d' :
  all_registered Q d ->
  correct_parsers root d = (Ret tt, d') ->
  all_registered Q d'.
Proof.
  unfold correct_parsers. destruct (String.eqb _ _); intros [Hp Hs] [= <-].
  - now split.
  - split; simpl; [|exact Hs]. intros m Hm. apply Hp. eapply In_values_rekey, Hm.
Qed.

End DiscoveryInvFacts.

Section DiscoveryRootsFacts.
Variable W : World.

Lemma walk_root_preserves (Q : Member -> Prop) bl root d d' :
  (forall m, In m (root_candidates root) ->
             registration W (blocklist_regex W bl) m <> None -> Q m) ->
  all_registered Q d ->
  walk_root W bl root d = (Ret tt, d') ->
  all_registered Q d'.
Proof.
  intros HQ Hinv H. apply walk_root_inv in H. destruct H as (br & rsp & d1 & Hc & E & Hp).
  unfold blocklist_regex in HQ. rewrite Hc in HQ.
  eapply correct_parsers_preserves; [|exact Hp].
  eapply walk_units_preserves; [exact HQ|exact Hinv|exact E].
Qed.

Lemma walk_roots_preserves (Q : Member -> Prop) bl roots d d' :
  (forall m, In m (candidates_of roots) ->
             registration W (blocklist_regex W bl) m <> None -> Q m) ->
  all_registered Q d ->
  walk_roots W bl roots d = (Ret tt, d') ->
  all_registered Q d'.
Proof.
  revert d. induction roots as [|root rest IH]; intros d HQ Hinv; simpl.
  - now intros [= <-].
  - unfold bind. destruct (walk_root W bl root d) as [[[]|e] d1] eqn:E; [|discriminate].
    apply IH.
    + intros m Hin. apply HQ. unfold candidates_of. simpl. apply in_or_app. now right.
    + eapply walk_root_preserves; [|exact Hinv|exact E].
      intros m Hin. apply HQ. unfold candidates_of. simpl. apply in_or_app. now left.
Qed.

Lemma all_registered_empty (Q : Member -> Prop) : all_registered Q Discovery_empty.
Proof. split; simpl; intros; contradiction. Qed.

(** What discovery registers are candidates it inspected, accepted by an
    adapter, not blocked, and with a [__module__]. *)
Lemma discover_registered bl roots d :
  discover W roots bl = (Ret tt, d) ->
  all_registered
    (fun m => In m (candidates_of roots)
              /\ claimed W m = true
              /\ is_blocked W (blocklist_regex W bl) (__name__ m) = false
              /\ __module__ m <> None) d.
Proof.
  intros H. eapply walk_roots_preserves; [|apply all_registered_empty|exact H].
  intros m Hin Hreg. unfold registration in Hreg.
  destruct (claimed W m); [|now elim Hreg].
  destruct (is_blocked W (blocklist_regex W bl) (__name__ m)); [now elim Hreg|].
  auto.
Qed.

End DiscoveryRootsFacts.

(* ------------------------------------------------------------------ *)
(** * Dispatch: the registry is read, never written *)

Section FramesFacts.
Variable W : World.

Lemma extends_same_core cx cx' : extends cx cx' -> same_core cx cx'.
Proof. intros (P & S & Y & _). now repeat split. Qed.

Lemma frames_ret {A} (a : A) : frames (ret a).
Proof. intros cx. split; [apply extends_refl | reflexivity]. Qed.

Lemma frames_lift {A} (o : outcome A) : frames (lift o).
Proof. intros cx. split; [apply extends_refl | reflexivity]. Qed.

Lemma frames_log_info msg : frames (log_info msg).
Proof. intros cx. split; [apply extends_log_info | reflexivity]. Qed.

Lemma frames_log_error subject e : frames (log_error subject e).
Proof. intros cx. split; [apply extends_log_error | reflexivity]. Qed.

Lemma frames_invoke {A} parser (o : outcome A) : frames (invoke parser o).
Proof.
  intros cx. split; [|reflexivity].
  repeat split; simpl; [exists []; now rewrite app_nil_r | now eexists].
Qed.

Lemma frames_bind {A B} (m : M Extractor A) (f : A -> M Extractor B) :
  frames m -> (forall a, frames (f a)) -> frames (bind m f).
Proof.
  intros Hm Hf cx. unfold bind.
  destruct (Hm cx) as [X1 I1].
  destruct (m cx) as [[a|e] cx1] eqn:E1; simpl in *.
  - destruct (Hf a cx1) as [X2 I2]. split.
    + eapply extends_trans; eassumption.
    + intros cx2 Hc. specialize (I1 cx2 Hc).
      destruct (Hm cx2) as [X3 _].
      destruct (m cx2) as [o2 cx3]. simpl in *. subst o2.
      apply I2.
      apply extends_same_core in X1, X3.
      destruct X1 as (? & ? & ?), X3 as (? & ? & ?), Hc as (? & ? & ?).
      repeat split; congruence.
  - split; [exact X1|].
    intros cx2 Hc. specialize (I1 cx2 Hc).
    destruct (m cx2) as [o2 cx3]. simpl in *. now subst o2.
Qed.

Lemma frames_try_except {A} (m : M Extractor A) (h : exn -> M Extractor A) :
  frames m -> (forall e, frames (h e)) -> frames (try_except m h).
Proof.
  intros Hm Hh cx. unfold try_except.
  destruct (Hm cx) as [X1 I1].
  destruct (m cx) as [[a|e] cx1] eqn:E1; simpl in *.
  - split; [exact X1|].
    intros cx2 Hc. specialize (I1 cx2 Hc).
    destruct (m cx2) as [o2 cx3]. simpl in *. now subst o2.
  - destruct (Hh e cx1) as [X2 I2]. split.
    + eapply extends_trans; eassumption.
    + intros cx2 Hc. specialize (I1 cx2 Hc).
      destruct (Hm cx2) as [X3 _].
      destruct (m cx2) as [o2 cx3]. simpl in *. subst o2.
      apply I2.
      apply extends_same_core in X1, X3.
      destruct X1 as (? & ? & ?), X3 as (? & ? & ?), Hc as (? & ? & ?).
      repeat split; congruence.
Qed.

Lemma frames_lookup_parser parser_module : frames (lookup_parser parser_module).
Proof.
  intros cx. unfold lookup_parser. split.
  - destruct parser_module as [k|]; [destruct (Dict.get k (parsers cx))|];
      apply extends_refl.
  - intros cx2 (P & _). rewrite P.
    destruct parser_module as [k|]; [destruct (Dict.get k (parsers cx))|]; reflexivity.
Qed.

Lemma frames_CAPE_try sample_path parser parser_name :
  frames (CAPE_try W sample_path parser parser_name).
Proof.
  unfold CAPE_try.
  apply frames_bind; [apply frames_lift|]. intros extract.
  apply frames_bind; [apply frames_lift|]. intros data.
  apply frames_bind; [apply frames_invoke|]. intros result.
  destruct (truthy result); [|apply frames_ret].
  apply frames_bind; [apply frames_lift|]. intros a.
  apply frames_bind; [apply frames_lift|]. intros dsc.
  apply frames_bind; [apply frames_lift|]. intros c.
  apply frames_ret.
Qed.

Lemma frames_CAPE_run_loop sample_path items results :
  frames (CAPE_run_loop W sample_path items results).
Proof.
  revert results. induction items as [|[k [parser ms]] rest IH]; intros results; simpl.
  - apply frames_ret.
  - apply frames_bind; [|intros r; apply IH].
    unfold CAPE_run_one. apply frames_try_except.
    + apply frames_bind; [apply frames_CAPE_try|].
      intros [record|]; apply frames_ret.
    + intros e. apply frames_bind; [apply frames_log_error | intros; apply frames_ret].
Qed.

Lemma frames_framework_run fw sample batch : frames (framework_run W fw sample batch).
Proof.
  destruct fw; simpl; try apply frames_lift. apply frames_CAPE_run_loop.
Qed.

Lemma frames_collect_matches br matches q names :
  frames (collect_matches W br matches q names).
Proof.
  revert q names. induction matches as [|ym rest IH]; intros q names; simpl.
  - apply frames_ret.
  - apply frames_bind; [apply frames_lookup_parser|]. intros parser.
    destruct (is_blocked W br (__name__ parser)).
    + apply frames_bind; [apply frames_log_info | intros; apply IH].
    + apply IH.
Qed.

Lemma frames_collect_standalone_fw br fw parser_list q :
  frames (collect_standalone_fw W br fw parser_list q).
Proof.
  revert q. induction parser_list as [|parser rest IH]; intros q; simpl.
  - apply frames_ret.
  - destruct (is_blocked W br (__name__ parser)).
    + apply frames_bind; [apply frames_log_info | intros; apply IH].
    + apply IH.
Qed.

Lemma frames_collect_standalone br items q :
  frames (collect_standalone W br items q).
Proof.
  revert q. induction items as [|[fw parser_list] rest IH]; intros q; simpl.
  - apply frames_ret.
  - apply frames_bind; [apply frames_collect_standalone_fw | intros; apply IH].
Qed.

Lemma frames_run_frameworks sample items results :
  frames (run_frameworks W sample items results).
Proof.
  revert results. induction items as [|[fw batch] rest IH]; intros results; simpl.
  - apply frames_ret.
  - destruct batch as [|b batch]; [apply IH|].
    apply frames_bind; [apply frames_lift|]. intros f.
    apply frames_bind; [apply frames_framework_run|]. intros r.
    destruct (finalize r); apply IH.
Qed.

Lemma frames_plan sample bl : frames (plan W sample bl).
Proof.
  unfold plan.
  apply frames_bind; [apply frames_lift|]. intros br.
  apply frames_bind.
  { intros cx. split; [apply extends_refl|]. intros cx2 (_ & _ & Y). simpl. now rewrite Y. }
  intros matches.
  apply frames_bind; [apply frames_collect_matches|]. intros qn.
  apply frames_bind.
  { intros cx. split; [apply extends_refl|]. intros cx2 (_ & S & _). simpl.
    unfold gets. simpl. now rewrite S. }
  intros st. apply frames_collect_standalone.
Qed.

Lemma frames_run_parsers sample bl : frames (run_parsers W sample bl).
Proof.
  unfold run_parsers. apply frames_bind; [apply frames_plan|].
  intros q. apply frames_run_frameworks.
Qed.

End FramesFacts.

(* ------------------------------------------------------------------ *)
(** * Dispatch: who is queued *)

Section QueueFacts.
Variable W : World.

Lemma In_batch_set m k p l (b : Batch) :
  In m (batch_parsers (Dict.set k (p, l) b)) -> m = p \/ In m (batch_parsers b).
Proof.
  unfold batch_parsers. intros H. apply in_map_iff in H.
  destruct H as ([k' [p' l']] & <- & I). simpl.
  apply DictFacts.In_set in I. destruct I as [[_ [= -> ->]]|I]; [now left|].
  right. apply in_map_iff. now exists (k', (p', l')).
Qed.

Lemma In_queue_set m f b (q : RunQueue) :
  In m (queue_members (Dict.set f b q)) ->
  In m (batch_parsers b) \/ In m (queue_members q).
Proof.
  unfold queue_members. intros H. apply in_flat_map in H.
  destruct H as ([f' b'] & I & Hm). simpl in Hm.
  apply DictFacts.In_set in I. destruct I as [[_ ->]|I]; [now left|].
  right. apply in_flat_map. now exists (f', b').
Qed.

Lemma In_queue_get m f b (q : RunQueue) :
  Dict.get f q = Some b -> In m (batch_parsers b) -> In m (queue_members q).
Proof.
  intros G I. apply DictFacts.get_In in G. unfold queue_members.
  apply in_flat_map. now exists (f, b).
Qed.

Lemma In_queue_add m f p ms q :
  In m (queue_members (queue_add f p ms q)) -> m = p \/ In m (queue_members q).
Proof.
  unfold queue_add. intros H. apply In_queue_set in H. destruct H as [H|H]; [|auto].
  apply In_batch_set in H. destruct H as [H|H]; [auto|].
  destruct (Dict.get f q) as [b|] eqn:G; [|contradiction].
  right. eapply In_queue_get; eassumption.
Qed.

Lemma queued_add f p ms q : queued f p (queue_add f p ms q).
Proof.
  unfold queued, queue_add. eexists. split; [apply DictFacts.get_set_same|].
  apply DictFacts.mem_set_same.
Qed.

Lemma queued_add_other f p ms f' p' q :
  queued f' p' q -> queued f' p' (queue_add f p ms q).
Proof.
  intros (b & G & Hm). unfold queued, queue_add.
  destruct (keqb_spec f' f) as [->|N].
  - eexists. split; [apply DictFacts.get_set_same|]. rewrite G.
    now apply DictFacts.mem_set_other.
  - exists b. split; [|exact Hm]. rewrite DictFacts.get_set_other; auto.
Qed.

(** After the loop over the matches, the queue holds what it held and
    registered parsers that the blocklist of the call lets through. *)
Lemma collect_matches_members br matches q names q' names' cx cx' :
  collect_matches W br matches q names cx = (Ret (q', names'), cx') ->
  forall m, In m (queue_members q') ->
    In m (queue_members q)
    \/ (In m (Dict.values (parsers cx)) /\ is_blocked W br (__name__ m) = false).
Proof.
  revert q names cx. induction matches as [|ym rest IH]; intros q names cx; simpl.
  - intros [= <- <- <-]. auto.
  - unfold bind, lookup_parser.
    destruct (Dict.get "parser_module" (meta ym)) as [k|]; [|discriminate].
    destruct (Dict.get k (parsers cx)) as [parser|] eqn:G; [|discriminate].
    destruct (is_blocked W br (__name__ parser)) eqn:Hb.
    + simpl. intros H m Hm. destruct (IH _ _ _ H m Hm) as [I|[I B]]; auto.
    + intros H m Hm. destruct (IH _ _ _ H m Hm) as [I|[I B]]; [|auto].
      apply In_queue_add in I. destruct I as [->|I]; [|auto].
      right. split; [|exact Hb]. apply DictFacts.get_In in G.
      eapply DictFacts.In_values, G.
Qed.

(** Every match that resolves to a parser the blocklist lets through is
    queued under the framework its rule names. *)
Lemma collect_matches_queues br matches q names q' names' cx cx' :
  collect_matches W br matches q names cx = (Ret (q', names'), cx') ->
  (forall f p, queued f p q -> queued f p q')
  /\ forall ym k parser,
       In ym matches ->
       Dict.get "parser_module" (meta ym) = Some k ->
       Dict.get k (parsers cx) = Some parser ->
       is_blocked W br (__name__ parser) = false ->
       queued (Dict.get "parser_framework" (meta ym)) parser q'.
Proof.
  revert q names cx. induction matches as [|ym rest IH]; intros q names cx; simpl.
  - intros [= <- <- <-]. split; [auto | intros ? ? ? []].
  - unfold bind, lookup_parser.
    destruct (Dict.get "parser_module" (meta ym)) as [k|] eqn:Gk; [|discriminate].
    destruct (Dict.get k (parsers cx)) as [parser|] eqn:G; [|discriminate].
    destruct (is_blocked W br (__name__ parser)) eqn:Hb.
    + simpl. intros H. destruct (IH _ _ _ H) as [Hq Hm]. split; [exact Hq|].
      intros ym' k' p' [<-|Hin] G1 G2 Hb'.
      * rewrite Gk in G1. injection G1 as <-. rewrite G in G2. injection G2 as <-.
        congruence.
      * simpl in Hm. eapply Hm; eassumption.
    + intros H. destruct (IH _ _ _ H) as [Hq Hm]. split.
      * intros f p Hp. apply Hq. now apply queued_add_other.
      * intros ym' k' p' [<-|Hin] G1 G2 Hb'.
        -- rewrite Gk in G1. injection G1 as <-. rewrite G in G2. injection G2 as <-.
           apply Hq. apply queued_add.
        -- eapply Hm; eassumption.
Qed.

Lemma collect_standalone_fw_spec br fw parser_list q cx :
  exists q' cx',
    collect_standalone_fw W br fw parser_list q cx = (Ret q', cx')
    /\ (forall m, In m (queue_members q') ->
          In m (queue_members q)
          \/ (In m parser_list /\ is_blocked W br (__name__ m) = false))
    /\ (forall f p, queued f p q -> queued f p q')
    /\ (forall p, In p parser_list -> is_blocked W br (__name__ p) = false ->
          queued (Some fw) p q').
Proof.
  revert q cx. induction parser_list as [|parser rest IH]; intros q cx; simpl.
  - exists q, cx. split; [reflexivity|]. repeat split; auto. intros ? [].
  - destruct (is_blocked W br (__name__ parser)) eqn:Hb.
    + unfold bind. simpl.
      destruct (IH q (snd (log_info (blocking_message (__name__ parser)) cx)))
        as (q' & cx' & E & Hm & Hq & Hp).
      exists q', cx'. split; [exact E|]. split; [|split; [exact Hq|]].
      * intros m I. destruct (Hm m I) as [?|[? ?]]; auto.
      * intros p [<-|I] Hb'; [congruence | auto].
    + destruct (IH (queue_add (Some fw) parser [] q) cx) as (q' & cx' & E & Hm & Hq & Hp).
      exists q', cx'. split; [exact E|]. split; [|split].
      * intros m I. destruct (Hm m I) as [I'|[? ?]]; [|auto].
        apply In_queue_add in I'. destruct I' as [->|I']; auto.
      * intros f p Hqd. apply Hq. now apply queued_add_other.
      * intros p [<-|I] Hb'; [apply Hq, queued_add | auto].
Qed.

Lemma collect_standalone_spec br items q cx :
  exists q' cx',
    collect_standalone W br items q cx = (Ret q', cx')
    /\ (forall m, In m (queue_members q') ->
          In m (queue_members q)
          \/ (exists s, In s (Dict.values items) /\ In m s)
             /\ is_blocked W br (__name__ m) = false)
    /\ (forall f p, queued f p q -> queued f p q')
    /\ (forall fw s p, In (fw, s) items -> In p s ->
          is_blocked W br (__name__ p) = false -> queued (Some fw) p q').
Proof.
  revert q cx. induction items as [|[fw s] rest IH]; intros q cx; simpl.
  - exists q, cx. split; [reflexivity|]. repeat split; auto. intros ? ? ? [].
  - destruct (collect_standalone_fw_spec br fw s q cx) as (q1 & cx1 & E1 & M1 & Q1 & P1).
    unfold bind. rewrite E1.
    destruct (IH q1 cx1) as (q' & cx' & E & Hm & Hq & Hp).
    exists q', cx'. split; [exact E|]. split; [|split].
    + intros m I. destruct (Hm m I) as [I'|[(s' & Hs & Hin) Hb]].
      * destruct (M1 m I') as [?|[? ?]]; [auto|]. right. split; [|assumption].
        exists s. split; [now left | assumption].
      * right. split; [|assumption]. exists s'. split; [now right | assumption].
    + intros f p Hqd. auto.
    + intros fw' s' p [[= <- <-]|I] Hin Hb; [apply Hq, P1; assumption|].
      eapply Hp; eassumption.
Qed.

(** The parsers a call queues are registered or standalone parsers that
    the call's blocklist lets through. *)
Lemma plan_members sample bl q cx cx' :
  plan W sample bl cx = (Ret q, cx') ->
  exists br,
    compile_blocklist W bl = Ret br
    /\ forall m, In m (queue_members q) ->
         (In m (Dict.values (parsers cx))
          \/ exists s, In s (Dict.values (standalone_parsers cx)) /\ In m s)
         /\ is_blocked W br (__name__ m) = false.
Proof.
  unfold plan, bind, lift, gets.
  destruct (compile_blocklist W bl) as [br|e]; [|discriminate].
  destruct (yara_match W (yara cx) sample) as [matches|e]; [|discriminate].
  destruct (collect_matches W br matches [] [] cx) as [[[q1 names]|e] cx1] eqn:E1;
    [|discriminate].
  simpl. intros E2. exists br. split; [reflexivity|].
  intros m Hm.
  destruct (frames_collect_matches W br matches [] [] cx) as [(_ & S1 & _) _].
  rewrite E1 in S1. simpl in S1.
  destruct (collect_standalone_spec br (standalone_parsers cx1) q1 cx1)
    as (q' & cx2 & E & M2 & _).
  rewrite E in E2. injection E2 as <- <-.
  destruct (M2 m Hm) as [I|[I B]].
  - destruct (collect_matches_members _ _ _ _ _ _ _ _ E1 m I) as [[]|[I' B]]. auto.
  - rewrite S1 in I. auto.
Qed.

End QueueFacts.

(* ------------------------------------------------------------------ *)
(** * The discovery-time blocklist *)

Lemma init_discover W roots bl cx :
  ConfigExtractor_init W roots bl = Ret cx ->
  exists d,
    discover W roots bl = (Ret tt, d)
    /\ parsers cx = d_parsers d
    /\ standalone_parsers cx = d_standalone d
    /\ yara cx = Str.join newline (yara_rules d)
    /\ yara_compile W (Str.join newline (yara_rules d)) = None.
Proof.
  unfold ConfigExtractor_init, compile_rules.
  destruct (discover W roots bl) as [[[]|e] d]; [|discriminate].
  destruct (yara_compile W (Str.join newline (yara_rules d))) eqn:Y; [discriminate|].
  intros [= <-]. exists d. repeat split; try reflexivity. exact Y.
Qed.

(** C4. A candidate whose name matches the blocklist given to the
    constructor is passed over by every adapter's turn: its inspection
    changes neither the registry nor the rules nor the used rule names nor
    the standalone sets.  So in the constructed extractor it is no value of
    the registry and no element of a standalone set, and no [run_parsers]
    call on that extractor, now or after other calls, puts it in a batch. *)
Theorem discovery_blocklist_is_permanent
    (W : World) (parsers_dirs : list Root) (parser_blocklist : list string)
    (cx : Extractor) (member : Member) :
  ConfigExtractor_init W parsers_dirs parser_blocklist = Ret cx ->
  is_blocked W (blocklist_regex W parser_blocklist) (__name__ member) = true ->
  (forall fws d, exists d',
      try_frameworks W (blocklist_regex W parser_blocklist) fws member d = (Ret tt, d')
      /\ same_registry d d')
  /\ ~ In member (Dict.values (parsers cx))
  /\ (forall s, In s (Dict.values (standalone_parsers cx)) -> ~ In member s)
  /\ (forall cx1 sample bl q cx2,
        same_core cx cx1 ->
        plan W sample bl cx1 = (Ret q, cx2) ->
        ~ In member (queue_members q)).
Proof.
  intros Hinit Hblk.
  destruct (init_discover W parsers_dirs parser_blocklist cx Hinit)
    as (d & Hd & Hp & Hs & _).
  destruct (discover_registered W parser_blocklist parsers_dirs d Hd) as [Rp Rs].
  assert (Np : ~ In member (Dict.values (parsers cx))).
  { intros I. rewrite Hp in I. destruct (Rp _ I) as (_ & _ & B & _). congruence. }
  assert (Ns : forall s, In s (Dict.values (standalone_parsers cx)) -> ~ In member s).
  { intros s Is I. rewrite Hs in Is. destruct (Rs _ _ Is I) as (_ & _ & B & _). congruence. }
  split; [|split; [exact Np|split; [exact Ns|]]].
  - intros fws d0. now apply try_frameworks_blocked.
  - intros cx1 sample bl q cx2 (P1 & S1 & _) Hplan I.
    destruct (plan_members W sample bl q cx1 cx2 Hplan) as (br & _ & Hm).
    destruct (Hm member I) as [[I'|(s & Is & I')] _].
    + rewrite P1 in I'. now apply Np.
    + rewrite S1 in Is. now apply (Ns s).
Qed.

(** C4 with the blocklist [["MacoA"]]: the class [MacoA] is passed over,
    its sibling [MacoB] is registered. *)
Lemma discovery_blocklist_is_permanent_witness :
  match ConfigExtractor_init Examples2.picky_world [Examples2.root1] ["MacoA"] with
  | Ret cx =>
      ~ In (Examples2.class_ 12 "MacoA" "parsers.fam.foo") (Dict.values (parsers cx))
      /\ Dict.keys (parsers cx) = ["parsers.fam.foo"; "parsers.fam.bar"]
      /\ yara cx = "rule MacoB"
  | Raise _ => False
  end.
Proof.
  destruct (ConfigExtractor_init Examples2.picky_world [Examples2.root1] ["MacoA"])
    as [cx|e] eqn:E.
  - split.
    + assert (B : is_blocked Examples2.picky_world
                    (blocklist_regex Examples2.picky_world ["MacoA"]) "MacoA" = true)
        by (vm_compute; reflexivity).
      destruct (discovery_blocklist_is_permanent Examples2.picky_world [Examples2.root1]
                  ["MacoA"] cx (Examples2.class_ 12 "MacoA" "parsers.fam.foo") E B)
        as (_ & Np & _).
      exact Np.
    + vm_compute in E. injection E as <-. split; reflexivity.
  - vm_compute in E. discriminate E.
Defined.

(* ------------------------------------------------------------------ *)
(** * The registry is keyed by module name *)

Section RegistryKeysFacts.
Variable W : World.
Variable br : option string.

Lemma register_if_twice b1 b2 member ps :
  register_if W br b2 member (register_if W br b1 member ps) = register_if W br (b1 || b2) member ps.
Proof.
  unfold register_if.
  destruct b1, b2, (is_blocked W br (__name__ member)), (__module__ member);
    simpl; try reflexivity.
  apply DictFacts.set_set.
Qed.

Lemma claim_parsers fw member d c d' :
  claim W br fw member d = (Ret c, d') ->
  d_parsers d' = register_if W br (validates W fw member) member (d_parsers d)
  /\ (c = Break -> validates W fw member = true).
Proof.
  unfold register_if, validates.
  claim_cases_eq W br fw member d; intros [= <- <-]; simpl;
    (split; [reflexivity | try discriminate; try reflexivity]).
Qed.

Lemma try_frameworks_parsers fws member d d' :
  try_frameworks W br fws member d = (Ret tt, d') ->
  d_parsers d' =
    register_if W br (existsb (fun fw => validates W fw member) fws) member (d_parsers d).
Proof.
  revert d. induction fws as [|fw rest IH]; intros d; simpl.
  - intros [= <-]. unfold register_if. reflexivity.
  - unfold bind. destruct (claim W br fw member d) as [[c|e] d1] eqn:E;
      [|destruct (claim_total W br fw member d) as (? & ? & E'); congruence].
    destruct (claim_parsers fw member d c d1 E) as [H1 H2].
    destruct c.
    + intros [= <-]. rewrite H1, (H2 eq_refl). reflexivity.
    + intros H. rewrite (IH d1 H), H1, register_if_twice. reflexivity.
Qed.

Lemma inspect_candidates_parsers candidates d d' :
  inspect_candidates W br candidates d = (Ret tt, d') ->
  d_parsers d' = fold_left (register_candidate W br) candidates (d_parsers d).
Proof.
  revert d. induction candidates as [|m rest IH]; intros d; cbn [inspect_candidates].
  - now intros [= <-].
  - unfold bind.
    destruct (try_frameworks_total W br PARSER_FRAMEWORKS m d) as (d1 & E). rewrite E.
    intros H. rewrite (IH d1 H). simpl. f_equal.
    rewrite (try_frameworks_parsers _ _ _ _ E).
    unfold register_candidate, registration, register_if, claimed.
    destruct (existsb _ _ && negb _); reflexivity.
Qed.

End RegistryKeysFacts.

(** C1 on the code, at a parser directory whose module [fam/foo.py]
    defines two MACO classes.  Both are claimed and both have the module's
    name as [__module__]: the second assignment to [self.parsers] replaces
    the first, and the registry has one entry for two distinct claimed
    candidates, while the rules of both are kept.  A match of the first
    class's rule resolves to the second class. *)
Lemma registry_one_entry_for_two_classes :
  let MacoA := Examples2.class_ 12 "MacoA" "parsers.fam.foo" in
  let MacoB := Examples2.class_ 13 "MacoB" "parsers.fam.foo" in
  let run := discover Examples2.picky_world [Examples3.root2] [] in
  fst run = Ret tt
  /\ claimed_candidates Examples2.picky_world [Examples3.root2] = [MacoA; MacoB]
  /\ d_parsers (snd run) = [("parsers.fam.foo", MacoB)]
  /\ yara_rules (snd run) = ["rule MacoA"; "rule MacoB"]
  /\ Dict.size (d_parsers (snd run))
     <> List.length (claimed_candidates Examples2.picky_world [Examples3.root2])
  /\ match ConfigExtractor_init Examples2.picky_world [Examples3.root2] [] with
     | Ret cx =>
         resolve cx (mkMatch "MacoA" [("parser_module", "parsers.fam.foo");
                                      ("parser_framework", "MACO");
                                      ("parser_name", "MacoA")])
         = Some MacoB
     | Raise _ => False
     end.
Proof.
  cbv zeta. repeat split; try (vm_compute; reflexivity). vm_compute. discriminate.
Qed.

(* ------------------------------------------------------------------ *)
(** * Discovery: containment of plugin errors *)

(** C7. An exception (an instance of [Exception], as the handlers name
    it) of an adapter's [validate] or of rule extraction on a claimed
    candidate is caught in the turn of that adapter on that candidate.
    After an exception of [validate] the next adapter is asked, with the
    registry, the standalone sets, the rules and the rule names as they
    were; after an exception of rule extraction the next
    adapter is asked too, the candidate registered and no rule or
    standalone entry added.  Either is logged under [str] of the
    candidate unless it is a [TypeError].  The turn of every candidate
    ends, the next candidate is inspected, and the loop over the
    candidates ends with the registry that the registrations give; a
    unit whose import raises is logged and the walk goes on.  Whether
    discovery ends or is aborted, and with which exception, does not
    depend on what the adapters' [validate] and rule extraction do; and a
    construction that raises does so with the exception that aborted
    discovery or with that of the ruleset compiler. *)
Theorem discovery_contains_plugin_errors (W : World) (block_regex : option string) :
  (forall fw rest member d e,
      validate W fw member = Raise e ->
      exists d1,
        try_frameworks W block_regex (fw :: rest) member d
        = try_frameworks W block_regex rest member d1
        /\ same_registry d d1
        /\ d_log d1 = if is_TypeError e then d_log d
                      else d_log d ++ [LogError (member_str member) e])
  /\ (forall fw rest member d key e names,
        validate W fw member = Ret true ->
        is_blocked W block_regex (__name__ member) = false ->
        __module__ member = Some key ->
        extract_yara_from_module W fw member (yara_rule_names d) = (Raise e, names) ->
        exists d1,
          try_frameworks W block_regex (fw :: rest) member d
          = try_frameworks W block_regex rest member d1
          /\ d_parsers d1 = Dict.set key member (d_parsers d)
          /\ d_standalone d1 = d_standalone d
          /\ yara_rules d1 = yara_rules d
          /\ yara_rule_names d1 = names
          /\ d_log d1 = if is_TypeError e then d_log d
                        else d_log d ++ [LogError (member_str member) e])
  /\ (forall member rest d,
        exists d1,
          try_frameworks W block_regex PARSER_FRAMEWORKS member d = (Ret tt, d1)
          /\ inspect_candidates W block_regex (member :: rest) d
             = inspect_candidates W block_regex rest d1)
  /\ (forall candidates d,
        exists d',
          inspect_candidates W block_regex candidates d = (Ret tt, d')
          /\ d_parsers d'
             = fold_left (register_candidate W block_regex) candidates (d_parsers d))
  /\ (forall root root_site_packages u rest d e,
        skipped root u = false ->
        (exists sp, find_site_packages (listdir W) (recursion_limit W) (parsers_dir root)
                      root_site_packages (finder_path u) = Ret sp) ->
        imported u = Raise e ->
        walk_units W block_regex root root_site_packages (u :: rest) d
        = walk_units W block_regex root root_site_packages rest
            (mkDiscovery (d_parsers d) (d_standalone d) (yara_rules d) (yara_rule_names d)
               (d_log d ++ [LogError (module_name u) e])))
  /\ (forall validate_ extract_ parsers_dirs parser_blocklist,
        fst (discover (with_adapters W validate_ extract_) parsers_dirs parser_blocklist)
        = fst (discover W parsers_dirs parser_blocklist))
  /\ (forall parsers_dirs parser_blocklist e,
        ConfigExtractor_init W parsers_dirs parser_blocklist = Raise e ->
        fst (discover W parsers_dirs parser_blocklist) = Raise e
        \/ exists d,
             discover W parsers_dirs parser_blocklist = (Ret tt, d)
             /\ yara_compile W (Str.join newline (yara_rules d)) = Some e).
Proof.
  split; [|split; [|split; [|split; [|split; [|split]]]]].
  - intros fw rest member d e Hv.
    destruct (claim_validate_raises W block_regex fw member d e Hv) as (d1 & E & H).
    exists d1. split; [|exact H]. cbn [try_frameworks]. unfold bind. now rewrite E.
  - intros fw rest member d key e names Hv Hb Hm He.
    exists (mkDiscovery (Dict.set key member (d_parsers d)) (d_standalone d) (yara_rules d)
              names
              (if is_TypeError e then d_log d
               else d_log d ++ [LogError (member_str member) e])).
    split; [|repeat split].
    cbn [try_frameworks].
    unfold bind at 1.
    assert (E : claim W block_regex fw member d
                = (Ret Continue,
                   mkDiscovery (Dict.set key member (d_parsers d)) (d_standalone d)
                     (yara_rules d) names
                     (if is_TypeError e then d_log d
                      else d_log d ++ [LogError (member_str member) e]))).
    { unfold claim, try_except, bind, lift, ret, register, extract_rules, d_log_error,
        modify, getattr.
      rewrite Hv. simpl. rewrite Hb, Hm. simpl. rewrite He. simpl.
      destruct (is_TypeError e); reflexivity. }
    now rewrite E.
  - intros member rest d.
    destruct (try_frameworks_total W block_regex PARSER_FRAMEWORKS member d) as (d1 & E).
    exists d1. split; [exact E|]. cbn [inspect_candidates]. unfold bind. now rewrite E.
  - intros candidates d.
    destruct (inspect_candidates_total W block_regex candidates d) as (d' & E).
    exists d'. split; [exact E|]. now apply inspect_candidates_parsers.
  - intros root rsp u rest d e Hs [sp Hsp] Hi.
    cbn [walk_units]. unfold bind at 1. unfold walk_unit. rewrite Hs.
    unfold bind, lift. rewrite Hsp. unfold load_unit. rewrite Hi. reflexivity.
  - intros v x roots bl. unfold discover. apply walk_roots_outcome; reflexivity.
  - intros roots bl e. unfold ConfigExtractor_init, compile_rules.
    destruct (discover W roots bl) as [[[]|e0] d].
    + destruct (yara_compile W _) as [e1|] eqn:Hy; [|discriminate].
      intros [= <-]. right. exists d. now split.
    + intros [= <-]. now left.
Qed.

(** C7 at the class [Broken], whose validation by MACO raises: MWCP and
    CAPE are asked next and the error is logged under the class; and at
    the root whose first unit fails to import, whose second defines
    [Broken] and whose third has a parser without extractable rule:
    discovery ends, with the parsers of both units registered. *)
Lemma discovery_contains_plugin_errors_witness :
  let Broken := Examples2.class_ 11 "Broken" "parsers.fam.foo" in
  (exists d1,
     try_frameworks Examples2.picky_world None [MACO; MWCP; CAPE] Broken Discovery_empty
     = try_frameworks Examples2.picky_world None [MWCP; CAPE] Broken d1
     /\ d_log d1 = [LogError "<class 'parsers.fam.foo.Broken'>" (OtherError "validate failed")])
  /\ exists d,
       inspect_candidates Examples2.picky_world None (root_candidates Examples2.root1)
         Discovery_empty = (Ret tt, d)
       /\ Dict.keys (d_parsers d) = ["parsers.fam.foo"; "parsers.fam.bar"].
Proof.
  intros Broken.
  destruct (discovery_contains_plugin_errors Examples2.picky_world None)
    as (Hv & _ & _ & Hc & _).
  split.
  - destruct (Hv MACO [MWCP; CAPE] Broken Discovery_empty (OtherError "validate failed")
                eq_refl) as (d1 & E & _ & L).
    exists d1. split; [exact E | exact L].
  - destruct (Hc (root_candidates Examples2.root1) Discovery_empty) as (d & E & Hp).
    exists d. split; [exact E|]. rewrite Hp. vm_compute. reflexivity.
Defined.

(* ------------------------------------------------------------------ *)
(** * Dispatch: the per-call blocklist *)

Section PlanFacts.
Variable W : World.

(** A call queues every standalone parser and every matched parser that
    its blocklist lets through. *)
Lemma plan_queues sample bl br q cx cx1 :
  compile_blocklist W bl = Ret br ->
  plan W sample bl cx = (Ret q, cx1) ->
  (forall fw s member,
      Dict.get fw (standalone_parsers cx) = Some s -> In member s ->
      is_blocked W br (__name__ member) = false ->
      queued (Some fw) member q)
  /\ (forall matches ym k member,
        yara_match W (yara cx) sample = Ret matches -> In ym matches ->
        Dict.get "parser_module" (meta ym) = Some k ->
        Dict.get k (parsers cx) = Some member ->
        is_blocked W br (__name__ member) = false ->
        queued (Dict.get "parser_framework" (meta ym)) member q).
Proof.
  intros Hc. unfold plan, bind, lift, gets. rewrite Hc.
  destruct (yara_match W (yara cx) sample) as [matches|e]; [|discriminate].
  destruct (collect_matches W br matches [] [] cx) as [[[q1 names]|e] cx0] eqn:E1;
    [|discriminate].
  simpl. intros E2.
  destruct (frames_collect_matches W br matches [] [] cx) as [(_ & S1 & _) _].
  rewrite E1 in S1. simpl in S1.
  destruct (collect_standalone_spec W br (standalone_parsers cx0) q1 cx0)
    as (q' & cx2 & E & _ & Q2 & P2).
  rewrite E in E2. injection E2 as <- <-.
  destruct (collect_matches_queues W _ _ _ _ _ _ _ _ E1) as [_ M1].
  split.
  - intros fw s member G I B. eapply P2; [|exact I|exact B].
    rewrite S1. now apply DictFacts.get_In.
  - intros ms ym k member [= <-] I G1 G2 B. apply Q2. eapply M1; eassumption.
Qed.

End PlanFacts.

Example run_blocked_ex :
  fst (run_parsers Examples.plain_world "sample" ["go"] Examples4.cx_standalone) = Ret [].
Proof. reflexivity. Qed.

Example run_unblocked_ex :
  option_map Dict.keys
    (match fst (run_parsers Examples.plain_world "sample" [] Examples4.cx_standalone) with
     | Ret results => Dict.get "CAPE" results
     | Raise _ => None
     end) = Some ["good"].
Proof. reflexivity. Qed.

(** C8. A [run_parsers] call, whatever its blocklist, leaves the registry,
    the standalone sets and the compiled ruleset as they were.  A parser
    whose name matches the call's blocklist is in no batch of that call.
    Every later call returns what it would have returned had the blocked
    call not taken place; and a later call without a blocklist queues
    every standalone parser and every parser that a match resolves to. *)
Theorem per_call_blocklist_is_transient
    (W : World) (cx : Extractor) (sample : string) (parser_blocklist : list string) :
  let cx' := snd (run_parsers W sample parser_blocklist cx) in
  (parsers cx' = parsers cx
   /\ standalone_parsers cx' = standalone_parsers cx
   /\ yara cx' = yara cx)
  /\ (forall br q cx1 member,
        compile_blocklist W parser_blocklist = Ret br ->
        plan W sample parser_blocklist cx = (Ret q, cx1) ->
        is_blocked W br (__name__ member) = true ->
        ~ In member (queue_members q))
  /\ (forall sample2 bl2,
        fst (run_parsers W sample2 bl2 cx') = fst (run_parsers W sample2 bl2 cx))
  /\ (forall sample2 q cx2,
        plan W sample2 [] cx' = (Ret q, cx2) ->
        (forall fw s member,
            Dict.get fw (standalone_parsers cx) = Some s -> In member s ->
            queued (Some fw) member q)
        /\ (forall matches ym k member,
              yara_match W (yara cx) sample2 = Ret matches -> In ym matches ->
              Dict.get "parser_module" (meta ym) = Some k ->
              Dict.get k (parsers cx) = Some member ->
              queued (Dict.get "parser_framework" (meta ym)) member q)).
Proof.
  intros cx'.
  destruct (frames_run_parsers W sample parser_blocklist cx) as [X _].
  fold cx' in X. pose proof (extends_same_core _ _ X) as (P & S & Y).
  split; [now repeat split|]. split; [|split].
  - intros br q cx1 member Hc Hplan Hb I.
    destruct (plan_members W sample parser_blocklist q cx cx1 Hplan) as (br' & Hc' & Hm).
    rewrite Hc in Hc'. injection Hc' as <-.
    destruct (Hm member I) as [_ B]. congruence.
  - intros sample2 bl2.
    destruct (frames_run_parsers W sample2 bl2 cx) as [_ I]. apply I.
    now repeat split.
  - intros sample2 q cx2 Hplan.
    destruct (plan_queues W sample2 [] None q cx' cx2 eq_refl Hplan) as [Hs Hm].
    rewrite S in Hs. rewrite P, Y in Hm. split.
    + intros fw s member G I. eapply Hs; [exact G|exact I|reflexivity].
    + intros ms ym k member Hy I G1 G2. eapply Hm; try eassumption. reflexivity.
Qed.

(** C8 at an extractor with one standalone parser, blocked in a first call
    by the pattern [go]: the second call, without blocklist, returns its
    record. *)
Lemma per_call_blocklist_is_transient_witness :
  let cx' := snd (run_parsers Examples.plain_world "sample" ["go"]
                    Examples4.cx_standalone) in
  fst (run_parsers Examples.plain_world "sample" ["go"] Examples4.cx_standalone) = Ret []
  /\ parsers cx' = parsers Examples4.cx_standalone
  /\ fst (run_parsers Examples.plain_world "sample" [] cx')
     = fst (run_parsers Examples.plain_world "sample" [] Examples4.cx_standalone)
  /\ exists records,
       fst (run_parsers Examples.plain_world "sample" [] cx') = Ret [("CAPE", records)]
       /\ Dict.keys records = ["good"].
Proof.
  intros cx'.
  destruct (per_call_blocklist_is_transient Examples.plain_world Examples4.cx_standalone
              "sample" ["go"]) as ((P & _) & _ & Hsame & _).
  split; [reflexivity|]. split; [exact P|]. split; [apply Hsame|].
  eexists. split; [reflexivity | reflexivity].
Defined.

(* ------------------------------------------------------------------ *)
(** * Dispatch: the keys of the result *)

Section ResultKeysFacts.
Variable W : World.

Lemma framework_of_name_name name fw : framework_of_name name = Some fw -> fw_name fw = name.
Proof.
  unfold framework_of_name. intros H. apply find_some in H. destruct H as [_ H].
  now apply String.eqb_eq.
Qed.

Lemma finalize_nil (r : Records) : finalize r = [] -> r = [].
Proof. destruct r; [reflexivity | discriminate]. Qed.

Lemma CAPE_run_one_stores sample_path parser results r1 cx cx1 :
  CAPE_run_one W sample_path parser results cx = (Ret r1, cx1) ->
  r1 = results \/ CAPE_parser_output W sample_path parser.
Proof.
  unfold CAPE_run_one, CAPE_try, try_except, bind, lift, ret, invoke, getattr,
    log_error, modify, CAPE_parser_output.
  destruct (extract_config parser) as [f|]; simpl; [|intros [= <- _]; now left].
  destruct (read_file W sample_path) as [data|]; simpl; [|intros [= <- _]; now left].
  destruct (f data) as [v|] eqn:Ef; simpl; [|intros [= <- _]; now left].
  destruct (truthy v) eqn:Et; simpl; [|intros [= <- _]; now left].
  intros _. right. exists f, data, v. auto.
Qed.

Lemma CAPE_run_loop_nonempty sample_path items results r' cx cx' :
  CAPE_run_loop W sample_path items results cx = (Ret r', cx') ->
  r' <> [] ->
  results <> []
  \/ exists parser, In parser (batch_parsers items)
                    /\ CAPE_parser_output W sample_path parser.
Proof.
  revert results cx. induction items as [|[k [parser ms]] rest IH]; intros results cx; simpl.
  - intros [= <- <-] N. now left.
  - unfold bind.
    destruct (CAPE_run_one W sample_path parser results cx) as [[r1|e] cx1] eqn:E1;
      [|discriminate].
    intros H N. destruct (IH _ _ H N) as [N1|(p & I & O)].
    + destruct (CAPE_run_one_stores _ _ _ _ _ _ E1) as [->|O]; [now left|].
      right. exists parser. split; [now left | exact O].
    + right. exists p. split; [now right | exact O].
Qed.

Lemma run_frameworks_keys sample items results results' cx cx' :
  run_frameworks W sample items results cx = (Ret results', cx') ->
  forall name recs, In (name, recs) results' ->
    In (name, recs) results \/ produced W sample items name recs.
Proof.
  revert results cx. induction items as [|[f batch] rest IH]; intros results cx; simpl.
  - intros [= <- <-]. auto.
  - assert (Hrest : forall name recs, produced W sample rest name recs ->
                                      produced W sample ((f, batch) :: rest) name recs).
    { intros name recs (fw & b & c2 & c3 & r0 & H1 & H2 & H3).
      exists fw, b, c2, c3, r0. split; [exact H1|]. split; [now right | exact H3]. }
    destruct batch as [|b0 batch].
    { intros H name recs I. destruct (IH _ _ H name recs I); auto. }
    unfold bind, lift, lookup_framework.
    destruct f as [n|]; [|discriminate].
    destruct (framework_of_name n) as [fw|] eqn:Efw; [|discriminate].
    destruct (framework_run W fw sample (b0 :: batch) cx) as [[r|e] cx1] eqn:Er;
      [|discriminate].
    destruct (finalize r) as [|e0 fr] eqn:Efin.
    { intros H name recs I. destruct (IH _ _ H name recs I); auto. }
    intros H name recs I. destruct (IH _ _ H name recs I) as [I'|P]; [|auto].
    apply DictFacts.In_set in I'. destruct I' as [[-> ->]|I']; [|auto].
    right. rewrite (framework_of_name_name _ _ Efw).
    exists fw, (b0 :: batch), cx, cx1, r. split; [exact Efw|].
    split; [now left|]. split; [discriminate|]. split; [exact Er|].
    split; [|now rewrite Efin].
    intros ->. discriminate.
Qed.

End ResultKeysFacts.

(** C3. A framework name is a key of the result of [run_parsers] only if
    the call queued a non-empty batch under that name and the framework's
    run on that batch returned at least one record; the value under the
    key is that non-empty mapping, normalised.  For CAPE, whose run is part
    of these sources, some parser of the batch returned a truthy value on
    the sample. *)
Theorem result_keys_have_output
    (W : World) (sample : string) (parser_blocklist : list string)
    (cx cx' : Extractor) (results : Result) (name : string) (recs : Records) :
  run_parsers W sample parser_blocklist cx = (Ret results, cx') ->
  Dict.get name results = Some recs ->
  recs <> []
  /\ exists fw q cx1 batch,
       framework_of_name name = Some fw
       /\ plan W sample parser_blocklist cx = (Ret q, cx1)
       /\ In (Some name, batch) q
       /\ batch <> []
       /\ (exists cx2 cx3 recs0,
             framework_run W fw sample batch cx2 = (Ret recs0, cx3)
             /\ recs0 <> []
             /\ recs = finalize recs0)
       /\ (fw = CAPE ->
           exists parser, In parser (batch_parsers batch)
                          /\ CAPE_parser_output W sample parser).
Proof.
  unfold run_parsers, bind.
  destruct (plan W sample parser_blocklist cx) as [[q|e] cx1] eqn:Ep; [|discriminate].
  intros Hrun G. apply DictFacts.get_In in G.
  destruct (run_frameworks_keys W sample q [] results cx1 cx' Hrun name recs G)
    as [[]|(fw & batch & cx2 & cx3 & recs0 & Hfw & Hin & Hb & Hr & Hn & ->)].
  split.
  { intros Hf. apply Hn. now apply finalize_nil. }
  exists fw, q, cx1, batch. split; [exact Hfw|]. split; [reflexivity|].
  split; [exact Hin|]. split; [exact Hb|]. split.
  { exists cx2, cx3, recs0. auto. }
  intros ->. simpl in Hr. unfold CAPE_run in Hr.
  destruct (CAPE_run_loop_nonempty W sample batch [] recs0 cx2 cx3 Hr Hn) as [N|H];
    [now elim N | exact H].
Qed.

(** C3 at an extractor with one standalone CAPE parser. *)
Lemma result_keys_have_output_witness :
  exists recs parser,
    Dict.get "CAPE"
      (match fst (run_parsers Examples.plain_world "sample" [] Examples4.cx_standalone) with
       | Ret results => results
       | Raise _ => []
       end) = Some recs
    /\ recs <> []
    /\ CAPE_parser_output Examples.plain_world "sample" parser.
Proof.
  destruct (run_parsers Examples.plain_world "sample" [] Examples4.cx_standalone)
    as [o cx'] eqn:E.
  vm_compute in E. injection E as <- <-.
  eexists.
  destruct (result_keys_have_output Examples.plain_world "sample" []
              Examples4.cx_standalone _ _ "CAPE" _ eq_refl eq_refl)
    as (N & fw & q & cx1 & batch & Hfw & _ & _ & _ & _ & Hc).
  injection Hfw as <-.
  destruct (Hc eq_refl) as (parser & _ & O).
  exists parser. split; [reflexivity|]. split; [exact N | exact O].
Defined.

(* ------------------------------------------------------------------ *)
(** * Dispatch: matches that do not resolve *)

Section UnresolvedFacts.
Variable W : World.



End UnresolvedFacts.



(* ------------------------------------------------------------------ *)
(** * What a blocklist is tested against *)

Section BlocklistNameFacts.
Variable W : World.



End BlocklistNameFacts.



(* ------------------------------------------------------------------ *)
(** * The model on the examples of the specification *)

Example run_marker_ex :
  fst (run_parsers Examples6.marker_world "marked.bin" [] Examples6.marker_extractor)
  = Ret [("MACO",
          [("Marker",
            mkRecord (PStr "someone") (PStr "")
              (Some (mkConfig
                       (Some [[("uri", "http://1.2.3.4/c2"); ("protocol", "http")]])
                       [("family", PStr "X")])))])].
Proof. vm_compute. reflexivity. Qed.

Example run_no_marker_ex :
  fst (run_parsers Examples6.marker_world "clean.bin" [] Examples6.marker_extractor)
  = Ret [].
Proof. vm_compute. reflexivity. Qed.

Example discover_staged_ex :
  let d := snd (discover Examples6.staged_world [Examples6.staged_root] []) in
  yara_rules d = ["rule MacoA /srv/parsers/fam/foo.py"]
  /\ Dict.keys (d_parsers d) = ["stage.fam.foo"].
Proof. vm_compute. split; reflexivity. Qed.

(* ------------------------------------------------------------------ *)
(** * Further properties of [finalize] *)

Lemma finalize_conn_keys (c : NetworkConn) :
  Dict.keys (finalize_conn c)
  = if Dict.mem "protocol" c then Dict.keys c else Dict.keys c ++ ["protocol"].
Proof.
  assert (H1 : Dict.keys (Dict.setdefault "protocol" "http" c)
               = if Dict.mem "protocol" c then Dict.keys c else Dict.keys c ++ ["protocol"]).
  { unfold Dict.setdefault, Dict.mem.
    destruct (Dict.get "protocol" c) eqn:E; [reflexivity|].
    apply DictFacts.keys_set_fresh. unfold Dict.mem. now rewrite E. }
  rewrite <- H1. unfold finalize_conn.
  set (c1 := Dict.setdefault "protocol" "http" c).
  destruct (Dict.get "uri" c1) as [u|] eqn:Eu; [|reflexivity].
  destruct (Dict.get "protocol" c1) as [p|]; [|reflexivity].
  destruct (negb (String.eqb u "") && negb (Str.startswith u p)); [|reflexivity].
  apply DictFacts.keys_set_mem. unfold Dict.mem. now rewrite Eu.
Qed.

Lemma finalize_conn_normal (c : NetworkConn) :
  exists p,
    Dict.get "protocol" (finalize_conn c) = Some p
    /\ forall u, Dict.get "uri" (finalize_conn c) = Some u ->
                 u = "" \/ Str.startswith u p = true.
Proof.
  rewrite (finalize_conn_unfold c).
  set (c1 := Dict.setdefault "protocol" "http" c).
  assert (Hp : exists p, Dict.get "protocol" c1 = Some p).
  { eexists. apply protocol_after_default. }
  destruct Hp as [p Hp]. exists p.
  rewrite (finalize_conn_with_protocol c1 p Hp).
  destruct (Dict.get "uri" c1) as [u|] eqn:Eu.
  - destruct (negb (String.eqb u "") && negb (Str.startswith u p)) eqn:Ec.
    + split.
      * rewrite DictFacts.get_set_other; [exact Hp | discriminate].
      * intros u'. rewrite DictFacts.get_set_same. intros [= <-].
        right. apply StrFacts.startswith_app.
    + split; [exact Hp|]. intros u'. rewrite Eu. intros [= <-].
      apply andb_false_iff in Ec. destruct Ec as [Ec|Ec].
      * left. apply negb_false_iff in Ec. now apply String.eqb_eq.
      * right. now apply negb_false_iff in Ec.
  - split; [exact Hp|]. intros u'. rewrite Eu. discriminate.
Qed.

(** X1. [finalize] touches nothing but the ['protocol'] and ['uri'] of the
    connection entries: the parser names and their order, the author, the
    description and every other field of the configuration are kept, a
    record without ['config'] and a configuration without ['http'] stay as
    they are, and an ['http'] list keeps its length, each entry its keys,
    with ['protocol'] added at the end where it was missing. *)
Theorem finalize_keeps_the_rest
    (results : Records) (name : string) (r : ResultRecord) :
  Dict.get name results = Some r ->
  Dict.keys (finalize results) = Dict.keys results
  /\ exists r',
       Dict.get name (finalize results) = Some r'
       /\ author r' = author r
       /\ description r' = description r
       /\ match config r, config r' with
          | None, None => True
          | Some c, Some c' =>
              fields c' = fields c
              /\ match http c, http c' with
                 | None, None => True
                 | Some l, Some l' =>
                     List.length l' = List.length l
                     /\ forall i conn, nth_error l i = Some conn ->
                          exists conn',
                            nth_error l' i = Some conn'
                            /\ Dict.keys conn'
                               = if Dict.mem "protocol" conn then Dict.keys conn
                                 else Dict.keys conn ++ ["protocol"]
                 | _, _ => False
                 end
          | _, _ => False
          end.
Proof.
  intros Hr. split; [apply DictFacts.keys_map_values|].
  exists (finalize_record r).
  split. { unfold finalize. rewrite DictFacts.get_map_values, Hr. reflexivity. }
  split; [reflexivity|]. split; [reflexivity|].
  destruct r as [a dsc [[h f]|]]; simpl; [|exact I].
  split; [reflexivity|].
  destruct h as [l|]; simpl; [|exact I].
  split; [apply length_map|].
  intros i conn Hn. exists (finalize_conn conn). split.
  - rewrite nth_error_map, Hn. reflexivity.
  - apply finalize_conn_keys.
Qed.

(** [finalize] on a record with a description, a family and two
    connections, one of them with its own protocol. *)
Lemma finalize_keeps_the_rest_witness :
  let results : Records :=
    [("P", mkRecord (PStr "a") (PStr "d")
             (Some (mkConfig (Some [[("uri", "h/x")]; [("protocol", "ftp"); ("port", "21")]])
                             [("family", PStr "X")])))] in
  Dict.keys (finalize results) = ["P"]
  /\ exists r', Dict.get "P" (finalize results) = Some r' /\ author r' = PStr "a".
Proof.
  intros results.
  destruct (finalize_keeps_the_rest results "P" _ eq_refl) as (K & r' & G & A & _).
  split; [exact K|]. exists r'. split; [exact G | exact A].
Defined.

(** X2. After [finalize] every connection entry has a protocol, and its
    uri, when it has one that is not empty, starts with that protocol. *)
Theorem finalize_normal_form
    (results : Records) (name : string) (r : ResultRecord) (c : Config)
    (conns : list NetworkConn) (conn : NetworkConn) :
  Dict.get name (finalize results) = Some r ->
  config r = Some c ->
  http c = Some conns ->
  In conn conns ->
  exists protocol,
    Dict.get "protocol" conn = Some protocol
    /\ forall uri, Dict.get "uri" conn = Some uri ->
                   uri = "" \/ Str.startswith uri protocol = true.
Proof.
  unfold finalize. rewrite DictFacts.get_map_values.
  destruct (Dict.get name results) as [[a dsc [[h f]|]]|]; simpl; try discriminate.
  - intros [= <-]. simpl. intros [= <-]. simpl.
    destruct h as [l|]; simpl; [|discriminate].
    intros [= <-] Hin. apply in_map_iff in Hin. destruct Hin as (c0 & <- & _).
    apply finalize_conn_normal.
  - intros [= <-]. discriminate.
Qed.

Lemma finalize_normal_form_witness :
  exists protocol,
    Dict.get "protocol" [("uri", "http://1.2.3.4/c2"); ("protocol", "http")] = Some protocol
    /\ forall uri,
         Dict.get "uri" [("uri", "http://1.2.3.4/c2"); ("protocol", "http")] = Some uri ->
         uri = "" \/ Str.startswith uri protocol = true.
Proof.
  apply (finalize_normal_form
           [("Parser", mkRecord (PStr "a") (PStr "d")
                         (Some (mkConfig (Some [[("uri", "1.2.3.4/c2")]]) [])))]
           "Parser" _ _ _ _ eq_refl eq_refl eq_refl).
  left. reflexivity.
Defined.

(* ------------------------------------------------------------------ *)
(** * Further properties of [CAPE.run] *)

Section CapeRecords.
Variable W : World.

Lemma CAPE_run_one_record sample_path parser results r1 cx cx1 :
  CAPE_run_one W sample_path parser results cx = (Ret r1, cx1) ->
  (r1 = results /\ forall rec, ~ CAPE_record W sample_path parser rec)
  \/ exists rec,
       CAPE_record W sample_path parser rec
       /\ r1 = Dict.set (get_name W CAPE parser) rec results.
Proof.
  unfold CAPE_run_one, CAPE_try, try_except, bind, lift, ret, invoke, getattr,
    log_error, modify, CAPE_record.
  destruct (extract_config parser) as [f|] eqn:Ef; simpl.
  2:{ intros [= <- _]. left. split; [reflexivity|].
      intros rec (f' & ? & ? & ? & ? & ? & H & _). discriminate. }
  destruct (read_file W sample_path) as [data|] eqn:Ed; simpl.
  2:{ intros [= <- _]. left. split; [reflexivity|].
      intros rec (f' & ? & ? & ? & ? & ? & _ & H & _). discriminate. }
  destruct (f data) as [v|] eqn:Ev; simpl.
  2:{ intros [= <- _]. left. split; [reflexivity|].
      intros rec (f' & d' & ? & ? & ? & ? & H1 & H2 & H3 & _).
      injection H1 as <-. injection H2 as <-. congruence. }
  destruct (truthy v) eqn:Et; simpl.
  2:{ intros [= <- _]. left. split; [reflexivity|].
      intros rec (f' & d' & v' & ? & ? & ? & H1 & H2 & H3 & H4 & _).
      injection H1 as <-. injection H2 as <-. rewrite Ev in H3. injection H3 as <-.
      congruence. }
  destruct (AUTHOR parser) as [a|] eqn:Ea; simpl.
  2:{ intros [= <- _]. left. split; [reflexivity|].
      intros rec (? & ? & ? & ? & ? & ? & _ & _ & _ & _ & H & _). discriminate. }
  destruct (DESCRIPTION parser) as [dsc|] eqn:Eds; simpl.
  2:{ intros [= <- _]. left. split; [reflexivity|].
      intros rec (? & ? & ? & ? & ? & ? & _ & _ & _ & _ & _ & H & _). discriminate. }
  destruct (ExtractorModel_dict W v (get_name W CAPE parser)) as [cfg|] eqn:Ec; simpl.
  2:{ intros [= <- _]. left. split; [reflexivity|].
      intros rec (f' & d' & v' & ? & ? & ? & H1 & H2 & H3 & _ & _ & _ & H7 & _).
      injection H1 as <-. injection H2 as <-. rewrite Ev in H3. injection H3 as <-.
      congruence. }
  intros [= <- _]. right. eexists. split; [|reflexivity].
  exists f, data, v, a, dsc, cfg. repeat split; assumption.
Qed.

Lemma CAPE_record_unique sample_path parser rec1 rec2 :
  CAPE_record W sample_path parser rec1 ->
  CAPE_record W sample_path parser rec2 -> rec1 = rec2.
Proof.
  intros (f & d & v & a & ds & c & H1 & H2 & H3 & _ & H5 & H6 & H7 & ->)
         (f' & d' & v' & a' & ds' & c' & G1 & G2 & G3 & _ & G5 & G6 & G7 & ->).
  rewrite H1 in G1. injection G1 as <-. rewrite H2 in G2. injection G2 as <-.
  rewrite H3 in G3. injection G3 as <-. rewrite H5 in G5. injection G5 as <-.
  rewrite H6 in G6. injection G6 as <-. rewrite H7 in G7. injection G7 as <-.
  reflexivity.
Qed.

Lemma CAPE_run_loop_records sample_path items results r' cx cx' :
  CAPE_run_loop W sample_path items results cx = (Ret r', cx') ->
  (NoDup (Dict.keys results) -> NoDup (Dict.keys r'))
  /\ (forall name rec, In (name, rec) r' ->
        In (name, rec) results
        \/ exists parser, In parser (batch_parsers items)
                          /\ get_name W CAPE parser = name
                          /\ CAPE_record W sample_path parser rec)
  /\ (forall name, In name (Dict.keys results) -> In name (Dict.keys r'))
  /\ (forall parser rec, In parser (batch_parsers items) ->
        CAPE_record W sample_path parser rec ->
        In (get_name W CAPE parser) (Dict.keys r')).
Proof.
  revert results cx. induction items as [|[k [parser ms]] rest IH]; intros results cx; simpl.
  - intros [= <- <-]. repeat split; auto. intros ? ? [].
  - unfold bind.
    destruct (CAPE_run_one W sample_path parser results cx) as [[r1|e] cx1] eqn:E1;
      [|discriminate].
    intros H. destruct (IH _ _ H) as (ND & Hin & Hk & Hc).
    pose proof (CAPE_run_one_record _ _ _ _ _ _ E1) as [[-> Hno]|(rec0 & Hrec & ->)].
    + split; [exact ND|]. split; [|split; [exact Hk|]].
      * intros name rec I. destruct (Hin name rec I) as [I'|(p & Ip & Hp)]; [auto|].
        right. exists p. split; [now right | exact Hp].
      * intros p rec [<-|Ip] Hr; [now elim (Hno rec) | eauto].
    + split; [|split; [|split]].
      * intros ND0. apply ND. now apply DictFacts.NoDup_keys_set.
      * intros name rec I. destruct (Hin name rec I) as [I'|(p & Ip & Hp)].
        -- apply DictFacts.In_set in I'. destruct I' as [[-> ->]|I']; [|auto].
           right. exists parser. split; [now left|]. split; [reflexivity | exact Hrec].
        -- right. exists p. split; [now right | exact Hp].
      * intros name I. apply Hk. apply DictFacts.mem_In_keys.
        apply DictFacts.mem_set_other. now apply DictFacts.mem_In_keys.
      * intros p rec [<-|Ip] Hr; [|eauto].
        apply Hk. apply DictFacts.mem_In_keys. apply DictFacts.mem_set_same.
Qed.

Lemma CAPE_run_one_unreadable sample_path parser results cx e :
  read_file W sample_path = Raise e ->
  CAPE_run_one W sample_path parser results cx
  = (Ret results,
     mkExtractor (parsers cx) (standalone_parsers cx) (yara cx)
       (log cx ++ [LogError (get_name W CAPE parser) (unreadable_error e parser)])
       (invoked cx)).
Proof.
  intros Hr.
  unfold CAPE_run_one, CAPE_try, try_except, bind, lift, ret, invoke, getattr,
    log_error, modify, unreadable_error.
  destruct (extract_config parser); simpl; [rewrite Hr|]; reflexivity.
Qed.

End CapeRecords.

(** X3. The mapping that [CAPE.run] returns has one record per parser
    name: every record is the one built for a parser of the batch of that
    name (its truthy output wrapped by the model class, its [AUTHOR], its
    [DESCRIPTION] or the empty string), and every parser of the batch for
    which a record is built has its name among the keys. *)
Theorem CAPE_run_records
    (W : World) (sample_path : string) (batch : Batch) (cx cx' : Extractor)
    (results : Records) :
  CAPE_run W sample_path batch cx = (Ret results, cx') ->
  NoDup (Dict.keys results)
  /\ (forall name rec, Dict.get name results = Some rec ->
        exists parser, In parser (batch_parsers batch)
                       /\ get_name W CAPE parser = name
                       /\ CAPE_record W sample_path parser rec)
  /\ (forall parser rec, In parser (batch_parsers batch) ->
        CAPE_record W sample_path parser rec ->
        In (get_name W CAPE parser) (Dict.keys results)).
Proof.
  intros H. unfold CAPE_run in H.
  destruct (CAPE_run_loop_records W _ _ _ _ _ _ H) as (ND & Hin & _ & Hc).
  split; [apply ND; constructor|]. split; [|exact Hc].
  intros name rec G. apply DictFacts.get_In in G.
  destruct (Hin name rec G) as [[]|Hp]. exact Hp.
Qed.

(** [CAPE.run] on a batch of a parser that raises and one that returns a
    configuration. *)
Lemma CAPE_run_records_witness :
  let run := CAPE_run Examples.plain_world "sample"
               [(2, (Examples.bad_parser, [])); (1, (Examples.good_parser, []))]
               Examples.empty_extractor in
  Dict.keys (match fst run with Ret results => results | Raise _ => [] end) = ["good"]
  /\ NoDup ["good"].
Proof.
  intros run.
  destruct run as [o cx'] eqn:E. unfold run in E.
  destruct o as [results|e]; [|vm_compute in E; discriminate E].
  destruct (CAPE_run_records Examples.plain_world "sample" _ _ _ _ E) as (ND & _).
  vm_compute in E. injection E as <- _. split; [reflexivity | exact ND].
Defined.

(** X4. When the sample cannot be read, [CAPE.run] does not fail: the
    read is inside each parser's [try], so the run returns an empty
    mapping, calls no entry point and logs one error per parser of the
    batch, under its name. *)
Theorem CAPE_run_unreadable_sample
    (W : World) (sample_path : string) (batch : Batch) (cx : Extractor) (e : exn) :
  read_file W sample_path = Raise e ->
  exists cx',
    CAPE_run W sample_path batch cx = (Ret [], cx')
    /\ invoked cx' = invoked cx
    /\ parsers cx' = parsers cx
    /\ standalone_parsers cx' = standalone_parsers cx
    /\ yara cx' = yara cx
    /\ log cx' = log cx ++ map (fun parser => LogError (get_name W CAPE parser)
                                                (unreadable_error e parser))
                               (batch_parsers batch).
Proof.
  intros Hr.
  revert cx. induction batch as [|[k [parser ms]] rest IH]; intros cx.
  - exists cx. simpl. rewrite app_nil_r. unfold CAPE_run. simpl. unfold ret.
    repeat split; reflexivity.
  - unfold CAPE_run in *. simpl. unfold bind.
    rewrite (CAPE_run_one_unreadable W sample_path parser [] cx e Hr).
    destruct (IH (mkExtractor (parsers cx) (standalone_parsers cx) (yara cx)
                    (log cx ++ [LogError (get_name W CAPE parser)
                                         (unreadable_error e parser)])
                    (invoked cx)))
      as (cx' & E & Hi & Hp & Hs & Hy & Hl).
    exists cx'. simpl in *. rewrite <- app_assoc in Hl. simpl in Hl.
    repeat split; assumption.
Qed.

(** An unreadable sample and a batch of two parsers. *)
Lemma CAPE_run_unreadable_sample_witness :
  exists cx',
    CAPE_run Examples7.unreadable_world "gone"
      [(1, (Examples.good_parser, [])); (2, (Examples.bad_parser, []))]
      Examples.empty_extractor = (Ret [], cx')
    /\ invoked cx' = [].
Proof.
  destruct (CAPE_run_unreadable_sample Examples7.unreadable_world "gone"
              [(1, (Examples.good_parser, [])); (2, (Examples.bad_parser, []))]
              Examples.empty_extractor (IOError "gone"))
    as (cx' & E & Hi & _).
  - reflexivity.
  - exists cx'. split; [exact E | exact Hi].
Defined.

(* ------------------------------------------------------------------ *)
(** * Further properties of discovery *)

Section ClaimOrderFacts.
Variable W : World.
Variable br : option string.

Lemma claim_not_validating fw member d :
  validates W fw member = false ->
  exists d',
    claim W br fw member d = (Ret Continue, d')
    /\ same_registry d d'
    /\ d_log d' = d_log d ++ validation_log W member [fw].
Proof.
  unfold validates, validation_log. simpl.
  destruct (validate W fw member) as [[|]|e] eqn:Hv; [discriminate| |]; intros _.
  - exists d. unfold claim, try_except, bind, lift, ret. rewrite Hv. simpl.
    rewrite app_nil_r. split; [reflexivity|]. split; [apply same_registry_refl | reflexivity].
  - destruct (claim_validate_raises W br fw member d e Hv) as (d' & E & S & L).
    exists d'. split; [exact E|]. split; [exact S|]. rewrite L.
    destruct (is_TypeError e); simpl; now rewrite ?app_nil_r.
Qed.

Lemma validation_log_app member l1 l2 :
  validation_log W member (l1 ++ l2)
  = validation_log W member l1 ++ validation_log W member l2.
Proof. unfold validation_log. apply flat_map_app. Qed.

Lemma try_frameworks_not_validating pre member rest d :
  (forall fw, In fw pre -> validates W fw member = false) ->
  exists d1,
    same_registry d d1
    /\ d_log d1 = d_log d ++ validation_log W member pre
    /\ try_frameworks W br (pre ++ rest) member d = try_frameworks W br rest member d1.
Proof.
  revert d. induction pre as [|fw pre IH]; intros d Hn.
  - exists d. simpl. rewrite app_nil_r.
    split; [apply same_registry_refl|]. split; reflexivity.
  - destruct (claim_not_validating fw member d (Hn fw (or_introl eq_refl)))
      as (d0 & E & S & L).
    destruct (IH d0 (fun fw' H => Hn fw' (or_intror H))) as (d1 & S1 & L1 & E1).
    exists d1. split; [eapply same_registry_trans; eassumption|]. split.
    + rewrite L1, L. change (fw :: pre) with ([fw] ++ pre).
      rewrite validation_log_app. now rewrite app_assoc.
    + simpl. unfold bind. rewrite E. exact E1.
Qed.

Lemma claim_accepts fw member key rules names d :
  validate W fw member = Ret true ->
  is_blocked W br (__name__ member) = false ->
  __module__ member = Some key ->
  extract_yara_from_module W fw member (yara_rule_names d) = (Ret rules, names) ->
  exists d',
    claim W br fw member d = (Ret Break, d')
    /\ d_parsers d' = Dict.set key member (d_parsers d)
    /\ yara_rules d' = yara_rules d ++ rules
    /\ yara_rule_names d' = names
    /\ d_standalone d'
       = match rules with
         | [] => Dict.set (fw_name fw)
                   (set_add member (match Dict.get (fw_name fw) (d_standalone d) with
                                    | Some s => s
                                    | None => []
                                    end))
                   (d_standalone d)
         | _ => d_standalone d
         end
    /\ d_log d' = d_log d.
Proof.
  intros Hv Hb Hm He.
  unfold claim, try_except, bind, lift, ret, register, extract_rules, add_standalone,
    extend_rules, modify, getattr.
  rewrite Hv. simpl. rewrite Hb, Hm. simpl. rewrite He. simpl.
  destruct rules as [|r rules]; simpl; eexists; (split; [reflexivity|]); simpl;
    rewrite ?app_nil_r; repeat split; reflexivity.
Qed.

Lemma claim_without_module fw member d :
  __module__ member = None ->
  exists d',
    claim W br fw member d = (Ret Continue, d')
    /\ same_registry d d'
    /\ d_log d' = d_log d ++ attempt_log W br member [fw].
Proof.
  intros Hm. unfold attempt_log. simpl. rewrite app_nil_r.
  unfold claim, try_except, bind, lift, ret, register, d_log_error, modify, getattr.
  destruct (validate W fw member) as [[|]|e]; simpl.
  - destruct (is_blocked W br (__name__ member)); simpl.
    + exists d. rewrite app_nil_r. split; [reflexivity|].
      split; [apply same_registry_refl | reflexivity].
    + rewrite Hm. simpl. eexists. split; [reflexivity|].
      split; [now repeat split | reflexivity].
  - exists d. rewrite app_nil_r. split; [reflexivity|].
    split; [apply same_registry_refl | reflexivity].
  - destruct (is_TypeError e); simpl.
    + exists d. rewrite app_nil_r. split; [reflexivity|].
      split; [apply same_registry_refl | reflexivity].
    + eexists. split; [reflexivity|]. split; [now repeat split | reflexivity].
Qed.

Lemma claim_extraction_fails fw member key d :
  validates W fw member = true ->
  is_blocked W br (__name__ member) = false ->
  __module__ member = Some key ->
  (forall names, exists e names',
      extract_yara_from_module W fw member names = (Raise e, names')) ->
  exists d',
    claim W br fw member d = (Ret Continue, d')
    /\ d_standalone d' = d_standalone d
    /\ yara_rules d' = yara_rules d.
Proof.
  unfold validates. intros Hv Hb Hm Hx.
  destruct (validate W fw member) as [[|]|] eqn:Ev; try discriminate.
  destruct (Hx (yara_rule_names d)) as (e & names & He).
  destruct (claim_extract_raises W br fw member d key e names Ev Hb Hm He)
    as (d' & E & S & R & _).
  exists d'. auto.
Qed.

End ClaimOrderFacts.

(** X5. The adapters are asked in the order of [PARSER_FRAMEWORKS] and the
    first one that accepts a candidate gets it: the candidate is registered
    under its [__module__], its rules are the ones that this adapter
    extracts (without rules it joins the adapter's standalone set), and the
    adapters that come later are not asked.  The adapters before it leave
    nothing but the errors of their [validate] in the log. *)
Theorem first_accepting_adapter_registers
    (W : World) (br : option string) (pre post : list framework) (fw : framework)
    (member : Member) (key : string) (rules names : list string) (d : Discovery) :
  (forall fw', In fw' pre -> validates W fw' member = false) ->
  validate W fw member = Ret true ->
  is_blocked W br (__name__ member) = false ->
  __module__ member = Some key ->
  extract_yara_from_module W fw member (yara_rule_names d) = (Ret rules, names) ->
  exists d',
    try_frameworks W br (pre ++ fw :: post) member d = (Ret tt, d')
    /\ d_parsers d' = Dict.set key member (d_parsers d)
    /\ yara_rules d' = yara_rules d ++ rules
    /\ yara_rule_names d' = names
    /\ d_standalone d'
       = match rules with
         | [] => Dict.set (fw_name fw)
                   (set_add member (match Dict.get (fw_name fw) (d_standalone d) with
                                    | Some s => s
                                    | None => []
                                    end))
                   (d_standalone d)
         | _ => d_standalone d
         end
    /\ d_log d' = d_log d ++ validation_log W member pre.
Proof.
  intros Hn Hv Hb Hm He.
  destruct (try_frameworks_not_validating W br pre member (fw :: post) d Hn)
    as (d1 & (Sp & Ss & Sr & Sn) & L1 & E1).
  rewrite <- Sn in He.
  destruct (claim_accepts W br fw member key rules names d1 Hv Hb Hm He)
    as (d' & E & Hp & Hr & Hnm & Hs & Hl).
  exists d'. split.
  - rewrite E1. simpl. unfold bind. rewrite E. reflexivity.
  - rewrite Hp, Hr, Hnm, Hs, Hl, Sp, Ss, Sr, L1. repeat split; reflexivity.
Qed.

(** In the plain world MACO and MWCP decline and CAPE accepts. *)
Lemma first_accepting_adapter_registers_witness :
  exists d',
    try_frameworks Examples.plain_world None PARSER_FRAMEWORKS Examples.good_parser
      Discovery_empty = (Ret tt, d')
    /\ d_parsers d' = [("parsers.good", Examples.good_parser)]
    /\ d_standalone d' = [("CAPE", [Examples.good_parser])].
Proof.
  destruct (first_accepting_adapter_registers Examples.plain_world None [MACO; MWCP] []
              CAPE Examples.good_parser "parsers.good" [] [] Discovery_empty)
    as (d' & E & Hp & _ & _ & Hs & _).
  - intros fw' [<-|[<-|[]]]; reflexivity.
  - reflexivity.
  - reflexivity.
  - reflexivity.
  - reflexivity.
  - exists d'. split; [exact E|]. split; [exact Hp | exact Hs].
Defined.

(** X6. A candidate is registered before its rules are extracted.  When
    the extraction raises under every adapter that accepts the candidate,
    the candidate stays in the registry, although no rule was added for it
    and it is in no standalone set. *)
Theorem registered_before_extraction
    (W : World) (br : option string) (fws : list framework) (member : Member)
    (key : string) (d : Discovery) :
  is_blocked W br (__name__ member) = false ->
  __module__ member = Some key ->
  (exists fw, In fw fws /\ validates W fw member = true) ->
  (forall fw names, In fw fws -> validates W fw member = true ->
     exists e names', extract_yara_from_module W fw member names = (Raise e, names')) ->
  exists d',
    try_frameworks W br fws member d = (Ret tt, d')
    /\ Dict.get key (d_parsers d') = Some member
    /\ d_standalone d' = d_standalone d
    /\ yara_rules d' = yara_rules d.
Proof.
  intros Hb Hm (fw0 & Hin0 & Hv0) Hx.
  assert (Hsr : forall d0, exists d',
             try_frameworks W br fws member d0 = (Ret tt, d')
             /\ d_standalone d' = d_standalone d0
             /\ yara_rules d' = yara_rules d0).
  { clear Hin0. induction fws as [|fw rest IH]; intros d0; simpl.
    - exists d0. auto.
    - assert (Hc : exists d1, claim W br fw member d0 = (Ret Continue, d1)
                              /\ d_standalone d1 = d_standalone d0
                              /\ yara_rules d1 = yara_rules d0).
      { destruct (validates W fw member) eqn:Ev.
        - apply (claim_extraction_fails W br fw member key d0 Ev Hb Hm).
          intros names. apply Hx; [now left | exact Ev].
        - destruct (claim_not_validating W br fw member d0 Ev)
            as (d1 & E & (_ & S & R & _) & _).
          exists d1. auto. }
      destruct Hc as (d1 & E & S & R).
      destruct (IH (fun fw' names H => Hx fw' names (or_intror H)) d1)
        as (d' & E' & S' & R').
      exists d'. unfold bind. rewrite E. split; [exact E'|]. split; congruence. }
  destruct (Hsr d) as (d' & E & S & R).
  exists d'. split; [exact E|]. split; [|auto].
  rewrite (try_frameworks_parsers W br fws member d d' E).
  unfold register_if.
  assert (Hex : existsb (fun fw => validates W fw member) fws = true)
    by (apply existsb_exists; eauto).
  rewrite Hex, Hb, Hm. simpl. apply DictFacts.get_set_same.
Qed.

(** The class [MacoNoRule] of the picky world: MACO accepts it and cannot
    extract its rule. *)
Lemma registered_before_extraction_witness :
  exists d',
    try_frameworks Examples2.picky_world None PARSER_FRAMEWORKS
      (Examples2.class_ 21 "MacoNoRule" "parsers.fam.bar") Discovery_empty = (Ret tt, d')
    /\ Dict.get "parsers.fam.bar" (d_parsers d')
       = Some (Examples2.class_ 21 "MacoNoRule" "parsers.fam.bar")
    /\ d_standalone d' = []
    /\ yara_rules d' = [].
Proof.
  apply (registered_before_extraction Examples2.picky_world None PARSER_FRAMEWORKS
           (Examples2.class_ 21 "MacoNoRule" "parsers.fam.bar") "parsers.fam.bar" Discovery_empty).
  - reflexivity.
  - reflexivity.
  - exists MACO. split; [now left | reflexivity].
  - intros fw names _ Hv. destruct fw; try discriminate Hv.
    exists (OtherError "no rule"), names. reflexivity.
Defined.

(** X7. A candidate without [__module__], as the module object that heads
    every unit's candidates, is never registered: whatever the adapters
    answer, the registry, the standalone sets and the rules stay as they
    were, and each adapter that accepts it logs the failed attribute
    lookup. *)
Theorem candidate_without_module_not_registered
    (W : World) (br : option string) (fws : list framework) (member : Member)
    (d : Discovery) :
  __module__ member = None ->
  exists d',
    try_frameworks W br fws member d = (Ret tt, d')
    /\ same_registry d d'
    /\ d_log d' = d_log d ++ attempt_log W br member fws.
Proof.
  intros Hm. revert d. induction fws as [|fw rest IH]; intros d.
  - exists d. simpl. rewrite app_nil_r.
    split; [reflexivity|]. split; [apply same_registry_refl | reflexivity].
  - destruct (claim_without_module W br fw member d Hm) as (d1 & E & S & L).
    destruct (IH d1) as (d' & E' & S' & L').
    exists d'. simpl try_frameworks. unfold bind. rewrite E.
    split; [exact E'|]. split; [eapply same_registry_trans; eassumption|].
    rewrite L', L. change (fw :: rest) with ([fw] ++ rest).
    unfold attempt_log. rewrite flat_map_app. now rewrite app_assoc.
Qed.

(** A module with an entry point: CAPE accepts it and cannot register it. *)
Lemma candidate_without_module_not_registered_witness :
  exists d',
    try_frameworks Examples.plain_world None PARSER_FRAMEWORKS Examples8.bare_module
      Discovery_empty = (Ret tt, d')
    /\ same_registry Discovery_empty d'
    /\ d_log d' = [LogError "<module 'cape.bare' from '/srv/cape/bare.py'>"
                     (AttributeError "__module__")].
Proof.
  apply (candidate_without_module_not_registered Examples.plain_world None
           PARSER_FRAMEWORKS Examples8.bare_module Discovery_empty).
  reflexivity.
Defined.

Section SkipFacts.

Lemma contains_prefix hay needle :
  String.prefix needle hay = true -> Str.contains hay needle = true.
Proof. intros H. destruct hay; cbn [Str.contains]; rewrite H; reflexivity. Qed.

Lemma contains_tail c hay needle :
  Str.contains hay needle = true -> Str.contains (String c hay) needle = true.
Proof. intros H. simpl. rewrite H. apply orb_true_r. Qed.

Lemma contains_app pre needle post :
  Str.contains (pre ++ needle ++ post) needle = true.
Proof.
  induction pre as [|c pre IH].
  - change (Str.contains (needle ++ post) needle = true).
    apply contains_prefix, StrFacts.prefix_refl_app.
  - apply contains_tail, IH.
Qed.

Lemma contains_dot_cons c s :
  Str.contains (String c s) "." = false ->
  Ascii.eqb c "."%char = false /\ Str.contains s "." = false.
Proof.
  cbn [Str.contains String.prefix]. destruct (Ascii.ascii_dec "." c) as [<-|N].
  - destruct s; discriminate.
  - cbn [orb]. intros H. split; [|exact H].
    apply Ascii.eqb_neq. congruence.
Qed.

Lemma last_component_aux_no_dot s cur :
  Str.contains s "." = false ->
  Str.last_component_aux s cur = Str.rev_string cur s.
Proof.
  revert cur. induction s as [|c s IH]; intros cur H; simpl.
  - clear H. revert cur. generalize EmptyString.
    intros acc cur. reflexivity.
  - apply contains_dot_cons in H. destruct H as [Hc Hs].
    rewrite Hc. rewrite (IH _ Hs). reflexivity.
Qed.

Lemma last_component_aux_app pkg name cur :
  Str.last_component_aux (pkg ++ "." ++ name) cur = Str.last_component_aux name "".
Proof.
  revert cur. induction pkg as [|c pkg IH]; intros cur; simpl.
  - reflexivity.
  - destruct (Ascii.eqb c "."); apply IH.
Qed.

Lemma last_component_app pkg name :
  Str.contains name "." = false ->
  Str.last_component (pkg ++ "." ++ name) = name.
Proof.
  intros H. unfold Str.last_component.
  rewrite last_component_aux_app. now rewrite last_component_aux_no_dot.
Qed.

End SkipFacts.

(** X8. The test for non-Python files is a substring test: a unit is
    skipped, neither imported nor inspected, as soon as the last component
    of its name occurs somewhere in the name of a file of the tree that is
    neither [.py] nor [.pyc].  Nothing is registered or logged for it. *)
Theorem non_python_file_shadows_unit
    (W : World) (br : option string) (root : Root) (root_site_packages : option string)
    (u : Unit_) (pkg name file : string) (d : Discovery) :
  module_name u = (pkg ++ "." ++ name)%string ->
  Str.contains name "." = false ->
  In file (not_py root) ->
  Str.contains file name = true ->
  walk_unit W br root root_site_packages u d = (Ret tt, d) /\ unit_candidates root u = [].
Proof.
  intros Hn Hd Hin Hc.
  assert (Hs : skipped root u = true).
  { unfold skipped. rewrite Hn, (last_component_app pkg name Hd).
    apply orb_true_iff. right. apply existsb_exists. exists file. auto. }
  unfold walk_unit, unit_candidates. rewrite Hs. split; reflexivity.
Qed.

(** The rule file [emotet.yara] next to [emotet.py]. *)
Lemma non_python_file_shadows_unit_witness :
  let u := mkUnit "parsers.fam.emotet" false "/srv/parsers/fam"
             (Ret (Examples2.module_ 70 "parsers.fam.emotet" "/srv/parsers/fam/emotet.py",
                   [Examples2.class_ 71 "MacoEmotet" "parsers.fam.emotet"])) in
  walk_unit Examples2.picky_world None Examples8.shadowed_root None u Discovery_empty
  = (Ret tt, Discovery_empty)
  /\ unit_candidates Examples8.shadowed_root u = [].
Proof.
  intros u.
  apply (non_python_file_shadows_unit Examples2.picky_world None Examples8.shadowed_root
           None u "parsers.fam" "emotet" "emotet.yara" Discovery_empty).
  - reflexivity.
  - reflexivity.
  - now left.
  - reflexivity.
Defined.

Section RekeyFacts.

Lemma set_fresh {V} (k : string) (v : V) (d : Dict.t string V) :
  ~ In k (Dict.keys d) -> Dict.set k v d = d ++ [(k, v)].
Proof.
  induction d as [|[k0 v0] d IH]; simpl; intros N; [reflexivity|].
  destruct (String.eqb_spec k k0) as [->|Hne]; [elim N; now left|].
  f_equal. apply IH. intros H. apply N. now right.
Qed.

Lemma replace_aux_absent old new s :
  Str.contains s old = false -> Str.replace_aux old new 0 s = s.
Proof.
  induction s as [|c s IH]; simpl; [reflexivity|].
  intros H. apply orb_false_iff in H. destruct H as [Hp Hc].
  rewrite Hp. f_equal. apply IH, Hc.
Qed.

Lemma replace_absent s old new :
  old <> EmptyString -> Str.contains s old = false -> Str.replace s old new = s.
Proof.
  intros Hne Hc. unfold Str.replace. destruct old; [now elim Hne|].
  now apply replace_aux_absent.
Qed.

Lemma fold_set_fresh {V} (f : string -> string) (ps acc : Dict.t string V) :
  (forall k, In k (Dict.keys ps) -> f k = k) ->
  NoDup (Dict.keys acc ++ Dict.keys ps) ->
  fold_left (fun a kv => Dict.set (f (fst kv)) (snd kv) a) ps acc = acc ++ ps.
Proof.
  revert acc. induction ps as [|[k v] ps IH]; intros acc Hf ND; simpl.
  - now rewrite app_nil_r.
  - rewrite (Hf k (or_introl eq_refl)).
    simpl in ND. pose proof (NoDup_remove_2 _ _ _ ND) as Nk.
    rewrite set_fresh by (intros H; apply Nk; apply in_or_app; now left).
    rewrite IH.
    + now rewrite <- app_assoc.
    + intros k' H. apply Hf. now right.
    + unfold Dict.keys in *. rewrite map_app. simpl. rewrite <- app_assoc. exact ND.
Qed.

End RekeyFacts.

(** X9. After a root was loaded from a staging copy, the registry keys are
    rewritten by replacing the staging directory's path in them.  Keys in
    which that path does not occur are kept as they are, with their
    parsers and in their order: on a registry without such keys the
    rewrite changes nothing. *)
Theorem staging_rewrite_keeps_other_keys (root : Root) (d : Discovery) :
  parsers_dir root <> EmptyString ->
  NoDup (Dict.keys (d_parsers d)) ->
  (forall k, In k (Dict.keys (d_parsers d)) ->
             Str.contains k (parsers_dir root) = false) ->
  correct_parsers root d = (Ret tt, d).
Proof.
  intros Hne ND Hk. unfold correct_parsers.
  destruct (String.eqb _ _); [reflexivity|].
  unfold modify, rekey.
  rewrite (fold_set_fresh
             (fun k => Str.replace k (parsers_dir root) (original_dir root))).
  - destruct d; reflexivity.
  - intros k H. apply replace_absent; [exact Hne | now apply Hk].
  - exact ND.
Qed.

(** The key [stage.fam.foo] of the staged root does not contain [/tmp/stage]. *)
Lemma staging_rewrite_keeps_other_keys_witness :
  let d := mkDiscovery [("stage.fam.foo", Examples2.class_ 51 "MacoA" "stage.fam.foo")] []
             ["rule MacoA /srv/parsers/fam/foo.py"] ["MacoA"] [] in
  correct_parsers Examples6.staged_root d = (Ret tt, d).
Proof.
  intros d. apply (staging_rewrite_keeps_other_keys Examples6.staged_root d).
  - discriminate.
  - repeat constructor; simpl; tauto.
  - intros k [<-|[]]. reflexivity.
Defined.

Section StandaloneFacts.
Variable W : World.
Variable P : Dict.t string (list Member) -> Prop.
Hypothesis P_add : forall fw m st,
  validate W fw m = Ret true -> P st ->
  P (Dict.set (fw_name fw)
       (set_add m (match Dict.get (fw_name fw) st with Some s => s | None => [] end)) st).

Lemma claim_standalone br fw member d c d' :
  P (d_standalone d) -> claim W br fw member d = (Ret c, d') -> P (d_standalone d').
Proof.
  intros HP.
  claim_cases_eq W br fw member d; intros [= <- <-]; simpl; try exact HP.
  now apply P_add.
Qed.

Lemma try_frameworks_standalone br fws member d d' :
  P (d_standalone d) ->
  try_frameworks W br fws member d = (Ret tt, d') -> P (d_standalone d').
Proof.
  revert d. induction fws as [|fw rest IH]; intros d HP; simpl.
  - now intros [= <-].
  - unfold bind. destruct (claim_total W br fw member d) as (c & d1 & E). rewrite E.
    pose proof (claim_standalone br fw member d c d1 HP E) as H1.
    destruct c; [now intros [= <-] | now apply IH].
Qed.

Lemma inspect_candidates_standalone br candidates d d' :
  P (d_standalone d) ->
  inspect_candidates W br candidates d = (Ret tt, d') -> P (d_standalone d').
Proof.
  revert d. induction candidates as [|m rest IH]; intros d HP; cbn [inspect_candidates].
  - now intros [= <-].
  - unfold bind.
    destruct (try_frameworks_total W br PARSER_FRAMEWORKS m d) as (d1 & E). rewrite E.
    apply IH. eapply try_frameworks_standalone; eassumption.
Qed.

Lemma walk_unit_standalone br root rsp u d d' :
  P (d_standalone d) -> walk_unit W br root rsp u d = (Ret tt, d') -> P (d_standalone d').
Proof.
  intros HP H. apply walk_unit_inv in H. destruct H as [[_ ->]|[_ H]]; [exact HP|].
  revert H. unfold load_unit. destruct (imported u) as [[module classes]|e].
  - unfold bind.
    destruct (inspect_candidates_total W br (module :: classes) d) as (d1 & E).
    rewrite E.
    pose proof (inspect_candidates_standalone br _ d d1 HP E) as H1.
    unfold correct_rules. destruct (String.eqb _ _); intros [= <-]; exact H1.
  - intros [= <-]. exact HP.
Qed.

Lemma walk_units_standalone br root rsp us d d' :
  P (d_standalone d) -> walk_units W br root rsp us d = (Ret tt, d') -> P (d_standalone d').
Proof.
  revert d. induction us as [|u rest IH]; intros d HP; simpl.
  - now intros [= <-].
  - unfold bind. destruct (walk_unit W br root rsp u d) as [[[]|e] d1] eqn:E; [|discriminate].
    apply IH. eapply walk_unit_standalone; eassumption.
Qed.

Lemma walk_root_standalone bl root d d' :
  P (d_standalone d) -> walk_root W bl root d = (Ret tt, d') -> P (d_standalone d').
Proof.
  intros HP H. apply walk_root_inv in H. destruct H as (br & rsp & d1 & _ & E & Hp).
  pose proof (walk_units_standalone br root rsp _ d d1 HP E) as H1.
  revert Hp. unfold correct_parsers. destruct (String.eqb _ _); intros [= <-]; exact H1.
Qed.

Lemma walk_roots_standalone bl roots d d' :
  P (d_standalone d) -> walk_roots W bl roots d = (Ret tt, d') -> P (d_standalone d').
Proof.
  revert d. induction roots as [|root rest IH]; intros d HP; simpl.
  - now intros [= <-].
  - unfold bind. destruct (walk_root W bl root d) as [[[]|e] d1] eqn:E; [|discriminate].
    apply IH. eapply walk_root_standalone; eassumption.
Qed.

End StandaloneFacts.

Lemma fw_name_inj fw fw' : fw_name fw = fw_name fw' -> fw = fw'.
Proof. destruct fw, fw'; simpl; intros H; try reflexivity; discriminate H. Qed.

Lemma framework_of_fw_name fw : framework_of_name (fw_name fw) = Some fw.
Proof. destruct fw; reflexivity. Qed.

Lemma set_add_nonempty m s : set_add m s <> [].
Proof.
  unfold set_add. destruct (existsb _ s) eqn:E.
  - destruct s; [discriminate E | discriminate].
  - destruct s; discriminate.
Qed.

Lemma set_add_NoDup m s : NoDup (map oid s) -> NoDup (map oid (set_add m s)).
Proof.
  intros ND. unfold set_add. destruct (existsb _ s) eqn:E; [exact ND|].
  rewrite map_app. simpl.
  apply NoDup_app; [exact ND | repeat constructor; simpl; tauto |].
  intros x Hx [<-|[]]. apply in_map_iff in Hx. destruct Hx as (y & Hy & Hin).
  assert (existsb (fun x => Nat.eqb (oid x) (oid m)) s = true).
  { apply existsb_exists. exists y. split; [exact Hin | now apply Nat.eqb_eq]. }
  congruence.
Qed.

Lemma standalone_by_adapter_add W fw m st :
  validate W fw m = Ret true ->
  standalone_by_adapter W st ->
  standalone_by_adapter W
    (Dict.set (fw_name fw)
       (set_add m (match Dict.get (fw_name fw) st with Some s => s | None => [] end)) st).
Proof.
  intros Hv [ND Hall]. split; [now apply DictFacts.NoDup_keys_set|].
  intros name s Hin. apply DictFacts.In_set in Hin.
  destruct Hin as [[-> ->]|Hin]; [|now apply Hall].
  exists fw. split; [reflexivity|]. split; [apply set_add_nonempty|].
  destruct (Dict.get (fw_name fw) st) as [s0|] eqn:Hg.
  - apply DictFacts.get_In in Hg.
    destruct (Hall _ _ Hg) as (fw' & Hfw & _ & ND0 & Hval).
    apply fw_name_inj in Hfw. subst fw'.
    split; [now apply set_add_NoDup|].
    intros x Hx. apply In_set_add in Hx. destruct Hx as [->|Hx]; auto.
  - split; [apply set_add_NoDup; constructor|].
    intros x Hx. apply In_set_add in Hx. destruct Hx as [->|[]]. exact Hv.
Qed.

(** X10. In a constructed extractor every standalone set is filed under
    the name of one of the three frameworks, is not empty and holds each
    parser object once, and each of its parsers is a candidate of the walk
    that this very framework's adapter accepted and the blocklist let
    through.  So the framework under which [run_parsers] runs a standalone
    parser always exists and is one that accepted it. *)
Theorem standalone_sets_by_adapter
    (W : World) (parsers_dirs : list Root) (parser_blocklist : list string)
    (cx : Extractor) :
  ConfigExtractor_init W parsers_dirs parser_blocklist = Ret cx ->
  NoDup (Dict.keys (standalone_parsers cx))
  /\ forall name s, Dict.get name (standalone_parsers cx) = Some s ->
       exists fw,
         framework_of_name name = Some fw
         /\ s <> []
         /\ NoDup (map oid s)
         /\ forall m, In m s ->
              validate W fw m = Ret true
              /\ In m (candidates_of parsers_dirs)
              /\ is_blocked W (blocklist_regex W parser_blocklist) (__name__ m) = false.
Proof.
  intros Hinit.
  destruct (init_discover W _ _ _ Hinit) as (d & Hd & _ & Hs & _).
  rewrite Hs.
  assert (Hinv : standalone_by_adapter W (d_standalone d)).
  { apply (walk_roots_standalone W (standalone_by_adapter W)
             (standalone_by_adapter_add W) parser_blocklist parsers_dirs
             Discovery_empty d); [|exact Hd].
    split; [constructor | intros ? ? []]. }
  destruct Hinv as [ND Hall]. split; [exact ND|].
  intros name s Hg. apply DictFacts.get_In in Hg.
  destruct (Hall _ _ Hg) as (fw & -> & Hne & NDs & Hval).
  exists fw. split; [apply framework_of_fw_name|]. split; [exact Hne|].
  split; [exact NDs|].
  intros m Hm. split; [now apply Hval|].
  destruct (discover_registered W parser_blocklist parsers_dirs d Hd) as [_ Hreg].
  destruct (Hreg s m) as (Hc & _ & Hb & _); [|exact Hm|auto].
  unfold Dict.values. apply in_map_iff. now exists (fw_name fw, s).
Qed.

(** The extractor of a directory with one standalone CAPE parser. *)
Lemma standalone_sets_by_adapter_witness :
  match ConfigExtractor_init Examples.plain_world [Examples8.cape_root] [] with
  | Ret cx =>
      standalone_parsers cx = [("CAPE", [Examples.good_parser])]
      /\ NoDup (Dict.keys (standalone_parsers cx))
  | Raise _ => False
  end.
Proof.
  destruct (ConfigExtractor_init Examples.plain_world [Examples8.cape_root] [])
    as [cx|e] eqn:E.
  - destruct (standalone_sets_by_adapter _ _ _ _ E) as [ND _].
    vm_compute in E. injection E as <-. split; [reflexivity | exact ND].
  - vm_compute in E. discriminate E.
Defined.

(* ------------------------------------------------------------------ *)
(** * Further properties of [run_parsers] *)

Section BatchFacts.
Variable W : World.

Lemma set_nonempty {K V} `{EqKey K} (k : K) (v : V) (d : Dict.t K V) :
  Dict.set k v d <> [].
Proof.
  destruct d as [|[k0 v0] d]; simpl; [discriminate|].
  destruct (keqb k k0); discriminate.
Qed.

Lemma queue_add_batches f p ms q :
  batches_by_parser q -> batches_by_parser (queue_add f p ms q).
Proof.
  intros [ND Hall]. unfold queue_add. split; [now apply DictFacts.NoDup_keys_set|].
  intros f' b' Hin. apply DictFacts.In_set in Hin.
  destruct Hin as [[-> ->]|Hin]; [|exact (Hall _ _ Hin)].
  split; [apply set_nonempty|].
  destruct (Dict.get f q) as [b|] eqn:G.
  - apply DictFacts.get_In in G. destruct (Hall _ _ G) as (_ & NDb & Hk).
    split; [now apply DictFacts.NoDup_keys_set|].
    intros k p' ms' I. apply DictFacts.In_set in I.
    destruct I as [[-> [= <- _]]|I]; [reflexivity | eapply Hk, I].
  - split; [apply DictFacts.NoDup_keys_set; constructor|].
    intros k p' ms' I. apply DictFacts.In_set in I.
    destruct I as [[-> [= <- _]]|[]]. reflexivity.
Qed.

Lemma collect_matches_batches br matches q names q' names' cx cx' :
  batches_by_parser q ->
  collect_matches W br matches q names cx = (Ret (q', names'), cx') ->
  batches_by_parser q'.
Proof.
  revert q names cx. induction matches as [|ym rest IH]; intros q names cx Hq;
    cbn [collect_matches].
  - now intros [= <- <- <-].
  - unfold bind, lookup_parser.
    destruct (Dict.get "parser_module" (meta ym)) as [k|]; [|discriminate].
    destruct (Dict.get k (parsers cx)) as [parser|]; [|discriminate].
    destruct (is_blocked W br (__name__ parser)).
    + simpl. apply IH, Hq.
    + apply IH. now apply queue_add_batches.
Qed.

Lemma collect_standalone_fw_batches br fw parser_list q q' cx cx' :
  batches_by_parser q ->
  collect_standalone_fw W br fw parser_list q cx = (Ret q', cx') ->
  batches_by_parser q'.
Proof.
  revert q cx. induction parser_list as [|p rest IH]; intros q cx Hq;
    cbn [collect_standalone_fw].
  - now intros [= <- <-].
  - destruct (is_blocked W br (__name__ p)).
    + unfold bind. simpl. apply IH, Hq.
    + apply IH. now apply queue_add_batches.
Qed.

Lemma collect_standalone_batches br items q q' cx cx' :
  batches_by_parser q ->
  collect_standalone W br items q cx = (Ret q', cx') ->
  batches_by_parser q'.
Proof.
  revert q cx. induction items as [|[fw parser_list] rest IH]; intros q cx Hq; simpl.
  - now intros [= <- <-].
  - unfold bind.
    destruct (collect_standalone_fw W br fw parser_list q cx) as [[q1|e] cx1] eqn:E;
      [|discriminate].
    apply IH. eapply collect_standalone_fw_batches; eassumption.
Qed.

Lemma keys_by_parser (b : Batch) :
  (forall k p ms, In (k, (p, ms)) b -> k = oid p) ->
  map oid (batch_parsers b) = Dict.keys b.
Proof.
  unfold batch_parsers, Dict.keys. induction b as [|[k [p ms]] b IH]; intros H; simpl.
  - reflexivity.
  - rewrite IH by (intros; eapply H; right; eassumption).
    f_equal. symmetry. eapply H. now left.
Qed.

Lemma queue_matches_add f p ms f' k' q :
  queue_matches f' k' (queue_add f p ms q)
  = if keqb f' f && Nat.eqb k' (oid p) then queue_matches f' k' q ++ ms
    else queue_matches f' k' q.
Proof.
  unfold queue_matches, queue_add.
  destruct (keqb_spec f' f) as [->|Nf]; simpl.
  - rewrite DictFacts.get_set_same.
    destruct (Nat.eqb_spec k' (oid p)) as [->|Nk].
    + rewrite DictFacts.get_set_same.
      destruct (Dict.get f q) as [b|]; [|reflexivity].
      destruct (Dict.get (oid p) b) as [[p0 l0]|]; reflexivity.
    + rewrite DictFacts.get_set_other by exact Nk.
      destruct (Dict.get f q) as [b|]; reflexivity.
  - now rewrite DictFacts.get_set_other.
Qed.

Lemma routed_same_parsers br cx cx0 f k ym :
  parsers cx = parsers cx0 -> routed W br cx f k ym = routed W br cx0 f k ym.
Proof. unfold routed, resolve. now intros ->. Qed.

Lemma collect_matches_grouped br cx0 matches q names q' names' cx cx' :
  parsers cx = parsers cx0 ->
  collect_matches W br matches q names cx = (Ret (q', names'), cx') ->
  forall f k,
    queue_matches f k q' = queue_matches f k q ++ filter (routed W br cx0 f k) matches.
Proof.
  revert q names cx. induction matches as [|ym rest IH]; intros q names cx Hp;
    cbn [collect_matches].
  - intros [= <- <- <-] f k. simpl. now rewrite app_nil_r.
  - unfold bind, lookup_parser.
    destruct (Dict.get "parser_module" (meta ym)) as [km|] eqn:Gm; [|discriminate].
    destruct (Dict.get km (parsers cx)) as [parser|] eqn:G; [|discriminate].
    assert (Hres : resolve cx0 ym = Some parser)
      by (unfold resolve; now rewrite Gm, <- Hp).
    destruct (is_blocked W br (__name__ parser)) eqn:Hb.
    + simpl. intros H f k.
      rewrite (fun E => IH _ _ _ E H f k) by exact Hp.
      cbn [filter]. unfold routed at 2. rewrite Hres, Hb. reflexivity.
    + intros H f k. rewrite (IH _ _ _ Hp H f k). rewrite queue_matches_add.
      cbn [filter]. unfold routed at 2. rewrite Hres, Hb. cbn [negb andb].
      destruct (keqb f (Dict.get "parser_framework" (meta ym)) && Nat.eqb k (oid parser)).
      * now rewrite <- app_assoc.
      * reflexivity.
Qed.

Lemma collect_standalone_fw_grouped br fw parser_list q q' cx cx' :
  collect_standalone_fw W br fw parser_list q cx = (Ret q', cx') ->
  forall f k, queue_matches f k q' = queue_matches f k q.
Proof.
  revert q cx. induction parser_list as [|p rest IH]; intros q cx;
    cbn [collect_standalone_fw].
  - now intros [= <- <-].
  - destruct (is_blocked W br (__name__ p)).
    + unfold bind. simpl. apply IH.
    + intros H f k. rewrite (IH _ _ H f k), queue_matches_add.
      destruct (_ && _); [apply app_nil_r | reflexivity].
Qed.

Lemma collect_standalone_grouped br items q q' cx cx' :
  collect_standalone W br items q cx = (Ret q', cx') ->
  forall f k, queue_matches f k q' = queue_matches f k q.
Proof.
  revert q cx. induction items as [|[fw parser_list] rest IH]; intros q cx; simpl.
  - now intros [= <- <-].
  - unfold bind.
    destruct (collect_standalone_fw W br fw parser_list q cx) as [[q1|e] cx1] eqn:E;
      [|discriminate].
    intros H f k. rewrite (IH _ _ H f k).
    eapply collect_standalone_fw_grouped, E.
Qed.

End BatchFacts.

(** X11. In the queue that a call builds, the framework names are
    distinct, no batch is empty and a batch holds each parser object once:
    a parser with several matching rules, or one that is standalone and
    also matched, is run once per framework, and the test
    [if parser_list:] never fails. *)
Theorem planned_batches
    (W : World) (sample : string) (parser_blocklist : list string)
    (cx cx' : Extractor) (q : RunQueue) :
  plan W sample parser_blocklist cx = (Ret q, cx') ->
  NoDup (Dict.keys q)
  /\ forall framework_ batch, Dict.get framework_ q = Some batch ->
       batch <> [] /\ NoDup (map oid (batch_parsers batch)).
Proof.
  unfold plan, bind, lift, gets.
  destruct (compile_blocklist W parser_blocklist) as [br|e]; [|discriminate].
  destruct (yara_match W (yara cx) sample) as [matches|e]; [|discriminate].
  destruct (collect_matches W br matches [] [] cx) as [[[q1 names]|e] cx1] eqn:E1;
    [|discriminate].
  simpl. intros E2.
  assert (H0 : batches_by_parser []) by (split; [constructor | intros ? ? []]).
  pose proof (collect_matches_batches W _ _ _ _ _ _ _ _ H0 E1) as H1.
  pose proof (collect_standalone_batches W _ _ _ _ _ _ H1 E2) as [ND Hall].
  split; [exact ND|].
  intros f batch G. apply DictFacts.get_In in G.
  destruct (Hall _ _ G) as (Hne & NDb & Hk).
  split; [exact Hne|]. now rewrite keys_by_parser.
Qed.

(** A standalone parser that a rule matches twice. *)
Lemma planned_batches_witness :
  match plan Examples8.twice_world "sample" [] Examples4.cx_standalone with
  | (Ret q, _) => NoDup (Dict.keys q) /\ List.length q = 1
  | (Raise _, _) => False
  end.
Proof.
  destruct (plan Examples8.twice_world "sample" [] Examples4.cx_standalone)
    as [[q|e] cx'] eqn:E.
  - destruct (planned_batches _ _ _ _ _ _ E) as [ND _].
    vm_compute in E. injection E as <- _. split; [exact ND | reflexivity].
  - vm_compute in E. discriminate E.
Defined.

(** X12. A call hands each parser the matches of its own rules: the list
    queued for a parser object under a framework consists of the matches
    whose rule names that framework and whose [parser_module] resolves to
    that object, unless it is blocked, in the order in which the ruleset
    reported them.  Standalone parsers add no match. *)
Theorem matches_grouped_by_parser
    (W : World) (sample : string) (parser_blocklist : list string)
    (block_regex : option string) (matches : list YaraMatch)
    (cx cx' : Extractor) (q : RunQueue) :
  compile_blocklist W parser_blocklist = Ret block_regex ->
  yara_match W (yara cx) sample = Ret matches ->
  plan W sample parser_blocklist cx = (Ret q, cx') ->
  forall framework_ k,
    queue_matches framework_ k q = filter (routed W block_regex cx framework_ k) matches.
Proof.
  intros Hc Hy. unfold plan, bind, lift, gets. rewrite Hc, Hy.
  destruct (collect_matches W block_regex matches [] [] cx) as [[[q1 names]|e] cx1] eqn:E1;
    [|discriminate].
  simpl. intros E2 f k.
  rewrite (collect_standalone_grouped W _ _ _ _ _ _ E2 f k).
  rewrite (collect_matches_grouped W _ cx _ _ _ _ _ _ _ eq_refl E1 f k).
  reflexivity.
Qed.

(** Two matches of the rules of one parser. *)
Lemma matches_grouped_by_parser_witness :
  match plan Examples8.twice_world "sample" [] Examples4.cx_standalone with
  | (Ret q, _) => List.length (queue_matches (Some "CAPE") 1 q) = 2
  | (Raise _, _) => False
  end.
Proof.
  destruct (plan Examples8.twice_world "sample" [] Examples4.cx_standalone)
    as [[q|e] cx'] eqn:E.
  - rewrite (matches_grouped_by_parser Examples8.twice_world "sample" [] None
               (match yara_match Examples8.twice_world "" "sample" with
                | Ret l => l
                | Raise _ => []
                end)
               Examples4.cx_standalone cx' q eq_refl eq_refl E).
    reflexivity.
  - vm_compute in E. discriminate E.
Defined.

Section CallFacts.
Variable W : World.

Lemma collect_matches_blocked br cx0 matches q names cx :
  parsers cx = parsers cx0 ->
  (forall ym, In ym matches ->
     exists p, resolve cx0 ym = Some p /\ is_blocked W br (__name__ p) = true) ->
  exists names' cx',
    collect_matches W br matches q names cx = (Ret (q, names'), cx')
    /\ parsers cx' = parsers cx
    /\ standalone_parsers cx' = standalone_parsers cx
    /\ invoked cx' = invoked cx
    /\ log cx' = log cx
         ++ map (fun p => LogInfo (blocking_message (__name__ p)))
              (flat_map (fun ym => match resolve cx0 ym with
                                   | Some p => [p]
                                   | None => []
                                   end) matches).
Proof.
  revert names cx. induction matches as [|ym rest IH]; intros names cx Hp Hall;
    cbn [collect_matches].
  - exists names, cx. simpl. rewrite app_nil_r. repeat split; reflexivity.
  - destruct (Hall ym (or_introl eq_refl)) as (p & Hr & Hb).
    unfold bind, lookup_parser. unfold resolve in Hr.
    destruct (Dict.get "parser_module" (meta ym)) as [km|] eqn:Gm; [|discriminate].
    rewrite Hp, Hr, Hb. simpl.
    destruct (IH (names ++ [Dict.get "parser_name" (meta ym)])
                (mkExtractor (parsers cx) (standalone_parsers cx) (yara cx)
                   (log cx ++ [LogInfo (blocking_message (__name__ p))]) (invoked cx))
                Hp (fun y H => Hall y (or_intror H)))
      as (names' & cx' & E & P1 & S1 & I1 & L1).
    exists names', cx'. split; [exact E|]. simpl in *.
    repeat split; try congruence.
    rewrite L1.
    replace (resolve cx0 ym) with (Some p) by (unfold resolve; now rewrite Gm).
    simpl. now rewrite <- app_assoc.
Qed.

Lemma collect_standalone_fw_blocked br fw parser_list q cx :
  (forall p, In p parser_list -> is_blocked W br (__name__ p) = true) ->
  exists cx',
    collect_standalone_fw W br fw parser_list q cx = (Ret q, cx')
    /\ parsers cx' = parsers cx
    /\ standalone_parsers cx' = standalone_parsers cx
    /\ invoked cx' = invoked cx
    /\ log cx' = log cx
         ++ map (fun p => LogInfo (blocking_message (__name__ p))) parser_list.
Proof.
  revert cx. induction parser_list as [|p rest IH]; intros cx Hall;
    cbn [collect_standalone_fw].
  - exists cx. simpl. rewrite app_nil_r. repeat split; reflexivity.
  - rewrite (Hall p (or_introl eq_refl)). unfold bind. simpl.
    destruct (IH (mkExtractor (parsers cx) (standalone_parsers cx) (yara cx)
                    (log cx ++ [LogInfo (blocking_message (__name__ p))]) (invoked cx))
                (fun y H => Hall y (or_intror H)))
      as (cx' & E & P1 & S1 & I1 & L1).
    exists cx'. split; [exact E|]. simpl in *. repeat split; try assumption.
    rewrite L1. now rewrite <- app_assoc.
Qed.

Lemma collect_standalone_blocked br items q cx :
  (forall s p, In s (Dict.values items) -> In p s ->
     is_blocked W br (__name__ p) = true) ->
  exists cx',
    collect_standalone W br items q cx = (Ret q, cx')
    /\ parsers cx' = parsers cx
    /\ standalone_parsers cx' = standalone_parsers cx
    /\ invoked cx' = invoked cx
    /\ log cx' = log cx
         ++ map (fun p => LogInfo (blocking_message (__name__ p)))
              (List.concat (Dict.values items)).
Proof.
  revert cx. induction items as [|[fw parser_list] rest IH]; intros cx Hall; simpl.
  - exists cx. rewrite app_nil_r. repeat split; reflexivity.
  - unfold bind.
    destruct (collect_standalone_fw_blocked br fw parser_list q cx
                (fun p H => Hall parser_list p (or_introl eq_refl) H))
      as (cx1 & E1 & P1 & S1 & I1 & L1).
    rewrite E1.
    destruct (IH cx1 (fun s p Hs H => Hall s p (or_intror Hs) H))
      as (cx' & E & P2 & S2 & I2 & L2).
    exists cx'. split; [exact E|]. repeat split; try congruence.
    rewrite L2, L1, map_app. now rewrite <- app_assoc.
Qed.

End CallFacts.

(** X14. When the blocklist of a call matches every parser that a match
    resolves to and every standalone parser, the call returns an empty
    mapping: no parser is called, and the log gets one line per blocked
    target, the matched ones first. *)
Theorem blocked_call_runs_nothing
    (W : World) (sample : string) (parser_blocklist : list string)
    (block_regex : option string) (matches : list YaraMatch) (cx : Extractor) :
  compile_blocklist W parser_blocklist = Ret block_regex ->
  yara_match W (yara cx) sample = Ret matches ->
  (forall ym, In ym matches ->
     exists p, resolve cx ym = Some p /\ is_blocked W block_regex (__name__ p) = true) ->
  (forall s p, In s (Dict.values (standalone_parsers cx)) -> In p s ->
     is_blocked W block_regex (__name__ p) = true) ->
  exists cx',
    run_parsers W sample parser_blocklist cx = (Ret [], cx')
    /\ invoked cx' = invoked cx
    /\ log cx' = log cx
         ++ map (fun p => LogInfo (blocking_message (__name__ p)))
              (call_targets cx matches).
Proof.
  intros Hc Hy Hm Hs. unfold run_parsers, plan, bind, lift, gets. rewrite Hc, Hy.
  destruct (collect_matches_blocked W block_regex cx matches [] [] cx eq_refl Hm)
    as (names & cx1 & E1 & P1 & S1 & I1 & L1).
  rewrite E1. simpl.
  rewrite <- S1 in Hs.
  destruct (collect_standalone_blocked W block_regex (standalone_parsers cx1) [] cx1 Hs)
    as (cx2 & E2 & P2 & S2 & I2 & L2).
  rewrite E2. simpl. exists cx2. split; [reflexivity|]. split; [congruence|].
  rewrite L2, L1, S1. unfold call_targets. rewrite map_app. now rewrite <- app_assoc.
Qed.

(** The standalone parser [good] and the blocklist [go]. *)
Lemma blocked_call_runs_nothing_witness :
  exists cx',
    run_parsers Examples.plain_world "sample" ["go"] Examples4.cx_standalone
    = (Ret [], cx')
    /\ invoked cx' = []
    /\ log cx' = [LogInfo "Blocking good based on passed blocklist regex list"].
Proof.
  apply (blocked_call_runs_nothing Examples.plain_world "sample" ["go"] (Some "go")
           [] Examples4.cx_standalone).
  - reflexivity.
  - reflexivity.
  - intros ym [].
  - intros s p [<-|[]] [<-|[]]. reflexivity.
Defined.

Section DeliveryFacts.
Variable W : World.

Lemma plan_batches_by_parser sample bl q cx cx' :
  plan W sample bl cx = (Ret q, cx') -> batches_by_parser q.
Proof.
  unfold plan, bind, lift, gets.
  destruct (compile_blocklist W bl) as [br|e]; [|discriminate].
  destruct (yara_match W (yara cx) sample) as [matches|e]; [|discriminate].
  destruct (collect_matches W br matches [] [] cx) as [[[q1 names]|e] cx1] eqn:E1;
    [|discriminate].
  simpl. intros E2.
  assert (H0 : batches_by_parser []) by (split; [constructor | intros ? ? []]).
  pose proof (collect_matches_batches W _ _ _ _ _ _ _ _ H0 E1) as H1.
  exact (collect_standalone_batches W _ _ _ _ _ _ H1 E2).
Qed.

Lemma run_frameworks_other sample items results results' cx cx' name :
  (forall batch, ~ In (Some name, batch) items) ->
  run_frameworks W sample items results cx = (Ret results', cx') ->
  Dict.get name results' = Dict.get name results.
Proof.
  revert results cx. induction items as [|[f b] rest IH]; intros results cx Hno;
    cbn [run_frameworks].
  - now intros [= <- _].
  - assert (Hrest : forall batch, ~ In (Some name, batch) rest)
      by (intros batch I; apply (Hno batch); now right).
    destruct b as [|b0 b]; [now apply IH|].
    unfold bind, lift.
    destruct (lookup_framework f) as [fw|e] eqn:L; [|discriminate].
    destruct (framework_run W fw sample (b0 :: b) cx) as [[recs|e] cx1]; [|discriminate].
    destruct (finalize recs) as [|r0 recs'] eqn:Ef; [now apply IH|].
    intros H. rewrite (IH _ _ Hrest H).
    apply DictFacts.get_set_other. intros ->.
    apply (Hno (b0 :: b)). left. f_equal.
    unfold lookup_framework in L. destruct f as [n0|]; [|discriminate].
    destruct (framework_of_name n0) as [fw0|] eqn:Efw; [|discriminate].
    injection L as ->. now rewrite (framework_of_name_name _ _ Efw).
Qed.

Lemma run_frameworks_CAPE sample items results results' cx cx' batch :
  NoDup (Dict.keys items) ->
  In (Some "CAPE", batch) items ->
  batch <> [] ->
  run_frameworks W sample items results cx = (Ret results', cx') ->
  exists cx2 cx3 recs0,
    CAPE_run W sample batch cx2 = (Ret recs0, cx3)
    /\ (recs0 <> [] -> Dict.get "CAPE" results' = Some (finalize recs0)).
Proof.
  revert results cx. induction items as [|[f b] rest IH]; intros results cx ND Hin Hne;
    [contradiction|].
  cbn [run_frameworks]. simpl in ND. inversion ND as [|? ? Hf ND']; subst.
  destruct Hin as [[= -> ->]|Hin].
  - destruct batch as [|b0 b]; [now elim Hne|].
    unfold bind, lift. simpl lookup_framework. cbn [framework_run].
    destruct (CAPE_run W sample (b0 :: b) cx) as [[recs0|e] cx1] eqn:Er; [|discriminate].
    intros H. exists cx, cx1, recs0. split; [exact Er|].
    intros Hrec.
    assert (Hrest : forall batch, ~ In (Some "CAPE", batch) rest).
    { intros batch I. apply Hf. unfold Dict.keys. apply in_map_iff.
      now exists (Some "CAPE", batch). }
    destruct (finalize recs0) as [|r0 recs'] eqn:Ef.
    { apply finalize_nil in Ef. now elim Hrec. }
    rewrite (run_frameworks_other _ _ _ _ _ _ _ Hrest H).
    apply DictFacts.get_set_same.
  - destruct b as [|b0 b]; [now apply IH|].
    unfold bind, lift.
    destruct (lookup_framework f) as [fw|e]; [|discriminate].
    destruct (framework_run W fw sample (b0 :: b) cx) as [[recs|e] cx1]; [|discriminate].
    destruct (finalize recs); now apply IH.
Qed.

Lemma run_frameworks_misfiled sample items results cx f batch e0 :
  In (f, batch) items ->
  batch <> [] ->
  lookup_framework f = Raise e0 ->
  exists e cx', run_frameworks W sample items results cx = (Raise e, cx').
Proof.
  revert results cx. induction items as [|[f1 b1] rest IH]; intros results cx Hin Hne L;
    [contradiction|].
  cbn [run_frameworks].
  destruct Hin as [[= -> ->]|Hin].
  - destruct batch as [|b0 b]; [now elim Hne|].
    unfold bind, lift. rewrite L. now eexists _, _.
  - destruct b1 as [|b0 b]; [now apply IH|].
    unfold bind, lift.
    destruct (lookup_framework f1) as [fw|e]; [|now eexists _, _].
    destruct (framework_run W fw sample (b0 :: b) cx) as [[recs|e] cx1];
      [|now eexists _, _].
    destruct (finalize recs); now apply IH.
Qed.

Lemma queued_batch f parser q :
  queued f parser q ->
  exists batch p ms,
    In (f, batch) q /\ batch <> [] /\ In (oid parser, (p, ms)) batch.
Proof.
  intros (batch & G & M). unfold Dict.mem in M.
  destruct (Dict.get (oid parser) batch) as [[p ms]|] eqn:Gp; [|discriminate].
  apply DictFacts.get_In in G. apply DictFacts.get_In in Gp.
  exists batch, p, ms. split; [exact G|]. split; [|exact Gp].
  intros ->. contradiction.
Qed.

Lemma In_concat_values {K} (d : Dict.t K (list Member)) k s m :
  In (k, s) d -> In m s -> In m (List.concat (Dict.values d)).
Proof.
  intros I Im. apply in_concat. exists s. split; [|exact Im].
  eapply DictFacts.In_values, I.
Qed.

End DeliveryFacts.

(** X15. What a CAPE parser extracts reaches the caller.  When a call of
    [run_parsers] returns, and a parser that is standalone under CAPE, or
    that a match of a CAPE rule resolves to, is not blocked and builds a
    record from the sample, then the result has the key ['CAPE'] and the
    records under it have the parser's name among their keys. *)
Theorem CAPE_output_is_reported
    (W : World) (sample : string) (parser_blocklist : list string)
    (block_regex : option string) (matches : list YaraMatch)
    (cx cx' : Extractor) (results : Result) (parser : Member) (rec : ResultRecord) :
  one_object_per_identity cx ->
  compile_blocklist W parser_blocklist = Ret block_regex ->
  yara_match W (yara cx) sample = Ret matches ->
  ((exists s, Dict.get "CAPE" (standalone_parsers cx) = Some s /\ In parser s)
   \/ (exists ym, In ym matches
                  /\ resolve cx ym = Some parser
                  /\ Dict.get "parser_framework" (meta ym) = Some "CAPE")) ->
  is_blocked W block_regex (__name__ parser) = false ->
  CAPE_record W sample parser rec ->
  run_parsers W sample parser_blocklist cx = (Ret results, cx') ->
  exists recs,
    Dict.get "CAPE" results = Some recs
    /\ In (get_name W CAPE parser) (Dict.keys recs).
Proof.
  intros Hid Hc Hy Hsrc Hb Hrec. unfold run_parsers, bind.
  destruct (plan W sample parser_blocklist cx) as [[q|e] cx1] eqn:Ep; [|discriminate].
  intros Hrun.
  destruct (plan_queues W sample parser_blocklist block_regex q cx cx1 Hc Ep) as [Hs Hm].
  assert (Hq : queued (Some "CAPE") parser q /\ In parser (known_parsers cx)).
  { destruct Hsrc as [(s & G & I)|(ym & I & R & F)].
    - split; [now apply (Hs "CAPE" s parser G I Hb)|].
      unfold known_parsers. apply in_or_app. right.
      apply DictFacts.get_In in G. eapply In_concat_values; eassumption.
    - unfold resolve in R.
      destruct (Dict.get "parser_module" (meta ym)) as [k|] eqn:Gk; [|discriminate].
      split.
      + rewrite <- F. now apply (Hm matches ym k parser Hy I Gk R Hb).
      + unfold known_parsers. apply in_or_app. left.
        apply DictFacts.get_In in R. eapply DictFacts.In_values, R. }
  destruct Hq as [Hq Hknown].
  destruct (queued_batch _ _ _ Hq) as (batch & p & ms & Hin & Hne & Hp).
  destruct (plan_batches_by_parser W _ _ _ _ _ Ep) as [ND Hall].
  destruct (Hall _ _ Hin) as (_ & _ & Hk).
  assert (Hbp : In p (batch_parsers batch)).
  { unfold batch_parsers. apply in_map_iff. now exists (oid parser, (p, ms)). }
  assert (p = parser) as ->.
  { apply Hid; [|exact Hknown|symmetry; exact (Hk _ _ _ Hp)].
    destruct (plan_members W _ _ _ _ _ Ep) as (br' & _ & Hmem).
    destruct (Hmem p) as [[I|(s & Is & I)] _].
    - unfold queue_members. apply in_flat_map.
      now exists (Some "CAPE", batch).
    - unfold known_parsers. apply in_or_app. now left.
    - unfold known_parsers. apply in_or_app. right. apply in_concat. now exists s. }
  destruct (run_frameworks_CAPE W _ _ _ _ _ _ _ ND Hin Hne Hrun)
    as (cx2 & cx3 & recs0 & Er & Hget).
  unfold CAPE_run in Er.
  destruct (CAPE_run_loop_records W _ _ _ _ _ _ Er) as (_ & _ & _ & Hkeys).
  pose proof (Hkeys parser rec Hbp Hrec) as Hname.
  exists (finalize recs0). split.
  - apply Hget. intros ->. contradiction.
  - unfold finalize. now rewrite DictFacts.keys_map_values.
Qed.

(** The standalone parser [good] on any sample. *)
Lemma CAPE_output_is_reported_witness :
  exists recs,
    Dict.get "CAPE" (match fst (run_parsers Examples.plain_world "sample" []
                                  Examples4.cx_standalone) with
                     | Ret results => results
                     | Raise _ => []
                     end) = Some recs
    /\ In "good" (Dict.keys recs).
Proof.
  destruct (run_parsers Examples.plain_world "sample" [] Examples4.cx_standalone)
    as [[results|e] cx'] eqn:E; [|vm_compute in E; discriminate E].
  apply (CAPE_output_is_reported Examples.plain_world "sample" [] None []
           Examples4.cx_standalone cx' results Examples.good_parser
           (mkRecord (PStr "author") (PStr "")
              (Some (mkConfig None [("family", PStr "good");
                                    ("other", PDict [("key", PStr "value")])])))).
  - intros m m' Hm Hm' _. cbv in Hm, Hm'.
    destruct Hm as [<-|[<-|[]]], Hm' as [<-|[<-|[]]]; reflexivity.
  - reflexivity.
  - reflexivity.
  - left. exists [Examples.good_parser]. split; [reflexivity | now left].
  - reflexivity.
  - exists (fun _ => Ret (PDict [("key", PStr "value")])), [],
      (PDict [("key", PStr "value")]), (PStr "author"), (PStr ""),
      (mkConfig None [("family", PStr "good");
                      ("other", PDict [("key", PStr "value")])]).
    repeat split; reflexivity.
  - exact E.
Defined.

(** X16. A match whose rule names no framework, or a name that is none of
    the three, makes the call fail as soon as it resolves to a parser that
    is not blocked: its batch cannot be run, and whatever the other
    parsers extracted is not returned. *)
Theorem misfiled_match_aborts_call
    (W : World) (sample : string) (parser_blocklist : list string)
    (block_regex : option string) (matches : list YaraMatch) (cx : Extractor)
    (ym : YaraMatch) (parser : Member) (e0 : exn) :
  compile_blocklist W parser_blocklist = Ret block_regex ->
  yara_match W (yara cx) sample = Ret matches ->
  In ym matches ->
  resolve cx ym = Some parser ->
  is_blocked W block_regex (__name__ parser) = false ->
  lookup_framework (Dict.get "parser_framework" (meta ym)) = Raise e0 ->
  exists e cx', run_parsers W sample parser_blocklist cx = (Raise e, cx').
Proof.
  intros Hc Hy Hin Hres Hb L. unfold run_parsers, bind.
  destruct (plan W sample parser_blocklist cx) as [[q|e] cx1] eqn:Ep;
    [|now eexists _, _].
  destruct (plan_queues W sample parser_blocklist block_regex q cx cx1 Hc Ep) as [_ Hm].
  unfold resolve in Hres.
  destruct (Dict.get "parser_module" (meta ym)) as [k|] eqn:Gk; [|discriminate].
  pose proof (Hm matches ym k parser Hy Hin Gk Hres Hb) as Hq.
  destruct (queued_batch _ _ _ Hq) as (batch & p & ms & Hq1 & Hne & _).
  exact (run_frameworks_misfiled W sample q [] cx1 _ batch e0 Hq1 Hne L).
Qed.

(** A rule filed under [YARP]. *)
Lemma misfiled_match_aborts_call_witness :
  exists e cx',
    run_parsers Examples8.misfiled_world "sample" [] Examples4.cx_standalone
    = (Raise e, cx').
Proof.
  apply (misfiled_match_aborts_call Examples8.misfiled_world "sample" [] None
           [mkMatch "good_a" [("parser_module", "parsers.good");
                              ("parser_framework", "YARP");
                              ("parser_name", "good")]]
           Examples4.cx_standalone
           (mkMatch "good_a" [("parser_module", "parsers.good");
                              ("parser_framework", "YARP");
                              ("parser_name", "good")])
           Examples.good_parser (KeyError InFrameworkMapping (Some "YARP"))).
  - reflexivity.
  - reflexivity.
  - now left.
  - reflexivity.
  - reflexivity.
  - reflexivity.
Defined.

(* ------------------------------------------------------------------ *)
(** * Properties of [get_details] *)

Section DetailsFacts.
Variable W : World.
Variable TLP : Member -> option pyval.
Variable ocl : framework -> Member -> outcome pyval.

Lemma details_loop_cases fws module :
  match details_loop W TLP ocl fws module with
  | Ret None => forall fw, In fw fws -> validate W fw module = Ret false
  | Ret (Some d) =>
      exists pre fw post classification,
        fws = pre ++ fw :: post
        /\ (forall fw', In fw' pre -> validate W fw' module = Ret false)
        /\ validate W fw module = Ret true
        /\ get_classification TLP ocl fw module = Ret classification
        /\ d = details W fw classification module
  | Raise e =>
      exists pre fw post,
        fws = pre ++ fw :: post
        /\ (forall fw', In fw' pre -> validate W fw' module = Ret false)
        /\ (validate W fw module = Raise e
            \/ (validate W fw module = Ret true
                /\ get_classification TLP ocl fw module = Raise e))
  end.
Proof.
  induction fws as [|fw rest IH]; simpl.
  - intros fw [].
  - destruct (validate W fw module) as [[|]|e] eqn:Hv.
    + destruct (get_classification TLP ocl fw module) as [c|e] eqn:Hc.
      * exists [], fw, rest, c. repeat split; auto. intros ? [].
      * exists [], fw, rest. repeat split; auto. intros ? [].
    + destruct (details_loop W TLP ocl rest module) as [[d|]|e].
      * destruct IH as (pre & fw0 & post & c & -> & Hpre & H).
        exists (fw :: pre), fw0, post, c. split; [reflexivity|]. split; [|exact H].
        intros fw' [<-|I]; auto.
      * intros fw' [<-|I]; auto.
      * destruct IH as (pre & fw0 & post & -> & Hpre & H).
        exists (fw :: pre), fw0, post. split; [reflexivity|]. split; [|exact H].
        intros fw' [<-|I]; auto.
    + exists [], fw, rest. repeat split; auto. intros ? [].
Qed.

Lemma get_details_first_acceptor_aux cx parser_path module :
  Dict.get parser_path (parsers cx) = Some module ->
  get_details W TLP ocl parser_path cx = Ret None ->
  forall fw, validate W fw module = Ret false.
Proof.
  intros Hg. unfold get_details. rewrite Hg.
  pose proof (details_loop_cases PARSER_FRAMEWORKS module) as H.
  destruct (details_loop W TLP ocl PARSER_FRAMEWORKS module) as [[d|]|e];
    try discriminate.
  intros _ fw. apply H. destruct fw; simpl; auto.
Qed.

End DetailsFacts.

(** X17. [get_details] reports the first adapter, in the order of
    [PARSER_FRAMEWORKS], whose [validate] accepts the registered object:
    the dictionary holds that adapter's name, its classification of the
    object (for CAPE the object's [TLP], or [None] without one) and its
    name for the object.  Unlike discovery, [get_details] does not catch
    what [validate] raises: the call fails with the exception of the first
    adapter that raises before any accepts, or of the classification. *)
Theorem get_details_first_acceptor
    (W : World) (TLP : Member -> option pyval)
    (other_get_classification : framework -> Member -> outcome pyval)
    (cx : Extractor) (parser_path : string) (module : Member) :
  Dict.get parser_path (parsers cx) = Some module ->
  match get_details W TLP other_get_classification parser_path cx with
  | Ret None => forall fw, validate W fw module = Ret false
  | Ret (Some d) =>
      exists pre fw post classification,
        PARSER_FRAMEWORKS = pre ++ fw :: post
        /\ (forall fw', In fw' pre -> validate W fw' module = Ret false)
        /\ validate W fw module = Ret true
        /\ get_classification TLP other_get_classification fw module = Ret classification
        /\ (fw = CAPE ->
            classification = match TLP module with Some tlp => tlp | None => PNone end)
        /\ d = [("framework", PStr (fw_name fw));
                ("classification", classification);
                ("name", PStr (get_name W fw module))]
  | Raise e =>
      exists pre fw post,
        PARSER_FRAMEWORKS = pre ++ fw :: post
        /\ (forall fw', In fw' pre -> validate W fw' module = Ret false)
        /\ (validate W fw module = Raise e
            \/ (validate W fw module = Ret true
                /\ get_classification TLP other_get_classification fw module = Raise e))
  end.
Proof.
  intros Hg. unfold get_details. rewrite Hg.
  pose proof (details_loop_cases W TLP other_get_classification PARSER_FRAMEWORKS module)
    as H.
  destruct (details_loop W TLP other_get_classification PARSER_FRAMEWORKS module)
    as [[d|]|e].
  - destruct H as (pre & fw & post & c & E & Hpre & Hv & Hc & ->).
    exists pre, fw, post, c. repeat split; auto.
    intros ->. simpl in Hc. injection Hc as <-. reflexivity.
  - intros fw. apply H. destruct fw; simpl; auto.
  - exact H.
Qed.

(** Where MWCP's [validate] raises a [TypeError] on what is not a class,
    discovery registers the parser [good] under CAPE and [get_details]
    fails. *)
Lemma get_details_first_acceptor_witness :
  d_standalone (snd (try_frameworks Examples10.typeerror_world None PARSER_FRAMEWORKS
                       Examples.good_parser Discovery_empty))
  = [("CAPE", [Examples.good_parser])]
  /\ get_details Examples10.typeerror_world Examples10.tlp Examples10.no_classification
       "parsers.good" Examples4.cx_standalone
     = Raise (TypeError "issubclass() arg 1 must be a class").
Proof.
  split; [reflexivity|].
  pose proof (get_details_first_acceptor Examples10.typeerror_world Examples10.tlp
                Examples10.no_classification Examples4.cx_standalone "parsers.good"
                Examples.good_parser eq_refl) as H.
  destruct (get_details Examples10.typeerror_world Examples10.tlp
              Examples10.no_classification "parsers.good" Examples4.cx_standalone)
    as [[d|]|e] eqn:E.
  - vm_compute in E. discriminate E.
  - vm_compute in E. discriminate E.
  - destruct H as (pre & fw & post & _).
    vm_compute in E. symmetry. exact E.
Defined.

(** X18. For a parser that discovery registered, [get_details] never
    returns [None]: some adapter accepted the object when it was
    registered, so the loop of [get_details] either returns the details
    under the first accepting adapter or fails with an exception of an
    adapter.  For a path that is not a key of the registry the lookup
    fails with a [KeyError]. *)
Theorem get_details_of_discovered
    (W : World) (TLP : Member -> option pyval)
    (other_get_classification : framework -> Member -> outcome pyval)
    (parsers_dirs : list Root) (parser_blocklist : list string) (cx : Extractor)
    (parser_path : string) :
  ConfigExtractor_init W parsers_dirs parser_blocklist = Ret cx ->
  get_details W TLP other_get_classification parser_path cx <> Ret None
  /\ (Dict.mem parser_path (parsers cx) = false ->
      get_details W TLP other_get_classification parser_path cx
      = Raise (KeyError InParsers (Some parser_path))).
Proof.
  intros Hinit. split.
  - destruct (Dict.get parser_path (parsers cx)) as [module|] eqn:Hg.
    + pose proof (get_details_first_acceptor_aux W TLP other_get_classification cx
                    parser_path module Hg) as H.
      destruct (init_discover W _ _ _ Hinit) as (d & Hd & Hp & _).
      destruct (discover_registered W parser_blocklist parsers_dirs d Hd) as [Hreg _].
      destruct (Hreg module) as (_ & Hcl & _).
      { rewrite <- Hp. apply DictFacts.get_In in Hg. eapply DictFacts.In_values, Hg. }
      intros E. specialize (H E).
      unfold claimed in Hcl. apply existsb_exists in Hcl.
      destruct Hcl as (fw & _ & Hv). unfold validates in Hv. now rewrite (H fw) in Hv.
    + unfold get_details. rewrite Hg. discriminate.
  - unfold Dict.mem, get_details.
    destruct (Dict.get parser_path (parsers cx)); [discriminate | reflexivity].
Qed.

(** The extractor of a directory with one standalone CAPE parser. *)
Lemma get_details_of_discovered_witness :
  match ConfigExtractor_init Examples.plain_world [Examples8.cape_root] [] with
  | Ret cx =>
      get_details Examples.plain_world Examples10.tlp Examples10.no_classification
        "parsers.good" cx <> Ret None
      /\ get_details Examples.plain_world Examples10.tlp Examples10.no_classification
           "parsers.gone" cx = Raise (KeyError InParsers (Some "parsers.gone"))
  | Raise _ => False
  end.
Proof.
  destruct (ConfigExtractor_init Examples.plain_world [Examples8.cape_root] [])
    as [cx|e] eqn:E.
  - destruct (get_details_of_discovered Examples.plain_world Examples10.tlp
                Examples10.no_classification _ _ cx "parsers.good" E) as [H1 _].
    destruct (get_details_of_discovered Examples.plain_world Examples10.tlp
                Examples10.no_classification _ _ cx "parsers.gone" E) as [_ H2].
    split; [exact H1|]. apply H2.
    vm_compute in E. injection E as <-. reflexivity.
  - vm_compute in E. discriminate E.
Defined.

(* ------------------------------------------------------------------ *)
(** * Properties of [cli.main] *)

Section CliFacts.
Variable W : World.
Variable isfile : string -> bool.
Variable walk : string -> list (string * list string).

Lemma frames_scan_files root files results :
  frames (scan_files W root files results).
Proof.
  revert results. induction files as [|file rest IH]; intros results; simpl.
  - apply frames_ret.
  - apply frames_bind; [apply frames_run_parsers|]. intros r.
    destruct r; apply IH.
Qed.

Lemma frames_scan_dirs dirs results : frames (scan_dirs W dirs results).
Proof.
  revert results. induction dirs as [|[root files] rest IH]; intros results; simpl.
  - apply frames_ret.
  - apply frames_bind; [apply frames_scan_files | intros; apply IH].
Qed.

Lemma frames_scan_sample sample_path : frames (scan_sample W isfile walk sample_path).
Proof.
  unfold scan_sample. destruct (isfile sample_path).
  - apply frames_bind; [apply frames_run_parsers | intros; apply frames_ret].
  - apply frames_scan_dirs.
Qed.

Lemma scan_samples_last paths p results0 results cx cx' :
  scan_samples W isfile walk (paths ++ [p]) results0 cx = (Ret results, cx') ->
  fst (scan_sample W isfile walk p cx) = Ret results.
Proof.
  revert results0 cx. induction paths as [|a rest IH]; intros results0 cx; simpl.
  - unfold bind.
    destruct (scan_sample W isfile walk p cx) as [[r|e] cx1]; [|discriminate].
    simpl. now intros [= <- _].
  - unfold bind.
    destruct (frames_scan_sample a cx) as [X _].
    destruct (scan_sample W isfile walk a cx) as [[r|e] cx1]; [|discriminate].
    simpl in X. intros H. apply IH in H. rewrite <- H.
    destruct (frames_scan_sample p cx) as [_ I]. symmetry. apply I.
    now apply extends_same_core.
Qed.

Lemma scan_paths_app l1 l2 results cx :
  scan_paths W (l1 ++ l2) results cx
  = bind (scan_paths W l1 results) (fun r => scan_paths W l2 r) cx.
Proof.
  revert results cx. induction l1 as [|p rest IH]; intros results cx; simpl.
  - reflexivity.
  - unfold bind in *.
    destruct (run_parsers W p [] cx) as [[r|e] cx1]; [|reflexivity].
    destruct r; apply IH.
Qed.

Lemma scan_files_paths root files results cx :
  scan_files W root files results cx
  = scan_paths W (map (path_join root) files) results cx.
Proof.
  revert results cx. induction files as [|file rest IH]; intros results cx; simpl;
    [reflexivity|].
  unfold bind.
  destruct (run_parsers W (path_join root file) [] cx) as [[r|e] cx1]; [|reflexivity].
  destruct r; apply IH.
Qed.

Lemma scan_dirs_paths dirs results cx :
  scan_dirs W dirs results cx
  = scan_paths W (flat_map (fun d => map (path_join (fst d)) (snd d)) dirs) results cx.
Proof.
  revert results cx. induction dirs as [|[root files] rest IH]; intros results cx; simpl;
    [reflexivity|].
  rewrite scan_paths_app. unfold bind. rewrite scan_files_paths.
  destruct (scan_paths W (map (path_join root) files) results cx) as [[r|e] cx1];
    [apply IH | reflexivity].
Qed.

Lemma run_parsers_same_core p cx0 cx :
  same_core cx0 cx -> fst (run_parsers W p [] cx) = fst (run_parsers W p [] cx0).
Proof. intros S. destruct (frames_run_parsers W p [] cx0) as [_ I]. now apply I. Qed.

Lemma run_parsers_keeps_core p cx0 cx :
  same_core cx0 cx -> same_core cx0 (snd (run_parsers W p [] cx)).
Proof.
  intros (P & S & Y). destruct (frames_run_parsers W p [] cx) as [X _].
  apply extends_same_core in X. destruct X as (P1 & S1 & Y1).
  repeat split; congruence.
Qed.

Lemma scan_paths_keeps cx0 paths results results' cx cx' path r :
  same_core cx0 cx ->
  scan_paths W paths results cx = (Ret results', cx') ->
  fst (run_parsers W path [] cx0) = Ret r ->
  Dict.get path results = Some (FileResult r) ->
  Dict.get path results' = Some (FileResult r).
Proof.
  revert results cx. induction paths as [|p rest IH]; intros results cx S; simpl.
  - now intros [= <- _].
  - unfold bind. pose proof (run_parsers_same_core p cx0 cx S) as V.
    pose proof (run_parsers_keeps_core p cx0 cx S) as S1.
    destruct (run_parsers W p [] cx) as [[r1|e] cx1]; [|discriminate].
    simpl in V, S1. destruct r1 as [|x r1].
    + apply IH, S1.
    + intros H Hr Hg. apply (IH _ _ S1 H Hr).
      destruct (String.eqb_spec path p) as [->|N].
      * rewrite DictFacts.get_set_same. congruence.
      * now rewrite DictFacts.get_set_other.
Qed.

Lemma scan_paths_spec cx0 paths results results' cx cx' :
  same_core cx0 cx ->
  scan_paths W paths results cx = (Ret results', cx') ->
  (forall path v, Dict.get path results' = Some v ->
     Dict.get path results = Some v
     \/ (In path paths
         /\ exists r, fst (run_parsers W path [] cx0) = Ret r
                      /\ r <> [] /\ v = FileResult r))
  /\ (forall path r, In path paths ->
        fst (run_parsers W path [] cx0) = Ret r -> r <> [] ->
        Dict.get path results' = Some (FileResult r))
  /\ (NoDup (Dict.keys results) -> NoDup (Dict.keys results')).
Proof.
  revert results cx. induction paths as [|p rest IH]; intros results cx S; simpl.
  - intros [= <- _]. split; [auto|]. split; [intros ? ? []|auto].
  - unfold bind. pose proof (run_parsers_same_core p cx0 cx S) as V.
    pose proof (run_parsers_keeps_core p cx0 cx S) as S1.
    destruct (run_parsers W p [] cx) as [[r1|e] cx1]; [|discriminate].
    simpl in V, S1. intros H.
    destruct r1 as [|x r1].
    + destruct (IH _ _ S1 H) as (A & B & C). split; [|split; [|exact C]].
      * intros path v G. destruct (A path v G) as [G'|(I & R)]; [auto|].
        right. split; [now right | exact R].
      * intros path r [<-|I] Hr Hne; [|now apply B].
        rewrite <- V in Hr. injection Hr as <-. now elim Hne.
    + destruct (IH _ _ S1 H) as (A & B & C). split; [|split].
      * intros path v G. destruct (A path v G) as [G'|(I & R)].
        -- destruct (String.eqb_spec path p) as [->|N].
           ++ rewrite DictFacts.get_set_same in G'. injection G' as <-.
              right. split; [now left|]. exists (x :: r1).
              split; [now symmetry|]. split; [discriminate | reflexivity].
           ++ rewrite DictFacts.get_set_other in G' by exact N. auto.
        -- right. split; [now right | exact R].
      * intros path r [<-|I] Hr Hne; [|now apply B].
        apply (scan_paths_keeps cx0 _ _ _ _ _ _ _ S1 H Hr).
        rewrite DictFacts.get_set_same. congruence.
      * intros ND. apply C. now apply DictFacts.NoDup_keys_set.
Qed.

Lemma scan_paths_raises cx0 pre path post results cx e :
  same_core cx0 cx ->
  (forall x, In x pre -> exists r, fst (run_parsers W x [] cx0) = Ret r) ->
  fst (run_parsers W path [] cx0) = Raise e ->
  fst (scan_paths W (pre ++ path :: post) results cx) = Raise e.
Proof.
  revert results cx. induction pre as [|p rest IH]; intros results cx S Hpre Hr; simpl.
  - unfold bind. pose proof (run_parsers_same_core path cx0 cx S) as V.
    destruct (run_parsers W path [] cx) as [[r1|e1] cx1]; simpl in V |- *; congruence.
  - unfold bind. pose proof (run_parsers_same_core p cx0 cx S) as V.
    pose proof (run_parsers_keeps_core p cx0 cx S) as S1.
    destruct (Hpre p (or_introl eq_refl)) as (r & Hp).
    destruct (run_parsers W p [] cx) as [[r1|e1] cx1]; simpl in V, S1; [|congruence].
    assert (Hrest : forall x, In x rest ->
                      exists r, fst (run_parsers W x [] cx0) = Ret r)
      by (intros x I; apply Hpre; now right).
    destruct r1; apply IH; auto.
Qed.

End CliFacts.

(** X19. Every sample path overwrites the results of the ones before it:
    when [main] prints a dictionary, it is the one that the last sample
    path alone gives.  (The earlier paths are scanned all the same, and an
    exception on one of them ends the command.) *)
Theorem last_sample_path_wins
    (W : World) (isfile : string -> bool) (walk : string -> list (string * list string))
    (parsers_paths : list Root) (sample_paths : list string) (sample_path : string)
    (block : list string) (results : CliResults) :
  main W isfile walk parsers_paths (sample_paths ++ [sample_path]) block = Ret results ->
  main W isfile walk parsers_paths [sample_path] block = Ret results.
Proof.
  unfold main.
  destruct (ConfigExtractor_init W parsers_paths block) as [cx|e]; [|discriminate].
  destruct (scan_samples W isfile walk (sample_paths ++ [sample_path]) [] cx)
    as [o cx'] eqn:E.
  simpl. intros ->.
  pose proof (scan_samples_last W isfile walk _ _ _ _ _ _ E) as H.
  simpl. unfold bind.
  destruct (scan_sample W isfile walk sample_path cx) as [[r|e] cx1]; simpl in *;
    congruence.
Qed.

(** A directory and then a file: only the file's result is printed. *)
Lemma last_sample_path_wins_witness :
  match main Examples.plain_world Examples11.isfile Examples11.walk
          [Examples8.cape_root] ["samples"; "marked.bin"] [] with
  | Ret results =>
      main Examples.plain_world Examples11.isfile Examples11.walk
        [Examples8.cape_root] ["marked.bin"] [] = Ret results
      /\ Dict.keys results = ["CAPE"]
  | Raise _ => False
  end.
Proof.
  destruct (main Examples.plain_world Examples11.isfile Examples11.walk
              [Examples8.cape_root] ["samples"; "marked.bin"] []) as [results|e] eqn:E.
  - split.
    + apply (last_sample_path_wins Examples.plain_world Examples11.isfile
               Examples11.walk [Examples8.cape_root] ["samples"] "marked.bin" []
               results E).
    + vm_compute in E. injection E as <-. reflexivity.
  - vm_compute in E. discriminate E.
Defined.

(** X20. For a sample path that is a directory, the printed dictionary
    has one entry per file of the walk on which [run_parsers] returns a
    non-empty result, under the file's joined path and with that result as
    its value; files without results leave no entry, and no path occurs
    twice. *)
Theorem directory_scan_results
    (W : World) (isfile : string -> bool) (walk : string -> list (string * list string))
    (sample_path : string) (cx cx' : Extractor) (results : CliResults) :
  isfile sample_path = false ->
  scan_sample W isfile walk sample_path cx = (Ret results, cx') ->
  NoDup (Dict.keys results)
  /\ (forall path v, Dict.get path results = Some v ->
        In path (walked_files walk sample_path)
        /\ exists r, fst (run_parsers W path [] cx) = Ret r
                     /\ r <> [] /\ v = FileResult r)
  /\ (forall path r, In path (walked_files walk sample_path) ->
        fst (run_parsers W path [] cx) = Ret r -> r <> [] ->
        Dict.get path results = Some (FileResult r)).
Proof.
  intros Hf. unfold scan_sample. rewrite Hf. rewrite scan_dirs_paths. intros H.
  assert (S : same_core cx cx) by now repeat split.
  destruct (scan_paths_spec W cx _ _ _ _ _ S H) as (A & B & C).
  split; [apply C; constructor|]. split; [|exact B].
  intros path v G. destruct (A path v G) as [G'|R]; [discriminate G' | exact R].
Qed.

(** A walk over two directories in a world where nothing matches. *)
Lemma directory_scan_results_witness :
  exists results,
    fst (scan_sample Examples.plain_world Examples11.isfile Examples11.walk "samples"
           Examples4.cx_standalone) = Ret results
    /\ NoDup (Dict.keys results)
    /\ Dict.keys results = ["samples/a.bin"; "samples/sub/b.bin"].
Proof.
  destruct (scan_sample Examples.plain_world Examples11.isfile Examples11.walk "samples"
              Examples4.cx_standalone) as [[results|e] cx'] eqn:E.
  - exists results. split; [reflexivity|].
    destruct (directory_scan_results Examples.plain_world Examples11.isfile
                Examples11.walk "samples" Examples4.cx_standalone cx' results
                eq_refl E) as (ND & _).
    split; [exact ND|]. vm_compute in E. injection E as <- _. reflexivity.
  - vm_compute in E. discriminate E.
Defined.

(** X21. The scan of a directory stops at the first file on which
    [run_parsers] raises: the exception leaves the scan, and with it the
    command, and the results of the files before it are not printed. *)
Theorem directory_scan_aborts
    (W : World) (isfile : string -> bool) (walk : string -> list (string * list string))
    (sample_path : string) (cx : Extractor)
    (before after : list string) (path : string) (e : exn) :
  isfile sample_path = false ->
  walked_files walk sample_path = before ++ path :: after ->
  (forall x, In x before -> exists r, fst (run_parsers W x [] cx) = Ret r) ->
  fst (run_parsers W path [] cx) = Raise e ->
  fst (scan_sample W isfile walk sample_path cx) = Raise e.
Proof.
  intros Hf Hw Hb Hr. unfold scan_sample. rewrite Hf. rewrite scan_dirs_paths.
  unfold walked_files in Hw. rewrite Hw.
  apply (scan_paths_raises W cx); auto. now repeat split.
Qed.

(** The second file of the walk cannot be scanned. *)
Lemma directory_scan_aborts_witness :
  fst (scan_sample Examples11.failing_world Examples11.isfile Examples11.walk "samples"
         Examples4.cx_standalone)
  = Raise (YaraError "could not open file").
Proof.
  apply (directory_scan_aborts Examples11.failing_world Examples11.isfile Examples11.walk
           "samples" Examples4.cx_standalone ["samples/a.bin"] [] "samples/sub/b.bin").
  - reflexivity.
  - reflexivity.
  - intros x [<-|[]]. eexists. vm_compute. reflexivity.
  - reflexivity.
Defined.

(* ------------------------------------------------------------------ *)
(** * Properties of [find_site_packages] *)

Example dirname_ex1 : Path.dirname "/srv/parsers/family" = "/srv/parsers".
Proof. reflexivity. Qed.

Example dirname_ex2 : Path.dirname "/srv" = "/".
Proof. reflexivity. Qed.

Example dirname_ex3 : Path.dirname "/" = "/".
Proof. reflexivity. Qed.

Example dirname_ex4 : Path.dirname "parsers" = "".
Proof. reflexivity. Qed.

Example dirname_ex5 : Path.dirname "/srv//parsers/" = "/srv//parsers".
Proof. reflexivity. Qed.

Example path_join_ex : path_join "/srv/parsers" "site-packages" = "/srv/parsers/site-packages".
Proof. reflexivity. Qed.

Section PathFacts.
Import Path.

Lemma app_nonempty_r (a b : string) : b <> EmptyString -> (a ++ b)%string <> EmptyString.
Proof. destruct a; simpl; [auto | discriminate]. Qed.

Lemma head_of_subdir d name :
  head_of name = EmptyString -> head_of (d ++ "/" ++ name) = (d ++ "/")%string.
Proof.
  intros Hn. induction d as [|c d IH].
  - simpl. rewrite Hn. reflexivity.
  - change (head_of (String c (d ++ "/" ++ name))
            = String c (d ++ "/")%string).
    cbn [head_of]. rewrite IH. destruct d; reflexivity.
Qed.

Lemma rstrip_app_sep d : rstrip (d ++ "/") = rstrip d.
Proof.
  induction d as [|c d IH]; [reflexivity|].
  change (rstrip (String c (d ++ "/")) = rstrip (String c d)).
  cbn [rstrip]. now rewrite IH.
Qed.

Lemma all_sep_app_sep d : all_sep (d ++ "/") = all_sep d.
Proof.
  induction d as [|c d IH]; [reflexivity|].
  change (all_sep (String c (d ++ "/")) = all_sep (String c d)).
  cbn [all_sep]. now rewrite IH.
Qed.

Lemma all_sep_rstrip d : all_sep d = true -> rstrip d = EmptyString.
Proof.
  induction d as [|c d IH]; [reflexivity|].
  cbn [all_sep rstrip]. intros H. apply andb_true_iff in H. destruct H as [Hc Hd].
  rewrite (IH Hd), Hc. reflexivity.
Qed.

Lemma plain_dir_not_all_sep d : plain_dir d -> all_sep d = false.
Proof.
  intros [Hne Hr]. destruct (all_sep d) eqn:E; [|reflexivity].
  apply all_sep_rstrip in E. congruence.
Qed.

Lemma dirname_subdir d name :
  plain_dir d -> head_of name = EmptyString -> dirname (subdir d name) = d.
Proof.
  intros Hd Hn. unfold dirname, subdir. rewrite (head_of_subdir d name Hn).
  rewrite all_sep_app_sep, (plain_dir_not_all_sep d Hd), rstrip_app_sep.
  destruct Hd as [Hne Hr]. rewrite Hr.
  destruct d as [|c d]; [now elim Hne | reflexivity].
Qed.

Lemma rstrip_app a b :
  b <> EmptyString -> rstrip b = b -> rstrip (a ++ b) = (a ++ b)%string.
Proof.
  intros Hne Hb. induction a as [|c a IH]; [exact Hb|].
  change (rstrip (String c (a ++ b)) = String c (a ++ b)).
  cbn [rstrip]. rewrite IH.
  destruct (a ++ b)%string eqn:E; [|reflexivity].
  now elim (app_nonempty_r a b Hne).
Qed.

Lemma head_of_rstrip name : head_of name = EmptyString -> rstrip name = name.
Proof.
  induction name as [|c name IH]; [reflexivity|].
  cbn [head_of rstrip].
  destruct (head_of name) eqn:Eh; [|discriminate].
  destruct (Ascii.eqb c "/"); [discriminate|].
  intros _. rewrite (IH eq_refl). destruct name; reflexivity.
Qed.

Lemma plain_subdir d name : plain_name name -> plain_dir (subdir d name).
Proof.
  intros [Hne Hh]. unfold subdir. split.
  - apply app_nonempty_r. discriminate.
  - apply rstrip_app; [discriminate|].
    apply (rstrip_app "/" name); [exact Hne|].
    now apply head_of_rstrip.
Qed.

Lemma length_append_string (a b : string) :
  String.length (a ++ b) = String.length a + String.length b.
Proof. induction a as [|c a IH]; simpl; [reflexivity | now rewrite IH]. Qed.

Lemma length_subdir d name : String.length d < String.length (subdir d name).
Proof.
  unfold subdir. rewrite length_append_string. simpl. lia.
Qed.

Lemma plain_descend d names :
  plain_dir d -> Forall plain_name names -> plain_dir (descend d names).
Proof.
  intros Hd Hn. revert d Hd. induction Hn as [|n names Hp _ IH]; intros d Hd; simpl.
  - exact Hd.
  - apply IH. now apply plain_subdir.
Qed.

Lemma length_descend d names :
  String.length d + List.length names <= String.length (descend d names).
Proof.
  revert d. induction names as [|n names IH]; intros d; simpl; [lia|].
  pose proof (IH (subdir d n)). pose proof (length_subdir d n). lia.
Qed.

Lemma descend_snoc d names n : descend d (names ++ [n]) = subdir (descend d names) n.
Proof. unfold descend. now rewrite fold_left_app. Qed.

Lemma length_head_of p : String.length (head_of p) <= String.length p.
Proof.
  induction p as [|c p IH]; [simpl; lia|].
  cbn [head_of]. destruct (head_of p) eqn:E.
  - destruct (Ascii.eqb c "/"); simpl; lia.
  - simpl in *. lia.
Qed.

Lemma length_rstrip s : String.length (rstrip s) <= String.length s.
Proof.
  induction s as [|c s IH]; [simpl; lia|].
  cbn [rstrip]. destruct (rstrip s) eqn:E.
  - destruct (Ascii.eqb c "/"); simpl; lia.
  - simpl in *. lia.
Qed.

Lemma length_rstrip_cons c s :
  String.length (rstrip (String c s)) <= S (String.length (rstrip s)).
Proof.
  cbn [rstrip]. destruct (rstrip s); [destruct (Ascii.eqb c "/")|]; simpl; lia.
Qed.

Lemma length_rstrip_head p :
  head_of p <> EmptyString ->
  String.length (rstrip (head_of p)) < String.length (head_of p).
Proof.
  induction p as [|c p IH]; [intros H; now elim H|].
  cbn [head_of]. destruct (head_of p) as [|c0 h] eqn:E.
  - destruct (Ascii.eqb c "/") eqn:Ec; [|intros H; now elim H].
    intros _. cbn [rstrip]. rewrite Ec. simpl. lia.
  - intros _. assert (H : String c0 h <> EmptyString) by discriminate.
    apply IH in H. pose proof (length_rstrip_cons c (String c0 h)) as H1.
    change (String.length (String c (String c0 h)))
      with (S (String.length (String c0 h))).
    lia.
Qed.

Lemma length_head_all_sep p :
  all_sep (head_of p) = true -> all_sep p = false ->
  String.length (head_of p) < String.length p.
Proof.
  induction p as [|c p IH]; [discriminate|].
  cbn [head_of all_sep]. destruct (head_of p) as [|c0 h] eqn:E.
  - destruct (Ascii.eqb c "/") eqn:Ec.
    + intros _. simpl. destruct p; [discriminate | simpl; lia].
    + intros _ _. simpl. lia.
  - cbn [all_sep]. intros H1 H2.
    apply andb_true_iff in H1. destruct H1 as [Hc Hh].
    rewrite Hc in H2. simpl in H2.
    specialize (IH Hh H2). simpl in *. lia.
Qed.

Lemma length_dirname p : String.length (dirname p) <= String.length p.
Proof.
  unfold dirname. pose proof (length_head_of p). pose proof (length_rstrip (head_of p)).
  destruct (negb _ && negb _); lia.
Qed.

Lemma length_dirname_lt p :
  all_sep p = false -> String.length (dirname p) < String.length p.
Proof.
  intros Hp. unfold dirname.
  destruct (String.eqb_spec (head_of p) "") as [E|N]; simpl.
  - rewrite E. destruct p; [discriminate | simpl; lia].
  - destruct (all_sep (head_of p)) eqn:Ea; simpl.
    + now apply length_head_all_sep.
    + pose proof (length_rstrip_head p N). pose proof (length_head_of p). lia.
Qed.

End PathFacts.

Section SearchFacts.
Variable listdir : string -> outcome (list string).

Lemma has_site_packages_In entries :
  has_site_packages entries = true <-> In "site-packages" entries.
Proof.
  unfold has_site_packages. rewrite existsb_exists. split.
  - intros (x & I & E). apply String.eqb_eq in E. now subst.
  - intros I. exists "site-packages". split; [exact I | apply String.eqb_refl].
Qed.

Lemma search_above depth parsers_dir lsp path :
  Path.all_sep parsers_dir = false ->
  path = parsers_dir \/ String.length path < String.length parsers_dir ->
  match find_site_packages listdir depth parsers_dir lsp path with
  | Ret None => False
  | Ret (Some sp) =>
      exists d entries,
        String.length d < String.length parsers_dir
        /\ listdir d = Ret entries
        /\ In "site-packages" entries
        /\ sp = path_join d "site-packages"
  | Raise _ => True
  end.
Proof.
  intros Hpd. revert path. induction depth as [|depth IH]; intros path Hpath; simpl;
    [exact I|].
  assert (Hlt : String.length (Path.dirname path) < String.length parsers_dir).
  { destruct Hpath as [->|Hl].
    - now apply length_dirname_lt.
    - pose proof (length_dirname path). lia. }
  destruct (String.eqb_spec (Path.dirname path) parsers_dir) as [E|N].
  { rewrite E in Hlt. lia. }
  destruct (listdir (Path.dirname path)) as [entries|e] eqn:El; [|exact I].
  destruct (has_site_packages entries) eqn:Hs.
  - exists (Path.dirname path), entries. repeat split; auto.
    now apply has_site_packages_In.
  - apply IH. now right.
Qed.

Lemma search_never_returns depth parsers_dir lsp path :
  Path.all_sep parsers_dir = false ->
  path = parsers_dir \/ String.length path < String.length parsers_dir ->
  (forall d entries, listdir d = Ret entries -> ~ In "site-packages" entries) ->
  exists e, find_site_packages listdir depth parsers_dir lsp path = Raise e.
Proof.
  intros Hpd Hpath Hno.
  pose proof (search_above depth parsers_dir lsp path Hpd Hpath) as H.
  destruct (find_site_packages listdir depth parsers_dir lsp path) as [[sp|]|e].
  - destruct H as (d & entries & _ & El & Hin & _). now elim (Hno d entries El).
  - contradiction.
  - now exists e.
Qed.

End SearchFacts.

(** X22. For a module in a folder below the parser directory, the search
    climbs from the folder to the parser directory; when none of the
    folders strictly between them holds a [site-packages], it answers with
    the [site-packages] of the parser directory, if any.  The folder of
    the module itself is not looked at. *)
Theorem site_packages_of_root
    (listdir : string -> outcome (list string)) (depth : nat) (parsers_dir : string)
    (lsp : option string) (names : list string) :
  plain_dir parsers_dir ->
  names <> [] ->
  Forall plain_name names ->
  (forall k, 0 < k < List.length names ->
     exists entries,
       listdir (descend parsers_dir (firstn k names)) = Ret entries
       /\ ~ In "site-packages" entries) ->
  List.length names <= depth ->
  find_site_packages listdir depth parsers_dir lsp (descend parsers_dir names) = Ret lsp.
Proof.
  intros Hpd. revert depth. induction names as [|n names IH] using rev_ind;
    intros depth Hne Hall Hmid Hdepth; [now elim Hne|].
  rewrite length_app in Hdepth. simpl in Hdepth.
  destruct depth as [|depth]; [lia|]. simpl.
  apply Forall_app in Hall. destruct Hall as [Hnames Hn].
  inversion Hn as [|? ? [_ Hhead] _]; subst.
  rewrite descend_snoc.
  rewrite (dirname_subdir _ n (plain_descend _ _ Hpd Hnames) Hhead).
  destruct names as [|m names'] eqn:En.
  - simpl. now rewrite String.eqb_refl.
  - rewrite <- En in *.
    assert (Hlen : 0 < List.length names) by (rewrite En; simpl; lia).
    destruct (String.eqb_spec (descend parsers_dir names) parsers_dir) as [E|_].
    { pose proof (length_descend parsers_dir names). rewrite E in H. lia. }
    destruct (Hmid (List.length names)) as (entries & El & Hno).
    { rewrite length_app. simpl. lia. }
    rewrite firstn_app, Nat.sub_diag, firstn_all in El. simpl in El.
    rewrite app_nil_r in El. rewrite El.
    destruct (has_site_packages entries) eqn:Hs.
    { apply has_site_packages_In in Hs. now elim Hno. }
    apply IH; [rewrite En; discriminate | exact Hnames | | lia].
    intros k Hk. destruct (Hmid k) as (entries' & El' & Hno').
    { rewrite length_app. simpl. lia. }
    exists entries'. split; [|exact Hno'].
    rewrite firstn_app in El'.
    replace (k - List.length names) with 0 in El' by lia.
    simpl in El'. now rewrite app_nil_r in El'.
Qed.

(** A module in [/srv/parsers/family/emotet], a folder with a
    [site-packages] of its own. *)
Lemma site_packages_of_root_witness :
  find_site_packages Examples12.listdir 5 "/srv/parsers"
    (Some "/srv/parsers/site-packages") "/srv/parsers/family/emotet"
  = Ret (Some "/srv/parsers/site-packages").
Proof.
  apply (site_packages_of_root Examples12.listdir 5 "/srv/parsers"
           (Some "/srv/parsers/site-packages") ["family"; "emotet"]).
  - split; [discriminate | reflexivity].
  - discriminate.
  - repeat constructor; discriminate.
  - intros k Hk. simpl in Hk. assert (k = 1) as -> by lia.
    exists ["emotet.py"]. split; [reflexivity|].
    intros [H|[]]. discriminate H.
  - simpl. lia.
Defined.

(** X23. For a module that lies directly in the parser directory the
    search starts at the parser directory itself.  It then looks above the
    parser directory and never comes back to it: it answers with the
    [site-packages] of a directory above, or it fails, with what [listdir]
    raises or by exceeding the recursion limit.  It never answers that
    there is none; where no directory holds a [site-packages] it fails. *)
Theorem search_from_root_leaves_root
    (listdir : string -> outcome (list string)) (depth : nat) (parsers_dir : string)
    (lsp : option string) :
  Path.all_sep parsers_dir = false ->
  match find_site_packages listdir depth parsers_dir lsp parsers_dir with
  | Ret None => False
  | Ret (Some sp) =>
      exists d entries,
        String.length d < String.length parsers_dir
        /\ listdir d = Ret entries
        /\ In "site-packages" entries
        /\ sp = path_join d "site-packages"
  | Raise _ => True
  end
  /\ ((forall d entries, listdir d = Ret entries -> ~ In "site-packages" entries) ->
      exists e, find_site_packages listdir depth parsers_dir lsp parsers_dir = Raise e).
Proof.
  intros Hpd. split.
  - apply search_above; auto.
  - apply search_never_returns; auto.
Qed.

(** The parser directory [/srv/parsers] in a file system without any
    [site-packages] above it. *)
Lemma search_from_root_leaves_root_witness :
  find_site_packages (fun _ => Ret ["emotet.py"]) 1000 "/srv/parsers" None "/srv/parsers"
  = Raise RecursionError.
Proof.
  destruct (search_from_root_leaves_root (fun _ => Ret ["emotet.py"]) 1000
              "/srv/parsers" None eq_refl) as [_ H].
  destruct H as (e & He).
  - intros d entries [= <-] [H|[]]. discriminate H.
  - rewrite He. vm_compute in He. injection He as <-. reflexivity.
Defined.
